(** * talking-robot: the audio-to-envelope-to-frame pipeline of [Waveform.py]

    A shallow embedding of [src/Waveform.py] and the properties its
    specification states about it.

    Numeric conventions.  Python [int]s are [Z].  Audio samples and envelope
    values are real numbers [R]: they go through [sqrt], [exp], [log10] and
    [cos], and the rounding of their last bits is not represented.  The
    timing arithmetic of the driver (sample rate, frame rate, seconds per
    frame, oversampling, positions inside the envelope) is given twice: in
    exact rationals [Q] (module [Waveform]) and in IEEE binary64, Python's
    [float], on Rocq's primitive floats (module [Binary64]).  The integers
    the driver derives with [int] (window, stride, frame count, window
    offset) depend on the rounding of every operation: what is stated about
    their derivation and about the frames written with them is stated on
    [Binary64].  A division by a zero standard deviation and the mean of an
    empty array are NaN in numpy and have no counterpart in [R]: the
    statements that promise rendered frames or bounds on their values assume
    a non-zero standard deviation and a window of one sample at least. *)

From Stdlib Require Import Floats.
From Stdlib Require Import String Ascii Decimal DecimalString.
From Stdlib Require Import ZArith QArith Qround Reals Lra Lia List Bool.
Import ListNotations.

(* Decimal literals such as [0.95] denote the nearest double, as in Python. *)
Set Warnings "-inexact-float".

(** ** Python built-ins used by the source *)

Module Py.

(** The exceptions the modelled code can raise; the message is kept where
    the source or the library fixes it. *)
Inductive exn : Type :=
| AssertionError (msg : string)
| ValueError (msg : string)
| ZeroDivisionError
| IndexError
| IOError (msg : string)
| OverflowError (msg : string).

Inductive result (A : Type) : Type :=
| Ok (a : A)
| Raise (e : exn).
Arguments Ok {A} a.
Arguments Raise {A} e.

Definition bind {A B : Type} (m : result A) (k : A -> result B) : result B :=
  match m with
  | Ok a => k a
  | Raise e => Raise e
  end.

(** A [for] loop whose body updates a state and may raise. *)
Fixpoint for_ {A S : Type} (l : list A) (body : A -> S -> result S) (s : S)
  : result S :=
  match l with
  | [] => Ok s
  | x :: t =>
      match body x s with
      | Ok s' => for_ t body s'
      | Raise e => Raise e
      end
  end.

(** [int(x)] on a float: truncation toward zero. *)
Definition int (x : Q) : Z := Z.quot (Qnum x) (Zpos (Qden x)).

(** [a / b] on Python numbers. *)
Definition truediv (a b : Q) : result Q :=
  if Qeq_bool b 0 then Raise ZeroDivisionError
  else Ok (a / b)%Q.

(** Number of elements of [range(0, stop, step)] for [step <> 0]
    (CPython's [compute_range_length]). *)
Definition range_length (stop step : Z) : nat :=
  if (0 <? step)%Z then
    if (0 <? stop)%Z then Z.to_nat ((stop - 1) / step + 1) else O
  else
    if (stop <? 0)%Z then Z.to_nat ((- stop - 1) / (- step) + 1) else O.

(** [range(0, stop, step)]. *)
Definition range (stop step : Z) : result (list Z) :=
  if (step =? 0)%Z then Raise (ValueError "range() arg 3 must not be zero")
  else Ok (map (fun k => (Z.of_nat k * step)%Z) (seq 0 (range_length stop step))).

(** [range(n)]. *)
Definition range1 (n : Z) : list Z := map Z.of_nat (seq 0 (Z.to_nat n)).

(** Resolution of one bound of a slice [a[i:j]] against the length. *)
Definition slice_index (len i : Z) : Z :=
  if (i <? 0)%Z then Z.max (i + len) 0 else Z.min i len.

(** [a[start:stop]]: never raises, the bounds are clipped. *)
Definition slice {A : Type} (a : list A) (start stop : Z) : list A :=
  let n := Z.of_nat (length a) in
  let i := slice_index n start in
  let j := slice_index n stop in
  firstn (Z.to_nat (j - i)) (skipn (Z.to_nat i) a).

(** [a[i]] for a non-negative index (the only kind the source uses). *)
Definition index {A : Type} (a : list A) (i : nat) : result A :=
  match nth_error a i with
  | Some x => Ok x
  | None => Raise IndexError
  end.

(** [f"{n:06d}"]: decimal digits, zero-padded to a minimal width of six
    (sign included). *)
Definition digits (n : Z) : string :=
  NilEmpty.string_of_uint (N.to_uint (Z.to_N (Z.abs n))).

Fixpoint zeros (k : nat) : string :=
  match k with
  | O => EmptyString
  | S k' => String "0" (zeros k')
  end.

Definition format_06d (n : Z) : string :=
  let d := digits n in
  if (n <? 0)%Z then
    String "-" (zeros (5 - String.length d) ++ d)%string
  else (zeros (6 - String.length d) ++ d)%string.

End Py.

Import Py.

Declare Scope py_scope.
Delimit Scope py_scope with py.
Notation "x <- m ;; k" := (Py.bind m (fun x => k))
  (at level 61, m at next level, right associativity) : py_scope.
Notation "' pat <- m ;; k" := (Py.bind m (fun x => match x with pat => k end))
  (at level 61, pat pattern, m at next level, right associativity) : py_scope.
Local Open Scope py_scope.

(** ** numpy operations on one-dimensional arrays *)

Module Np.
Local Open Scope R_scope.

Definition sum (a : list R) : R := fold_right Rplus 0 a.

(** [a.mean()]. *)
Definition mean (a : list R) : R := sum a / INR (length a).

(** [a.std()] (population standard deviation, [ddof = 0]). *)
Definition std (a : list R) : R :=
  let m := mean a in
  sqrt (mean (map (fun x => Rsqr (Rabs (x - m))) a)).

(** [np.maximum(a, c)] with a scalar [c]. *)
Definition maximum (a : list R) (c : R) : list R := map (fun x => Rmax x c) a.

(** [a.max()]: raises on an empty array. *)
Definition max (a : list R) : result R :=
  match a with
  | [] => Raise (ValueError
      "zero-size array to reduction operation maximum which has no identity")
  | x :: t => Ok (fold_left Rmax t x)
  end.

(** [np.clip(x, lo, hi)] on a scalar: [minimum(maximum(x, lo), hi)]. *)
Definition clip (x lo hi : R) : R := Rmin (Rmax x lo) hi.

(** [np.pad(a, (before, after))], constant mode, zeros. *)
Definition pad (a : list R) (before after : Z) : result (list R) :=
  if ((before <? 0) || (after <? 0))%Z
  then Raise (ValueError "index can't contain negative values")
  else Ok (repeat 0 (Z.to_nat before) ++ a ++ repeat 0 (Z.to_nat after)).

(** Elementwise binary operation with numpy's broadcasting of a length-one
    operand; any other length mismatch raises. *)
Definition broadcast (op : R -> R -> R) (a b : list R) : result (list R) :=
  if (length a =? length b)%nat then Ok (map (fun p => op (fst p) (snd p)) (combine a b))
  else match a, b with
       | [x], _ => Ok (map (fun y => op x y) b)
       | _, [y] => Ok (map (fun x => op x y) a)
       | _, _ => Raise (ValueError "operands could not be broadcast together")
       end.

(** In-place [a *= b]: the result keeps the shape of [a]. *)
Definition imul (a b : list R) : result (list R) :=
  if (length a =? length b)%nat then Ok (map (fun p => fst p * snd p) (combine a b))
  else match b with
       | [y] => Ok (map (fun x => x * y) a)
       | _ => Raise (ValueError "non-broadcastable output operand")
       end.

(** [a.mean(0)] of a two-dimensional array given as the list of its rows
    (all of the length of the first). *)
Definition mean_axis0 (a : list (list R)) : list R :=
  map (fun j => mean (map (fun row => nth j row 0) a))
      (seq 0 (length (hd [] a))).

(** Scalar times array. *)
Definition scale (c : R) (a : list R) : list R := map (fun x => c * x) a.

(** [np.hanning(M)]: [0.5 + 0.5 cos(pi n / (M - 1))] for
    [n = 1 - M, 3 - M, ..., M - 1]; a single one for [M = 1]; empty for
    [M < 1]. *)
Definition hanning (M : Z) : list R :=
  if (M <? 1)%Z then []
  else if (M =? 1)%Z then [1]
  else map (fun k => 0.5 + 0.5 * cos (PI * IZR (1 - M + 2 * Z.of_nat k) / IZR (M - 1)))
           (seq 0 (Z.to_nat M)).

(** [math.log10(x)]: a domain error outside the positive reals. *)
Definition log10 (x : R) : result R :=
  if Rlt_dec 0 x then Ok (ln x / ln 10)
  else Raise (ValueError "math domain error").

End Np.

(** ** [Waveform.py] *)

Module Waveform.
Local Open Scope R_scope.

Definition sigmoid (x : R) : R := 1 / (1 + exp (- x)).

(** The audio compressor applied at the end of [envelope]. *)
Definition compress (x : R) : R := 1.9 * (sigmoid (2.5 * x) - 0.5).

(** One pooled value: [np.maximum(frame, 0).mean()]. *)
Definition pool (frame : list R) : R := Np.mean (Np.maximum frame 0).

Definition envelope (wav : list R) (window stride : Z) : result (list R) :=
  wav' <- Np.pad wav (window / 2) (window / 2) ;;
  offs <- Py.range (Z.of_nat (length wav') - window) stride ;;
  let out := map (fun off => pool (Py.slice wav' off (off + window))) offs in
  Ok (map compress out).

Definition interpole (x1 y1 x2 y2 x : R) : R :=
  y1 + (y2 - y1) * (x - x1) / (x2 - x1).

(** *** Rendering with cairo

    The image a cairo context produces is determined by the sequence of
    calls made on it; a surface is modelled by that sequence. *)

Definition rgb : Type := (Q * Q * Q)%type.

Inductive cairo : Type :=
| scale (sx sy : Z)
| set_source_rgb (c : rgb)
| set_source_rgba (c : rgb) (alpha : R)
| rectangle (x y w h : R)
| fill
| set_line_width (w : R)
| move_to (x y : R)
| line_to (x y : R)
| stroke.

Record png : Type := mkpng { path : string; size_px : Z * Z; calls : list cairo }.

(** The two strokes of one bar: body of the inner loop of [draw_env]. *)
Definition draw_bar (envs : list (list R)) (fg_colors : list rgb)
    (K : nat) (pad delta : R) (step i : nat) (ctx : list cairo)
  : result (list cairo) :=
  env <- Py.index envs i ;;
  e <- Py.index env step ;;
  let half := 0.5 * e in
  let half := half / INR K in
  let midrule := (1 + 2 * INR i) / (2 * INR K) in
  c <- Py.index fg_colors i ;;
  Ok (ctx ++ [ set_source_rgb c;
               move_to (pad + INR step * delta) (midrule - half);
               line_to (pad + INR step * delta) midrule;
               stroke;
               set_source_rgba c 0.8;
               move_to (pad + INR step * delta) midrule;
               line_to (pad + INR step * delta) (midrule + 0.9 * half);
               stroke ]).

Definition draw_env (envs : list (list R)) (out : string)
    (fg_colors : list rgb) (bg_color : rgb) (size : Z * Z) : result png :=
  let ctx := [ scale (fst size) (snd size);
               set_source_rgb bg_color; rectangle 0 0 1 1; fill ] in
  let K := length envs in
  env0 <- Py.index envs 0 ;;
  let T := length env0 in
  let pad_ratio := 0.1 in
  width <- (if (T =? 0)%nat
            then Raise ZeroDivisionError
            else Ok (1 / (INR T * (1 + 2 * pad_ratio)))) ;;
  let pad := pad_ratio * width in
  let delta := 2 * pad + width in
  let ctx := ctx ++ [ set_line_width width ] in
  ctx <- Py.for_ (seq 0 T) (fun step =>
           Py.for_ (seq 0 K) (draw_bar envs fg_colors K pad delta step)) ctx ;;
  Ok (mkpng out size ctx).

(** *** The driver *)

Record config : Type := mkconfig {
  tmp : string;
  rate : Q;
  bars : Z;
  speed : Q;
  time : Q;
  oversample : Q;
  fg_color : rgb;
  fg_color2 : rgb;
  bg_color : rgb;
  size : Z * Z;
  stereo : bool
}.

(** The defaults of [visualize]. *)
Definition default_config : config :=
  {| tmp := "generated/tmp"; rate := 20; bars := 50; speed := 4;
     time := 0.4; oversample := 3;
     fg_color := (0.2, 0.2, 0.2)%Q; fg_color2 := (0.5, 0.3, 0.6)%Q;
     bg_color := (1, 1, 1)%Q; size := (400, 400)%Z; stereo := false |}.

(** Lines 185-192: the list of channels to draw. *)
Definition select_channels (stereo : bool) (wav : list (list R))
  : result (list (list R)) :=
  if stereo then
    if (length wav =? 2)%nat
    then Ok [nth 0 wav []; nth 1 wav []]
    else Raise (AssertionError "stereo requires stereo audio file")
  else Ok [Np.mean_axis0 wav].

(** Lines 193-194. *)
Definition normalize (wavs : list (list R)) : list (list R) :=
  map (fun wav => map (fun x => x / Np.std wav) wav) wavs.

(** Lines 196-197. *)
Definition derive_window (sr : Q) (c : config) : result Z :=
  q <- Py.truediv (sr * time c) (inject_Z (bars c)) ;;
  Ok (Py.int q).

Definition derive_stride (window : Z) (c : config) : result Z :=
  q <- Py.truediv (inject_Z window) (oversample c) ;;
  Ok (Py.int q).

(** Lines 199-203: body of the loop over channels. *)
Definition padded_envelope (c : config) (window stride : Z) (wav : list R)
    (envs : list (list R)) : result (list (list R)) :=
  env <- envelope wav window stride ;;
  env <- Np.pad env (bars c / 2) (2 * bars c) ;;
  Ok (envs ++ [env]).

(** Lines 205-206. *)
Definition frame_count (c : config) (nsamples : nat) (sr : Q) : result Z :=
  duration <- Py.truediv (inject_Z (Z.of_nat nsamples)) sr ;;
  Ok (Py.int (rate c * duration)).

(** Lines 211-213. *)
Definition position (c : config) (sr : Q) (stride idx : Z) : result Q :=
  t <- Py.truediv (inject_Z idx) (rate c) ;;
  p <- Py.truediv (t * sr) (inject_Z stride) ;;
  Py.truediv p (inject_Z (bars c)).

(** Lines 216-225: body of the loop over channels, for one frame. *)
Definition blend (c : config) (smooth : list R) (off : Z) (loc : Q)
    (env : list R) (denvs : list (list R)) : result (list (list R)) :=
  let env1 := Py.slice env (off * bars c) ((off + 1) * bars c) in
  let env2 := Py.slice env ((off + 1) * bars c) ((off + 2) * bars c) in
  m <- Np.max env2 ;;
  l <- Np.log10 (1e-4 + m) ;;
  let maxvol := l * 10 in
  let speedup := Np.clip (interpole (-6) 0.5 0 2 maxvol) 0.5 2 in
  let w := sigmoid (Q2R (speed c) * speedup * (Q2R loc - 0.5)) in
  denv <- Np.broadcast Rplus (Np.scale (1 - w) env1) (Np.scale w env2) ;;
  denv <- Np.imul denv smooth ;;
  Ok (denvs ++ [denv]).

Definition frame_path (c : config) (audioID : string) (idx : Z) : string :=
  (tmp c ++ "/" ++ audioID ++ "-" ++ Py.format_06d idx ++ ".png")%string.

(** Lines 212-226: one iteration of the frame loop once line 211 has
    computed [pos]. *)
Definition frame_at (c : config) (audioID : string)
    (envs : list (list R)) (smooth : list R) (idx : Z) (pos : Q) : result png :=
  let off := Py.int pos in
  let loc := (pos - inject_Z off)%Q in
  denvs <- Py.for_ envs (blend c smooth off loc) [] ;;
  draw_env denvs (frame_path c audioID idx) [fg_color c; fg_color2 c]
           (bg_color c) (size c).

(** Lines 211-226: one iteration of the frame loop. *)
Definition frame (c : config) (audioID : string) (sr : Q) (stride : Z)
    (envs : list (list R)) (smooth : list R) (idx : Z) : result png :=
  pos <- position c sr stride idx ;;
  frame_at c audioID envs smooth idx pos.

(** The frame loop: the files written so far are kept when a frame raises. *)
Fixpoint frames_loop (body : Z -> result png) (idxs : list Z) (fs : list png)
  : list png * result unit :=
  match idxs with
  | [] => (fs, Ok tt)
  | idx :: rest =>
      match body idx with
      | Ok f => frames_loop body rest (fs ++ [f])
      | Raise e => (fs, Raise e)
      end
  end.

(** What is computed before the first frame (lines 185-207). *)
Record analysis : Type := mkanalysis {
  a_stride : Z;
  a_envs : list (list R);
  a_frames : Z;
  a_smooth : list R
}.

Definition analyse (c : config) (wav : list (list R)) (sr : Q) : result analysis :=
  wavs <- select_channels (stereo c) wav ;;
  let wavs := normalize wavs in
  window <- derive_window sr c ;;
  stride <- derive_stride window c ;;
  envs <- Py.for_ wavs (padded_envelope c window stride) [] ;;
  frames <- frame_count c (length (nth 0 wavs [])) sr ;;
  Ok (mkanalysis stride envs frames (Np.hanning (bars c))).

(** [visualize]: [decoded] is the outcome of [read_audio] (an external
    decoder, whose exceptions are re-raised), [fs] the files written to the
    working directory so far, in the order of the writes. *)
Definition visualize (audioID : string)
    (decoded : result (list (list R) * Q)) (c : config) (fs : list png)
  : list png * result unit :=
  match decoded with
  | Raise e => (fs, Raise e)
  | Ok (wav, sr) =>
      match analyse c wav sr with
      | Raise e => (fs, Raise e)
      | Ok a =>
          frames_loop (frame c audioID sr (a_stride a) (a_envs a) (a_smooth a))
                      (Py.range1 (a_frames a)) fs
      end
  end.

End Waveform.

Import Waveform.

(** Number of values of the padded envelope of a channel of [nsamples]
    samples: the head padding, one value per stride-aligned window, the tail
    padding (lines 92-96 and 202). *)
Definition env_size (bars window stride : Z) (nsamples : nat) : Z :=
  (bars / 2
   + Z.max 0 ((Z.of_nat nsamples + 2 * (window / 2) - window + stride - 1) / stride)
   + 2 * bars)%Z.

(** ** The driver's arithmetic in IEEE binary64

    Python's [float] is an IEEE binary64 number and every operation on it is
    rounded to nearest; these are Rocq's primitive floats.  The functions
    below are lines 196, 197, 205-206 and 211 of [visualize] read that way,
    and the driver built on them.  The parameters a caller passes as decimal
    literals or integers ([time = 0.4], [rate = 20]) and the sample rate
    [float(stream['sample_rate'])] are kept as the rationals they are written
    as and converted by [of_Q], as Python's parser does.  Samples stay real
    numbers. *)

Module Binary64.
Local Open Scope float_scope.

(** [float(n)] of an integer, as for the integer operand of a float
    operation: the nearest double, [n] itself below [2^53] in absolute
    value (from [2^1024] on Python raises [OverflowError], here it is an
    infinity). *)
Definition of_int (n : Z) : float :=
  SF2Prim (binary_normalize prec emax n 0 false).

(** The double nearest to a ratio of two integers below [2^53]: the value
    of a decimal literal or of an integer, and every double itself. *)
Definition of_Q (q : Q) : float := of_int (Qnum q) / of_int (Zpos (Qden q)).

(** The number a finite double stands for; [int] raises on the others. *)
Definition exact (x : float) : result Q :=
  match Prim2SF x with
  | S754_zero _ => Ok 0%Q
  | S754_finite s m e =>
      Ok (Qred ((if s then (-1)%Q else 1%Q) * inject_Z (Zpos m) * Qpower 2%Q e))
  | S754_infinity _ =>
      Raise (OverflowError "cannot convert float infinity to integer")
  | S754_nan => Raise (ValueError "cannot convert float NaN to integer")
  end.

(** [int(x)] on a float. *)
Definition int (x : float) : result Z :=
  q <- exact x ;;
  Ok (Py.int q).

(** [a / b] on Python numbers. *)
Definition truediv (a b : float) : result float :=
  if b =? 0 then Raise ZeroDivisionError else Ok (a / b).

(** [a / b] on numpy arrays and scalars: the IEEE quotient.  A zero divisor
    gives NaN or an infinity (and a warning), never an exception. *)
Definition divide (a b : float) : float := a / b.

(** Line 194 on a channel of doubles, [s] being what [wav.std()] returned. *)
Definition normalize_channel (wav : list float) (s : float) : list float :=
  map (fun x => divide x s) wav.

(** Line 83 once [np.exp(-x)] has returned [e]. *)
Definition sigmoid_exp (e : float) : float := 1 / (1 + e).

(** Line 99 on one pooled value [x], [e] being [np.exp(-(2.5 * x))]. *)
Definition compress_exp (e : float) : float := 1.9 * (sigmoid_exp e - 0.5).

(** Line 196. *)
Definition derive_window (sr : Q) (c : config) : result Z :=
  q <- truediv (of_Q sr * of_Q (time c)) (of_int (bars c)) ;;
  int q.

(** Line 197. *)
Definition derive_stride (window : Z) (c : config) : result Z :=
  q <- truediv (of_int window) (of_Q (oversample c)) ;;
  int q.

(** Lines 205-206. *)
Definition frame_count (c : config) (nsamples : nat) (sr : Q) : result Z :=
  duration <- truediv (of_int (Z.of_nat nsamples)) (of_Q sr) ;;
  int (of_Q (rate c) * duration).

(** Line 211. *)
Definition position (c : config) (sr : Q) (stride idx : Z) : result float :=
  t <- truediv (of_int idx) (of_Q (rate c)) ;;
  p <- truediv (t * of_Q sr) (of_int stride) ;;
  truediv p (of_int (bars c)).

(** Lines 211-226.  [int(pos)] raises unless [pos] is finite; [pos - off]
    is then exact (the fractional part of a double is a double). *)
Definition frame (c : config) (audioID : string) (sr : Q) (stride : Z)
    (envs : list (list R)) (smooth : list R) (idx : Z) : result png :=
  x <- position c sr stride idx ;;
  pos <- exact x ;;
  frame_at c audioID envs smooth idx pos.

(** Lines 185-207. *)
Definition analyse (c : config) (wav : list (list R)) (sr : Q) : result analysis :=
  wavs <- select_channels (stereo c) wav ;;
  let wavs := normalize wavs in
  window <- derive_window sr c ;;
  stride <- derive_stride window c ;;
  envs <- Py.for_ wavs (padded_envelope c window stride) [] ;;
  frames <- frame_count c (length (nth 0 wavs [])) sr ;;
  Ok (mkanalysis stride envs frames (Np.hanning (bars c))).

(** [visualize], as [Waveform.visualize]. *)
Definition visualize (audioID : string)
    (decoded : result (list (list R) * Q)) (c : config) (fs : list png)
  : list png * result unit :=
  match decoded with
  | Raise e => (fs, Raise e)
  | Ok (wav, sr) =>
      match analyse c wav sr with
      | Raise e => (fs, Raise e)
      | Ok a =>
          frames_loop (frame c audioID sr (a_stride a) (a_envs a) (a_smooth a))
                      (Py.range1 (a_frames a)) fs
      end
  end.

(** Both windows of the frame [idx] lie inside an envelope of [len] values
    (lines 216-217 return shorter slices otherwise). *)
Definition window_fits (c : config) (sr : Q) (stride len idx : Z) : bool :=
  match (x <- position c sr stride idx ;; exact x) with
  | Ok pos => Qle_bool 0 pos && ((Py.int pos + 2) * bars c <=? len)%Z
  | Raise _ => false
  end.

(** The same for every frame of a clip of [nsamples] samples. *)
Definition windows_fit (c : config) (sr : Q) (window stride frames : Z)
    (nsamples : nat) : bool :=
  forallb (window_fits c sr stride (env_size (bars c) window stride nsamples))
          (Py.range1 frames).

End Binary64.

(** ** Derived quantities

    The values the driver computes when none of its divisions raises, as
    functions of the configuration, for use in the statements below. *)

(** The waveform after [np.pad(wav, window // 2)]. *)
Definition padded (wav : list R) (window : Z) : list R :=
  repeat 0%R (Z.to_nat (window / 2)) ++ wav ++ repeat 0%R (Z.to_nat (window / 2)).

(** [int(sr * time / bars)]. *)
Definition window_of (c : config) (sr : Q) : Z :=
  Py.int (sr * time c / inject_Z (bars c)).

(** [int(window / oversample)]. *)
Definition stride_of (c : config) (sr : Q) : Z :=
  Py.int (inject_Z (window_of c sr) / oversample c).

(** [int(rate * (len(wavs[0]) / sr))]. *)
Definition frames_of (c : config) (nsamples : nat) (sr : Q) : Z :=
  Py.int (rate c * (inject_Z (Z.of_nat nsamples) / sr)).

(** [(idx / rate) * sr / stride / bars]. *)
Definition pos_of (c : config) (sr : Q) (idx : Z) : Q :=
  (inject_Z idx / rate c * sr / inject_Z (stride_of c sr) / inject_Z (bars c))%Q.

(** Length of a padded envelope of a channel of [nsamples] samples. *)
Definition env_length (c : config) (sr : Q) (nsamples : nat) : Z :=
  let window := window_of c sr in
  let stride := stride_of c sr in
  (bars c / 2
   + Z.max 0 ((Z.of_nat nsamples + 2 * (window / 2) - window + stride - 1) / stride)
   + 2 * bars c)%Z.

(** What the driver relies on for one padded envelope. *)
Definition env_ok (c : config) (sr : Q) (nsamples : nat) (env : list R) : Prop :=
  Z.of_nat (length env) = env_length c sr nsamples
  /\ Forall (fun v => (0 <= v < 0.95)%R) env.

(** [env] is the padded envelope of the channel [wav] (lines 201-202). *)
Definition envelope_of (c : config) (sr : Q) (wav env : list R) : Prop :=
  exists e,
    envelope wav (window_of c sr) (stride_of c sr) = Ok e
    /\ Np.pad e (bars c / 2) (2 * bars c) = Ok env.

(** A decoded two-dimensional array: every row has the length of the first. *)
Definition rectangular (wav : list (list R)) : Prop :=
  Forall (fun row => length row = length (hd [] wav)) wav.

(** Configurations with positive parameters and a positive derived stride. *)
Record valid (c : config) (sr : Q) : Prop := {
  valid_bars : (1 <= bars c)%Z;
  valid_rate : (0 < rate c)%Q;
  valid_sr : (0 < sr)%Q;
  valid_time : (0 < time c)%Q;
  valid_oversample : (0 < oversample c)%Q;
  valid_stride : (1 <= stride_of c sr)%Z
}.

(** A surface cairo can allocate and scale: [cairo.ImageSurface] refuses a
    negative dimension and one above 32767, and [ctx.scale] a zero factor. *)
Definition renderable (size : Z * Z) : Prop :=
  (0 < fst size <= 32767 /\ 0 < snd size <= 32767)%Z.

(** [z] is [q] truncated toward zero. *)
Definition truncation (q : Q) (z : Z) : Prop :=
  (0 <= q -> inject_Z z <= q /\ q < inject_Z z + 1)%Q
  /\ (q <= 0 -> inject_Z z - 1 < q /\ q <= inject_Z z)%Q.

(** A decoded clip the driver renders to the end with [window], [stride] and
    [frames] for the integers of lines 196, 197 and 206: a surface cairo
    accepts, the channel count [stereo] asks for, no constant channel (the
    quotients of line 194 are numbers), a window and a stride of one sample
    at least (no pooled frame is empty), and frames whose windows fit. *)
Record clip_ok (c : config) (sr : Q) (wav : list (list R))
    (window stride frames : Z) : Prop := {
  clip_size : renderable (size c);
  clip_bars : (1 <= bars c)%Z;
  clip_channels : stereo c = true -> length wav = 2%nat;
  clip_rows : rectangular wav;
  clip_std : forall wavs, select_channels (stereo c) wav = Ok wavs ->
                          Forall (fun w => Np.std w <> 0%R) wavs;
  clip_window : Binary64.derive_window sr c = Ok window;
  clip_window_pos : (1 <= window)%Z;
  clip_stride : Binary64.derive_stride window c = Ok stride;
  clip_stride_pos : (1 <= stride)%Z;
  clip_frames : Binary64.frame_count c (length (hd [] wav)) sr = Ok frames;
  clip_fits : Binary64.windows_fit c sr window stride frames (length (hd [] wav))
              = true
}.

(** ** The per-frame blend in the words of the specification (section 4.3) *)

Module Spec.
Local Open Scope R_scope.

Definition log10 (x : R) : R := ln x / ln 10.

(** [pos = (idx / framerate) * sample_rate / stride / bars], in doubles. *)
Definition pos (framerate sample_rate : float) (stride bars idx : Z) : float :=
  ((Binary64.of_int idx / framerate) * sample_rate
   / Binary64.of_int stride / Binary64.of_int bars)%float.

(** [off = floor(pos)] and [loc], the fractional part of [pos]. *)
Definition off (pos : Q) : Z := Qfloor pos.
Definition loc (pos : Q) : Q := (pos - inject_Z (Qfloor pos))%Q.

(** [envelope[(off + k) * bars : (off + k + 1) * bars]]: [window1] for
    [k = 0] and [window2] for [k = 1]. *)
Definition window (envelope : list R) (bars off k : Z) : list R :=
  firstn (Z.to_nat bars) (skipn (Z.to_nat ((off + k) * bars)) envelope).

(** The largest value of a window. *)
Definition maximum (window : list R) : R := fold_right Rmax (hd 0 window) window.

Definition maxvol (window2 : list R) : R := 10 * log10 (1e-4 + maximum window2).

(** [maxvol] mapped linearly from [[-6, 0]] to [[0.5, 2.0]], clamped to
    [[0.5, 2.0]]. *)
Definition speedup (maxvol : R) : R :=
  if Rle_dec maxvol (-6) then 0.5
  else if Rle_dec 0 maxvol then 2.0
  else 0.5 + (maxvol - (-6)) / (0 - (-6)) * (2.0 - 0.5).

(** The logistic function, [sigmoid] in the specification. *)
Definition logistic (x : R) : R := / (1 + exp (- x)).

Definition weight (base_speed loc : R) (window2 : list R) : R :=
  logistic (base_speed * speedup (maxvol window2) * (loc - 0.5)).

(** The Hann taper of [M] points, [0.5 (1 - cos(2 pi n / (M - 1)))]; a
    single point is one. *)
Definition hann (M : Z) (n : nat) : R :=
  if (M =? 1)%Z then 1 else 0.5 * (1 - cos (2 * PI * INR n / IZR (M - 1))).

(** [(1 - w) * window1 + w * window2], multiplied elementwise by the taper. *)
Definition blended (base_speed loc : R) (bars : Z) (window1 window2 : list R)
  : list R :=
  let w := weight base_speed loc window2 in
  map (fun n => ((1 - w) * nth n window1 0 + w * nth n window2 0) * hann bars n)
      (seq 0 (Z.to_nat bars)).

(** Python's [round]: the nearest integer, a tie going to the even one. *)
Definition round (q : Q) : Z :=
  let f := Qfloor q in
  match (q - inject_Z f ?= 1 # 2)%Q with
  | Lt => f
  | Gt => (f + 1)%Z
  | Eq => if Z.even f then f else (f + 1)%Z
  end.

(** The bar of channel [i] of [K] at abscissa [x] for the value [v] (section
    4.4): two segments that meet on the midline [(1 + 2 i) / (2 K)], the upper
    one of height [v / (2 K)] at full opacity, the lower one at 80% opacity;
    [ratio] is the height of the lower segment relative to the upper one. *)
Definition bar (ratio : R) (K i : nat) (x v : R) (color : rgb) : list cairo :=
  let h := v / (2 * INR K) in
  let mid := (1 + 2 * INR i) / (2 * INR K) in
  [ set_source_rgb color; move_to x (mid - h); line_to x mid; stroke;
    set_source_rgba color 0.8; move_to x mid; line_to x (mid + ratio * h); stroke ].

End Spec.

(** Abscissa of the bar of time step [step] among [T] (lines 120-123, 132). *)
Definition bar_x (T step : nat) : R :=
  let pad_ratio := 0.1%R in
  let width := (1 / (INR T * (1 + 2 * pad_ratio)))%R in
  let pad := (pad_ratio * width)%R in
  let delta := (2 * pad + width)%R in
  (pad + INR step * delta)%R.

(** [block] occurs in [l] as a run of consecutive elements. *)
Definition contains {A : Type} (block l : list A) : Prop :=
  exists before after, l = before ++ block ++ after.

(** ** [Waveform.py]: decoding ([read_audio]) *)

Module Audio.

(** What [read_audio] uses of the first stream that [ffprobe] reports. *)
Record stream : Type := mkstream {
  codec_type : string;
  channels : Z;
  sample_rate : Q
}.

(** [a.reshape(-1, cols)]: the rows are the consecutive runs of [cols]
    values; raises unless [cols] is positive and divides the size. *)
Definition reshape (a : list R) (cols : Z) : result (list (list R)) :=
  if (cols <=? 0)%Z then Raise (ValueError "cannot reshape array")
  else if (Z.of_nat (length a) mod cols =? 0)%Z then
    Ok (map (fun i => firstn (Z.to_nat cols) (skipn (i * Z.to_nat cols) a))
            (seq 0 (length a / Z.to_nat cols)))
  else Raise (ValueError "cannot reshape array").

(** [m.T] of an array of [cols] columns given by its rows. *)
Definition transpose (cols : nat) (m : list (list R)) : list (list R) :=
  map (fun j => map (fun row => nth j row 0%R) m) (seq 0 cols).

(** [read_audio]: [info] is the outcome of [read_info] followed by the
    selection of the first stream, [decoded] the outcome of the [ffmpeg] run
    and of [np.frombuffer] (the interleaved samples).  Both are external; the
    decoder only runs when the stream is an audio stream. *)
Definition read_audio (audio : string) (info : result stream)
    (decoded : result (list R)) : result (list (list R) * Q) :=
  stream <- info ;;
  if String.eqb (codec_type stream) "audio" then
    wav <- decoded ;;
    rows <- reshape wav (channels stream) ;;
    Ok (transpose (Z.to_nat (channels stream)) rows, sample_rate stream)
  else Raise (ValueError (audio ++ " should contain only audio.")).

End Audio.

(** ** [Waveform.py]: diagnostics and colour arguments *)

Module Cli.
Local Open Scope string_scope.

(** [str(n)] of an integer. *)
Definition str (n : Z) : string :=
  if (n <? 0)%Z then "-" ++ Py.digits n else Py.digits n.

(** The escape character, ["\033"]. *)
Definition esc : string := String (ascii_of_nat 27) "".

Definition colorize (text : string) (color : Z) : string :=
  let code := esc ++ "[" ++ str color ++ "m" in
  let restore := esc ++ "[0m" in
  code ++ text ++ restore.

(** The process as [fatal] sees it: the global [_is_main] and whether the
    standard error stream is a terminal. *)
Record process : Type := mkprocess { is_main : bool; isatty : bool }.

(** [fatal]: the lines of the standard error stream are threaded; [Some]
    status is [sys.exit(status)]. *)
Definition fatal (p : process) (msg : string) (stderr : list string)
  : list string * option Z :=
  if is_main p then
    let head := if isatty p then colorize "error: " 1 else "error: " in
    ((stderr ++ [(head ++ msg)%string])%list, Some 1%Z)
  else (stderr, None).

(** How a call ends: a value, an exception, or the exit of the process. *)
Inductive outcome (A : Type) : Type :=
| Returns (a : A)
| Raises (e : exn)
| Exits (status : Z).
Arguments Returns {A} a.
Arguments Raises {A} e.
Arguments Exits {A} status.

(** [s.split(sep)] for a separator of one character. *)
Fixpoint split (sep : ascii) (s : string) : list string :=
  match s with
  | EmptyString => [EmptyString]
  | String ch rest =>
      if Ascii.eqb ch sep then EmptyString :: split sep rest
      else match split sep rest with
           | field :: fields => String ch field :: fields
           | [] => [String ch EmptyString]
           end
  end.

(** [sep.join(fields)] and [ch in s], to state what [split] returns. *)
Fixpoint join (sep : ascii) (fields : list string) : string :=
  match fields with
  | [] => EmptyString
  | [field] => field
  | field :: rest => field ++ String sep (join sep rest)
  end.

Fixpoint occurs (ch : ascii) (s : string) : bool :=
  match s with
  | EmptyString => false
  | String c rest => Ascii.eqb c ch || occurs ch rest
  end.

Section ParseColor.

(** [float] on a string: a value, or [None] for its [ValueError]. *)
Context {F : Type} (float : string -> option F).

(** [[float(i) for i in fields]]. *)
Fixpoint floats (fields : list string) : result (list F) :=
  match fields with
  | [] => Ok []
  | i :: rest =>
      match float i with
      | None => Raise (ValueError ("could not convert string to float: " ++ i))
      | Some x =>
          match floats rest with
          | Ok xs => Ok (x :: xs)
          | Raise e => Raise e
          end
      end
  end.

(** [r, g, b = values]. *)
Definition unpack3 (values : list F) : result (F * F * F) :=
  match values with
  | [r; g; b] => Ok (r, g, b)
  | _ =>
      if (length values <? 3)%nat
      then Raise (ValueError "not enough values to unpack (expected 3)")
      else Raise (ValueError "too many values to unpack (expected 3)")
  end.

Definition parse_color (p : process) (colorstr : string) (stderr : list string)
  : list string * outcome (F * F * F) :=
  match Py.bind (floats (split "," colorstr)) unpack3 with
  | Ok color => (stderr, Returns color)
  | Raise e =>
      match fatal p
              "Format for color is 3 floats separated by commas 0.xx,0.xx,0.xx, rgb order"
              stderr with
      | (stderr', Some status) => (stderr', Exits status)
      | (stderr', None) => (stderr', Raises e)
      end
  end.

End ParseColor.

End Cli.

(** ** [TextToSpeach.py] *)

Module TextToVoice.
Local Open Scope string_scope.

Inductive error : Type :=
| RecursionError
| FileNotFoundError (path : string)
| External (e : exn).

Inductive res (A : Type) : Type :=
| Done (a : A)
| Fail (e : error).
Arguments Done {A} a.
Arguments Fail {A} e.

(** File name of a voice inside [./generated/voices]. *)
Definition mp3 (id : Z) : string := Cli.str id ++ ".mp3".

Definition listed (name : string) (voices : list string) : bool :=
  existsb (String.eqb name) voices.

(** [get_id]: [draws] are the successive results of [random.randint(0,
    1000000)], [k] the number of draws made so far, [voices] the listing of
    the directory, [limit] the depth of recursion that is left. *)
Fixpoint get_id (limit : nat) (draws : nat -> Z) (k : nat) (voices : list string)
  : res (Z * nat) :=
  match limit with
  | O => Fail RecursionError
  | S limit' =>
      let id := draws k in
      if listed (mp3 id) voices then get_id limit' draws (S k) voices
      else Done (id, S k)
  end.

(** What [generate] gets from [gTTS] and [mutagen]: the outcome of the
    constructor, of the synthesis inside [save] (which runs after the file
    has been opened for writing), and of the reading of the duration. *)
Record externals : Type := mkexternals {
  construct : result unit;
  synthesis : result unit;
  mp3_length : result Q
}.

Record voice : Type := mkvoice {
  v_id : Z;
  v_duration : Q;
  v_path : string;
  v_text : string
}.

Definition voice_path (id : Z) : string := "./generated/voices/" ++ mp3 id.

(** Opening a file for writing creates it unless it exists. *)
Definition create (name : string) (voices : list string) : list string :=
  if listed name voices then voices else name :: voices.

(** [not id] for [id] an integer or [None]. *)
Definition falsy (id : option Z) : bool :=
  match id with
  | None => true
  | Some n => (n =? 0)%Z
  end.

(** [generate]: the state is the listing of the directory and the number
    of random draws made; identifiers are integers. *)
Definition generate (ext : externals) (limit : nat) (draws : nat -> Z)
    (text : string) (id : option Z) (voices : list string) (k : nat)
  : list string * nat * res voice :=
  match construct ext with
  | Raise e => (voices, k, Fail (External e))
  | Ok _ =>
      match (if falsy id then get_id limit draws k voices
             else Done (match id with Some n => n | None => 0%Z end, k)) with
      | Fail e => (voices, k, Fail e)
      | Done (id, k') =>
          let voices' := create (mp3 id) voices in
          match synthesis ext with
          | Raise e => (voices', k', Fail (External e))
          | Ok _ =>
              match mp3_length ext with
              | Raise e => (voices', k', Fail (External e))
              | Ok duration =>
                  (voices', k', Done (mkvoice id duration (voice_path id) text))
              end
          end
      end
  end.

(** [delete]: [os.remove] raises when the file is missing. *)
Definition delete (id : Z) (voices : list string) : list string * res bool :=
  if listed (mp3 id) voices
  then (filter (fun name => negb (String.eqb (mp3 id) name)) voices, Done true)
  else (voices, Fail (FileNotFoundError (voice_path id))).

End TextToVoice.

(** The file [visualize] opens (line 178). *)
Definition audio_path (audioID : string) : string :=
  ("./generated/voices/" ++ audioID ++ ".mp3")%string.

(** ** [DisplayWave.py] *)

Module DisplayWave.

(** The viewer: [dir] is the listing of [./generated/tmp/] in the order
    [os.listdir] gives it, [shown] the images displayed so far. *)
Record viewer : Type := mkviewer { dir : list string; shown : list string }.

(** One call of [update]; [readable] tells whether [Image.open] and
    [PhotoImage] accept a file.  Whatever is raised (an empty listing, an
    unreadable file) is swallowed by the bare [except], and the call always
    reschedules itself.  The directory has no other writer during the call
    (its three listings agree), the listing keeps its order when a file is
    removed, and removing a listed file succeeds. *)
Definition update (readable : string -> bool) (v : viewer) : viewer :=
  match dir v with
  | [] => v
  | first :: rest =>
      if readable first then
        if String.eqb first "zzz.png"
        then mkviewer (dir v) (shown v ++ [first])
        else mkviewer rest (shown v ++ [first])
      else v
  end.

(** [n] successive calls. *)
Fixpoint updates (readable : string -> bool) (n : nat) (v : viewer) : viewer :=
  match n with
  | O => v
  | S n' => updates readable n' (update readable v)
  end.

End DisplayWave.

(** File name of a frame inside the working directory (line 226). *)
Definition frame_name (audioID : string) (idx : Z) : string :=
  (audioID ++ "-" ++ Py.format_06d idx ++ ".png")%string.

(** ** Geometry of a rendered image *)

(** The points a call hands to cairo, in user space; once the context is
    scaled by the size, the unit square is the whole surface. *)
Definition points (call : cairo) : list (R * R) :=
  match call with
  | move_to x y => [(x, y)]
  | line_to x y => [(x, y)]
  | rectangle x y w h => [(x, y); (x + w, y + h)%R]
  | _ => []
  end.

Definition in_unit_square (p : R * R) : Prop :=
  (0 <= fst p <= 1 /\ 0 <= snd p <= 1)%R.

(** Every point of the image lies on the surface. *)
Definition inside (img : png) : Prop :=
  Forall (fun call => Forall in_unit_square (points call)) (calls img).

(** ** Concrete inputs for the examples *)

(** Two seconds of mono audio at 4 Hz, two bars, two frames per second:
    the window is 2 samples, the stride 1 and there are 4 frames. *)
Definition demo_config : config :=
  {| tmp := "generated/tmp"; rate := 2; bars := 2; speed := 4;
     time := 1; oversample := 2;
     fg_color := (0.2, 0.2, 0.2)%Q; fg_color2 := (0.5, 0.3, 0.6)%Q;
     bg_color := (1, 1, 1)%Q; size := (400, 400)%Z; stereo := false |}.

Definition demo_wav : list (list R) := [[1; -1; 2; -2; 1; -1; 2; -2]%R].

(** The same with [stereo] set. *)
Definition demo_stereo : config :=
  {| tmp := tmp demo_config; rate := rate demo_config; bars := bars demo_config;
     speed := speed demo_config; time := time demo_config;
     oversample := oversample demo_config;
     fg_color := fg_color demo_config; fg_color2 := fg_color2 demo_config;
     bg_color := bg_color demo_config; size := size demo_config; stereo := true |}.

(** The same with a negative oversampling: the stride is [-1]. *)
Definition demo_negative : config :=
  {| tmp := tmp demo_config; rate := rate demo_config; bars := bars demo_config;
     speed := speed demo_config; time := time demo_config;
     oversample := -2;
     fg_color := fg_color demo_config; fg_color2 := fg_color2 demo_config;
     bg_color := bg_color demo_config; size := size demo_config; stereo := false |}.

(** Seven samples. *)
Definition demo_short : list (list R) := [[1; -1; 2; -2; 1; -1; 2]%R].

(** The same at four frames per second: frame [idx] is at position
    [idx / 2], so every odd frame is halfway between two windows. *)
Definition demo_half : config :=
  {| tmp := tmp demo_config; rate := 4; bars := bars demo_config;
     speed := speed demo_config; time := time demo_config;
     oversample := oversample demo_config;
     fg_color := fg_color demo_config; fg_color2 := fg_color2 demo_config;
     bg_color := bg_color demo_config; size := size demo_config; stereo := false |}.

(** A [float] that only knows two numerals. *)
Definition demo_float (s : string) : option Q :=
  if String.eqb s "0" then Some 0%Q
  else if String.eqb s "1" then Some 1%Q
  else None.

(** Eight samples of silence. *)
Definition silence : list (list R) := [[0; 0; 0; 0; 0; 0; 0; 0]%R].

(** The defaults with other timing parameters. *)
Definition timing (r : Q) (b : Z) (t o : Q) : config :=
  {| tmp := tmp default_config; rate := r; bars := b; speed := speed default_config;
     time := t; oversample := o;
     fg_color := fg_color default_config; fg_color2 := fg_color2 default_config;
     bg_color := bg_color default_config; size := size default_config;
     stereo := false |}.

(** One second of mono audio at 16 Hz, four bars and sixteen frames per
    second: the window is 4 samples, the stride 2, there are sixteen frames
    and frame [idx] is at position [idx / 8]. *)
Definition demo_four : config := timing 16 4 1 2.

Definition demo_clip : list (list R) :=
  [[1; -1; 2; -2; 3; -3; 2; -2; 1; -1; 2; -2; 3; -3; 2; -2]%R].

(** A padded envelope of twelve values. *)
Definition demo_env : list R :=
  [0; 0; 0.1; 0.3; 0.5; 0.7; 0.9; 0.6; 0.4; 0.2; 0; 0]%R.

(** * Properties *)

(** ** The built-ins on small inputs *)

Example int_truncates : Py.int (7 # 2) = 3%Z /\ Py.int (- 7 # 2) = (-3)%Z.
Proof. split; reflexivity. Qed.

Example round_half_even :
  Spec.round (5 # 2) = 2%Z /\ Spec.round (7 # 2) = 4%Z /\ Spec.round (7 # 4) = 2%Z.
Proof. repeat split; reflexivity. Qed.

Example range_steps :
  Py.range 10 3 = Ok [0; 3; 6; 9]%Z
  /\ Py.range 9 3 = Ok [0; 3; 6]%Z
  /\ Py.range (-1) 3 = Ok []
  /\ Py.range (-4) (-2) = Ok [0; -2]%Z
  /\ Py.range 4 0 = Raise (ValueError "range() arg 3 must not be zero").
Proof. repeat split; reflexivity. Qed.

Example slice_clips :
  Py.slice [1; 2; 3; 4; 5]%Z 1 3 = [2; 3]%Z
  /\ Py.slice [1; 2; 3; 4; 5]%Z 3 9 = [4; 5]%Z
  /\ Py.slice [1; 2; 3; 4; 5]%Z (-2) 5 = [4; 5]%Z
  /\ Py.slice [1; 2; 3; 4; 5]%Z (-1) 0 = [].
Proof. repeat split; reflexivity. Qed.

Example format_pads :
  Py.format_06d 0 = "000000"%string
  /\ Py.format_06d 42 = "000042"%string
  /\ Py.format_06d 1234567 = "1234567"%string
  /\ Py.format_06d (-5) = "-00005"%string.
Proof. repeat split; reflexivity. Qed.

(** The end-to-end scenario of the specification: one second at 16 kHz with
    [rate = 10], [bars = 4], [time = 0.4], [oversample = 2] has a window of 1600
    samples, a stride of 800 and ten frames. *)
Example scenario_16kHz :
  let c := timing 10 4 0.4 2 in
  Binary64.derive_window 16000 c = Ok 1600%Z
  /\ Binary64.derive_stride 1600 c = Ok 800%Z
  /\ Binary64.frame_count c (Z.to_nat 16000) 16000 = Ok 10%Z
  /\ frame_path c "7" 9 = "generated/tmp/7-000009.png"%string.
Proof. repeat split; vm_compute; reflexivity. Qed.

(** ** Slices and ranges *)

Section PySequences.
Local Open Scope Z_scope.

Lemma slice_index_inside (len i : Z) :
  0 <= i <= len -> Py.slice_index len i = i.
Proof.
  intros [H0 H1]. unfold Py.slice_index.
  destruct (Z.ltb_spec i 0); lia.
Qed.

Lemma slice_inside {A : Type} (a : list A) (i j : Z) :
  0 <= i <= j -> j <= Z.of_nat (length a) ->
  Py.slice a i j = firstn (Z.to_nat (j - i)) (skipn (Z.to_nat i) a).
Proof.
  intros Hij Hj. unfold Py.slice.
  rewrite !slice_index_inside by lia. reflexivity.
Qed.

Lemma slice_length_inside {A : Type} (a : list A) (i j : Z) :
  0 <= i <= j -> j <= Z.of_nat (length a) ->
  Z.of_nat (length (Py.slice a i j)) = j - i.
Proof.
  intros Hij Hj. rewrite slice_inside by assumption.
  rewrite length_firstn, length_skipn. lia.
Qed.

Lemma Forall_firstn {A : Type} (P : A -> Prop) (n : nat) (a : list A) :
  Forall P a -> Forall P (firstn n a).
Proof.
  intros H. revert n. induction H as [|x a Hx _ IH]; intros [|n]; simpl; auto.
Qed.

Lemma Forall_skipn {A : Type} (P : A -> Prop) (n : nat) (a : list A) :
  Forall P a -> Forall P (skipn n a).
Proof.
  revert a. induction n as [|n IH]; intros a H; simpl; [exact H|].
  destruct H; auto.
Qed.

Lemma slice_Forall {A : Type} (P : A -> Prop) (a : list A) (i j : Z) :
  Forall P a -> Forall P (Py.slice a i j).
Proof.
  intros H. unfold Py.slice. now apply Forall_firstn, Forall_skipn.
Qed.

Lemma range_length_pos (stop step : Z) :
  0 < step ->
  Z.of_nat (Py.range_length stop step) = Z.max 0 ((stop + step - 1) / step).
Proof.
  intros Hs. unfold Py.range_length.
  destruct (Z.ltb_spec 0 step); [|lia].
  replace (stop + step - 1) with (stop - 1 + 1 * step) by ring.
  rewrite Z.div_add by lia.
  destruct (Z.ltb_spec 0 stop).
  - assert (0 <= (stop - 1) / step) by (apply Z.div_pos; lia). lia.
  - assert ((stop - 1) / step < 0) by (apply Z.div_lt_upper_bound; lia). lia.
Qed.

Lemma range_pos (stop step : Z) :
  0 < step ->
  Py.range stop step
  = Ok (map (fun k => Z.of_nat k * step) (seq 0 (Py.range_length stop step))).
Proof.
  intros Hs. unfold Py.range.
  destruct (Z.eqb_spec step 0); [lia | reflexivity].
Qed.

(** Every element of [range(0, stop, step)] is a multiple of the step inside
    [0, stop). *)
Lemma range_elements (stop step : Z) (offs : list Z) :
  0 < step -> Py.range stop step = Ok offs ->
  Forall (fun off => 0 <= off < stop /\ (step | off)) offs.
Proof.
  intros Hs. rewrite range_pos by assumption. intros [= <-].
  apply Forall_forall. intros off Hin.
  apply in_map_iff in Hin. destruct Hin as (k & <- & Hk).
  apply in_seq in Hk.
  pose proof (range_length_pos stop step Hs) as Hlen.
  split; [| exists (Z.of_nat k); ring].
  assert (Hk' : Z.of_nat k + 1 <= (stop + step - 1) / step) by lia.
  assert (step * (Z.of_nat k + 1) <= stop + step - 1).
  { etransitivity; [apply Z.mul_le_mono_nonneg_l; [lia | exact Hk']|].
    apply Z.mul_div_le; lia. }
  nia.
Qed.

(** Conversely every such multiple is produced. *)
Lemma range_complete (stop step off : Z) (offs : list Z) :
  0 < step -> Py.range stop step = Ok offs ->
  0 <= off < stop -> (step | off) -> In off offs.
Proof.
  intros Hs. rewrite range_pos by assumption. intros [= <-] Hoff [k ->].
  apply in_map_iff. exists (Z.to_nat k).
  assert (Hk : 0 <= k) by nia.
  split; [now rewrite Z2Nat.id|].
  apply in_seq. split; [lia|]. simpl.
  pose proof (range_length_pos stop step Hs) as Hlen.
  assert (k + 1 <= (stop + step - 1) / step)
    by (apply Z.div_le_lower_bound; [lia | nia]).
  lia.
Qed.

End PySequences.

(** ** The compressor *)

Section Compressor.
Local Open Scope R_scope.

Lemma exp_le (x y : R) : x <= y -> exp x <= exp y.
Proof.
  intros [Hlt | ->]; [left; now apply exp_increasing | right; reflexivity].
Qed.

Lemma sigmoid_range (x : R) : 0 < sigmoid x < 1.
Proof.
  unfold sigmoid. pose proof (exp_pos (- x)) as He.
  split.
  - apply Rdiv_lt_0_compat; lra.
  - apply (Rmult_lt_reg_r (1 + exp (- x))); [lra|].
    unfold Rdiv. rewrite Rmult_assoc, Rinv_l by lra. lra.
Qed.

Lemma sigmoid_monotone (x y : R) : x <= y -> sigmoid x <= sigmoid y.
Proof.
  intros Hxy. unfold sigmoid, Rdiv. rewrite !Rmult_1_l.
  pose proof (exp_pos (- y)).
  apply Rinv_le_contravar; [lra|].
  apply Rplus_le_compat_l, exp_le. lra.
Qed.

Lemma sigmoid_half (x : R) : 0 <= x -> 0.5 <= sigmoid x.
Proof.
  intros Hx. replace 0.5 with (sigmoid 0).
  - now apply sigmoid_monotone.
  - unfold sigmoid. rewrite Ropp_0, exp_0. lra.
Qed.

Lemma compress_monotone (x y : R) : x <= y -> compress x <= compress y.
Proof.
  intros Hxy. unfold compress.
  assert (sigmoid (2.5 * x) <= sigmoid (2.5 * y)) by (apply sigmoid_monotone; lra).
  lra.
Qed.

Lemma compress_upper (x : R) : compress x < 0.95.
Proof.
  unfold compress. pose proof (sigmoid_range (2.5 * x)). lra.
Qed.

Lemma compress_nonneg (x : R) : 0 <= x -> 0 <= compress x.
Proof.
  intros Hx. unfold compress.
  assert (0.5 <= sigmoid (2.5 * x)) by (apply sigmoid_half; lra). lra.
Qed.

Lemma sum_nonneg (a : list R) : Forall (fun x => 0 <= x) a -> 0 <= Np.sum a.
Proof.
  induction 1 as [|x a Hx _ IH]; simpl; lra.
Qed.

Lemma pool_nonneg (frame : list R) : 0 <= pool frame.
Proof.
  unfold pool, Np.mean, Np.maximum. rewrite length_map.
  assert (Hs : 0 <= Np.sum (map (fun x => Rmax x 0) frame)).
  { apply sum_nonneg, Forall_forall. intros y Hy.
    apply in_map_iff in Hy. destruct Hy as (x & <- & _). apply Rmax_r. }
  destruct frame as [|x frame].
  - simpl. unfold Rdiv. rewrite Rmult_0_l. lra.
  - apply Rmult_le_pos; [exact Hs|].
    left. apply Rinv_0_lt_compat, lt_0_INR. simpl. lia.
Qed.

End Compressor.

(** ** The envelope *)

Section Envelope.
Local Open Scope Z_scope.

Lemma pad_ok (a : list R) (before after : Z) :
  0 <= before -> 0 <= after ->
  Np.pad a before after
  = Ok (repeat 0%R (Z.to_nat before) ++ a ++ repeat 0%R (Z.to_nat after)).
Proof.
  intros Hb Ha. unfold Np.pad.
  destruct (Z.ltb_spec before 0); [lia|].
  destruct (Z.ltb_spec after 0); [lia|]. reflexivity.
Qed.

Lemma padded_length (wav : list R) (window : Z) :
  0 <= window ->
  Z.of_nat (length (padded wav window)) = Z.of_nat (length wav) + 2 * (window / 2).
Proof.
  intros Hw. unfold padded. rewrite !length_app, !repeat_length.
  assert (0 <= window / 2) by (apply Z.div_pos; lia). lia.
Qed.

(** [envelope] on a non-negative window and a positive stride: one compressed
    pooled value per offset of the range. *)
Lemma envelope_ok (wav : list R) (window stride : Z) :
  0 <= window -> 0 < stride ->
  envelope wav window stride
  = Ok (map compress
         (map (fun off => pool (Py.slice (padded wav window) off (off + window)))
            (map (fun k => Z.of_nat k * stride)
               (seq 0 (Py.range_length
                         (Z.of_nat (length (padded wav window)) - window) stride))))).
Proof.
  intros Hw Hs. unfold envelope.
  rewrite pad_ok by (apply Z.div_pos; lia). cbn [Py.bind].
  fold (padded wav window).
  rewrite range_pos by assumption. reflexivity.
Qed.

Lemma envelope_length (wav : list R) (window stride : Z) (e : list R) :
  0 <= window -> 0 < stride -> envelope wav window stride = Ok e ->
  Z.of_nat (length e)
  = Z.max 0 ((Z.of_nat (length (padded wav window)) - window + stride - 1) / stride).
Proof.
  intros Hw Hs. rewrite envelope_ok by assumption. intros [= <-].
  rewrite !length_map, length_seq. now apply range_length_pos.
Qed.

Lemma envelope_values (wav : list R) (window stride : Z) (e : list R) :
  0 <= window -> 0 < stride -> envelope wav window stride = Ok e ->
  Forall (fun v => (0 <= v < 0.95)%R) e.
Proof.
  intros Hw Hs. rewrite envelope_ok by assumption. intros [= <-].
  apply Forall_forall. intros v Hv.
  apply in_map_iff in Hv. destruct Hv as (p & <- & Hp).
  apply in_map_iff in Hp. destruct Hp as (off & <- & _).
  split; [apply compress_nonneg, pool_nonneg | apply compress_upper].
Qed.

End Envelope.

(** ** Timing arithmetic *)

Section Timing.
Local Open Scope Q_scope.

Lemma int_nonneg (q : Q) : 0 <= q -> Py.int q = Qfloor q.
Proof.
  destruct q as [n d]. unfold Qle, Py.int, Qfloor. simpl. intros H.
  apply Z.quot_div_nonneg; lia.
Qed.

Lemma int_nonneg_pos (q : Q) : 0 <= q -> (0 <= Py.int q)%Z.
Proof.
  intros H. rewrite int_nonneg by assumption.
  change 0%Z with (Qfloor 0). now apply Qfloor_resp_le.
Qed.

Lemma truediv_ok (a b : Q) : ~ b == 0 -> Py.truediv a b = Ok (a / b).
Proof.
  intros Hb. unfold Py.truediv.
  destruct (Qeq_bool b 0) eqn:E; [|reflexivity].
  apply Qeq_bool_eq in E. contradiction.
Qed.

Lemma truediv_zero (a b : Q) :
  b == 0 -> Py.truediv a b = Raise ZeroDivisionError.
Proof.
  intros Hb. unfold Py.truediv. now rewrite (Qeq_eq_bool _ _ Hb).
Qed.

Lemma inject_Z_pos (z : Z) : (0 < z)%Z -> 0 < inject_Z z.
Proof. intros H. change 0 with (inject_Z 0). now rewrite <- Zlt_Qlt. Qed.

Lemma inject_Z_nonneg (z : Z) : (0 <= z)%Z -> 0 <= inject_Z z.
Proof. intros H. change 0 with (inject_Z 0). now rewrite <- Zle_Qle. Qed.

Lemma Qpos_neq (q : Q) : 0 < q -> ~ q == 0.
Proof. intros H E. rewrite E in H. now apply Qlt_irrefl in H. Qed.

Variables (c : config) (sr : Q).
Hypothesis Hvalid : valid c sr.

Lemma window_nonneg : (0 <= window_of c sr)%Z.
Proof.
  destruct Hvalid. apply int_nonneg_pos.
  apply Qle_shift_div_l; [apply inject_Z_pos; lia|].
  rewrite Qmult_0_l. apply Qlt_le_weak.
  apply Qmult_lt_0_compat; assumption.
Qed.

Lemma derive_window_ok : derive_window sr c = Ok (window_of c sr).
Proof.
  destruct Hvalid. unfold derive_window.
  rewrite truediv_ok; [reflexivity|].
  apply Qpos_neq, inject_Z_pos. lia.
Qed.

Lemma derive_stride_ok : derive_stride (window_of c sr) c = Ok (stride_of c sr).
Proof.
  destruct Hvalid. unfold derive_stride.
  rewrite truediv_ok; [reflexivity|]. now apply Qpos_neq.
Qed.

Lemma frame_count_ok (n : nat) : frame_count c n sr = Ok (frames_of c n sr).
Proof.
  destruct Hvalid. unfold frame_count.
  rewrite truediv_ok; [reflexivity|]. now apply Qpos_neq.
Qed.

Lemma position_ok (idx : Z) :
  position c sr (stride_of c sr) idx = Ok (pos_of c sr idx).
Proof.
  destruct Hvalid. unfold position, pos_of.
  rewrite truediv_ok by now apply Qpos_neq. cbn [Py.bind].
  rewrite truediv_ok by (apply Qpos_neq, inject_Z_pos; lia). cbn [Py.bind].
  rewrite truediv_ok by (apply Qpos_neq, inject_Z_pos; lia). reflexivity.
Qed.

Lemma pos_nonneg (idx : Z) : (0 <= idx)%Z -> 0 <= pos_of c sr idx.
Proof.
  destruct Hvalid. intros Hidx. unfold pos_of.
  assert (0 < inject_Z (stride_of c sr)) by (apply inject_Z_pos; lia).
  assert (0 < inject_Z (bars c)) by (apply inject_Z_pos; lia).
  assert (0 <= inject_Z idx) by now apply inject_Z_nonneg.
  repeat (apply Qle_shift_div_l; [assumption|]; rewrite Qmult_0_l).
  apply Qmult_le_0_compat; [|now apply Qlt_le_weak].
  apply Qle_shift_div_l; [assumption|]. now rewrite Qmult_0_l.
Qed.

(** The window offset of a frame of the clip starts strictly inside the
    waveform: [off * bars * stride < nsamples]. *)
Lemma offset_inside (n : nat) (idx : Z) :
  (0 <= idx < frames_of c n sr)%Z ->
  (0 <= Py.int (pos_of c sr idx)
   /\ Py.int (pos_of c sr idx) * bars c * stride_of c sr < Z.of_nat n)%Z.
Proof.
  intros [Hidx Hlt].
  pose proof (pos_nonneg idx Hidx) as Hpos.
  split; [now apply int_nonneg_pos|].
  rewrite int_nonneg by assumption.
  destruct Hvalid.
  set (st := stride_of c sr) in *. set (b := bars c) in *.
  assert (Hst : 0 < inject_Z st) by (apply inject_Z_pos; lia).
  assert (Hb : 0 < inject_Z b) by (apply inject_Z_pos; lia).
  (* the frame count bounds the index *)
  assert (Hn : 0 <= inject_Z (Z.of_nat n)) by (apply inject_Z_nonneg; lia).
  assert (Hq : 0 <= rate c * (inject_Z (Z.of_nat n) / sr)).
  { apply Qmult_le_0_compat; [now apply Qlt_le_weak|].
    apply Qle_shift_div_l; [assumption|]. now rewrite Qmult_0_l. }
  unfold frames_of in Hlt. rewrite int_nonneg in Hlt by assumption.
  assert (Hi : inject_Z idx < rate c * (inject_Z (Z.of_nat n) / sr)).
  { eapply Qlt_le_trans; [|apply Qfloor_le]. now rewrite <- Zlt_Qlt. }
  (* hence the audio position of the frame is before the end *)
  assert (HA : inject_Z idx / rate c * sr < inject_Z (Z.of_nat n)).
  { assert (E1 : inject_Z idx / rate c * sr == inject_Z idx * (sr / rate c))
      by (field; now apply Qpos_neq).
    assert (E2 : inject_Z (Z.of_nat n)
                 == rate c * (inject_Z (Z.of_nat n) / sr) * (sr / rate c))
      by (field; split; now apply Qpos_neq).
    rewrite E1, E2. apply Qmult_lt_compat_r; [|exact Hi].
    apply Qlt_shift_div_l; [assumption|]. now rewrite Qmult_0_l. }
  (* and so is the start of its first window *)
  assert (HP : pos_of c sr idx * (inject_Z b * inject_Z st)
               == inject_Z idx / rate c * sr).
  { unfold pos_of. fold st b. field. repeat split; now apply Qpos_neq. }
  assert (HF : inject_Z (Qfloor (pos_of c sr idx)) * (inject_Z b * inject_Z st)
               < inject_Z (Z.of_nat n)).
  { eapply Qle_lt_trans; [|exact HA]. rewrite <- HP.
    apply Qmult_le_compat_r; [apply Qfloor_le|].
    apply Qlt_le_weak, Qmult_lt_0_compat; assumption. }
  rewrite <- !inject_Z_mult in HF. rewrite <- Zlt_Qlt in HF.
  now rewrite <- Z.mul_assoc.
Qed.

End Timing.

(** ** Loops that collect one value per iteration *)

Section Loops.
Context {A B : Type}.

Lemma for_append (body : A -> list B -> result (list B)) (P : A -> B -> Prop)
    (l : list A) :
  (forall x s, In x l -> exists y, body x s = Ok (s ++ [y]) /\ P x y) ->
  forall s, exists ys, Py.for_ l body s = Ok (s ++ ys) /\ Forall2 P l ys.
Proof.
  induction l as [|x l IH]; intros Hbody s.
  - exists []. rewrite app_nil_r. split; [reflexivity | constructor].
  - destruct (Hbody x s (or_introl eq_refl)) as (y & Hy & HP).
    destruct (IH (fun x' s' H => Hbody x' s' (or_intror H)) (s ++ [y]))
      as (ys & Hys & HF).
    exists (y :: ys). simpl. rewrite Hy, Hys, <- app_assoc. simpl.
    split; [reflexivity | now constructor].
Qed.

Lemma for_append_map (body : A -> list B -> result (list B)) (g : A -> B)
    (l : list A) :
  (forall x s, In x l -> body x s = Ok (s ++ [g x])) ->
  forall s, Py.for_ l body s = Ok (s ++ map g l).
Proof.
  induction l as [|x l IH]; intros Hbody s; simpl.
  - now rewrite app_nil_r.
  - rewrite Hbody by now left.
    rewrite IH by (intros; apply Hbody; now right).
    now rewrite <- app_assoc.
Qed.

Lemma Forall2_map_left {C : Type} (f : C -> A) (P : A -> B -> Prop)
    (l : list C) (l' : list B) :
  Forall2 P (map f l) l' -> Forall2 (fun x y => P (f x) y) l l'.
Proof.
  revert l'. induction l as [|x l IH]; intros l' H; inversion H; subst;
    constructor; auto.
Qed.

End Loops.

(** ** What is computed before the first frame *)

Section Analysis.
Local Open Scope Z_scope.

Variables (c : config) (sr : Q).
Hypothesis Hvalid : valid c sr.

Lemma padded_envelope_ok (wav : list R) (envs : list (list R)) :
  exists env,
    padded_envelope c (window_of c sr) (stride_of c sr) wav envs = Ok (envs ++ [env])
    /\ envelope_of c sr wav env /\ env_ok c sr (length wav) env.
Proof.
  pose proof (window_nonneg c sr Hvalid) as Hw.
  pose proof (valid_stride _ _ Hvalid) as Hs.
  pose proof (valid_bars _ _ Hvalid) as Hb.
  assert (Hs' : 0 < stride_of c sr) by lia.
  unfold padded_envelope.
  destruct (envelope wav (window_of c sr) (stride_of c sr)) as [e|x] eqn:He;
    [| rewrite envelope_ok in He; [discriminate | lia | lia] ].
  cbn [Py.bind].
  assert (Hp := pad_ok e (bars c / 2) (2 * bars c)
                  ltac:(apply Z.div_pos; lia) ltac:(lia)).
  rewrite Hp. cbn [Py.bind].
  eexists. split; [reflexivity|]. split; [exists e; now split|]. split.
  - rewrite !length_app, !repeat_length.
    rewrite !Nat2Z.inj_add, !Z2Nat.id by (try apply Z.div_pos; lia).
    rewrite (envelope_length _ _ _ _ Hw Hs' He), padded_length by lia.
    unfold env_length. lia.
  - apply Forall_app. split; [|apply Forall_app; split].
    + apply Forall_forall. intros v Hv. apply repeat_spec in Hv. subst. lra.
    + eapply envelope_values; [| |exact He]; lia.
    + apply Forall_forall. intros v Hv. apply repeat_spec in Hv. subst. lra.
Qed.

Lemma mean_axis0_length (wav : list (list R)) :
  length (Np.mean_axis0 wav) = length (hd [] wav).
Proof. unfold Np.mean_axis0. now rewrite length_map, length_seq. Qed.

(** The channels that are drawn all have the number of samples of the
    decoded array. *)
Lemma select_channels_ok (wav : list (list R)) :
  (stereo c = true -> length wav = 2%nat) -> rectangular wav ->
  exists wavs,
    select_channels (stereo c) wav = Ok wavs
    /\ length wavs = (if stereo c then 2%nat else 1%nat)
    /\ Forall (fun w => length w = length (hd [] wav)) wavs.
Proof.
  intros Hst Hrect. unfold select_channels.
  destruct (stereo c).
  - rewrite (Hst eq_refl). simpl.
    destruct wav as [|w0 [|w1 [|? ?]]]; try (specialize (Hst eq_refl); discriminate).
    eexists. split; [reflexivity|]. split; [reflexivity|]. exact Hrect.
  - eexists. split; [reflexivity|]. split; [reflexivity|].
    constructor; [apply mean_axis0_length | constructor].
Qed.

Lemma normalize_lengths (wavs : list (list R)) (n : nat) :
  Forall (fun w => length w = n) wavs ->
  Forall (fun w => length w = n) (normalize wavs).
Proof.
  intros H. unfold normalize. apply Forall_map.
  eapply Forall_impl; [|exact H]. intros w Hw. simpl. now rewrite length_map.
Qed.

Lemma analyse_ok (wav : list (list R)) :
  (stereo c = true -> length wav = 2%nat) -> rectangular wav ->
  exists wavs envs,
    select_channels (stereo c) wav = Ok wavs
    /\ analyse c wav sr
       = Ok (mkanalysis (stride_of c sr) envs
               (frames_of c (length (hd [] wav)) sr) (Np.hanning (bars c)))
    /\ length envs = (if stereo c then 2%nat else 1%nat)
    /\ Forall2 (fun w env => envelope_of c sr (map (fun x => (x / Np.std w)%R) w) env)
               wavs envs
    /\ Forall (env_ok c sr (length (hd [] wav))) envs.
Proof.
  intros Hst Hrect. unfold analyse.
  destruct (select_channels_ok wav Hst Hrect) as (wavs & Hsel & Hlen & Hall).
  rewrite Hsel. cbn [Py.bind].
  rewrite (derive_window_ok c sr Hvalid). cbn [Py.bind].
  rewrite (derive_stride_ok c sr Hvalid). cbn [Py.bind].
  apply normalize_lengths in Hall.
  assert (Hlen' : length (normalize wavs) = length wavs)
    by (unfold normalize; apply length_map).
  destruct (for_append (padded_envelope c (window_of c sr) (stride_of c sr))
              (fun w env => envelope_of c sr w env /\ env_ok c sr (length w) env)
              (normalize wavs) (fun w s _ => padded_envelope_ok w s) [])
    as (envs & -> & HF).
  cbn [Py.bind app].
  rewrite (frame_count_ok c sr Hvalid). cbn [Py.bind].
  assert (Hn0 : length (nth 0 (normalize wavs) []) = length (hd [] wav)).
  { destruct (normalize wavs) as [|w ws] eqn:E.
    - simpl in Hlen'. rewrite <- Hlen' in Hlen.
      destruct (stereo c); discriminate.
    - now inversion Hall. }
  rewrite Hn0. exists wavs, envs.
  split; [reflexivity|]. split; [reflexivity|]. split; [|split].
  - rewrite <- (Forall2_length HF). congruence.
  - unfold normalize in HF. apply Forall2_map_left in HF.
    eapply Forall2_impl; [|exact HF]. now intros w env [H _].
  - clear - HF Hall. induction HF as [|w env ws envs [_ Hw] _ IH]; constructor.
    + inversion Hall; subst. congruence.
    + apply IH. now inversion Hall.
Qed.

End Analysis.

(** ** The blend of one frame *)

Section Blend.
Local Open Scope R_scope.

Lemma clip_interpole (m : R) :
  Np.clip (interpole (-6) 0.5 0 2 m) 0.5 2 = Spec.speedup m.
Proof.
  unfold Np.clip, interpole, Spec.speedup, Rmin, Rmax.
  repeat match goal with
         | |- context [Rle_dec ?a ?b] => destruct (Rle_dec a b)
         | H : context [Rle_dec ?a ?b] |- _ => destruct (Rle_dec a b)
         end; lra.
Qed.

Lemma fold_left_Rmax_ge (t : list R) (x : R) : x <= fold_left Rmax t x.
Proof.
  revert x. induction t as [|y t IH]; intros x; simpl; [lra|].
  eapply Rle_trans; [apply (Rmax_l x y) | apply IH].
Qed.

Lemma fold_right_Rmax_init (t : list R) (x y : R) :
  fold_right Rmax (Rmax x y) t = Rmax y (fold_right Rmax x t).
Proof.
  induction t as [|z t IH]; simpl.
  - apply Rmax_comm.
  - rewrite IH, !Rmax_assoc. f_equal. apply Rmax_comm.
Qed.

Lemma fold_left_right_Rmax (t : list R) (x : R) :
  fold_left Rmax t x = fold_right Rmax x t.
Proof.
  revert x. induction t as [|y t IH]; intros x; simpl; [reflexivity|].
  now rewrite IH, fold_right_Rmax_init.
Qed.

Lemma max_maximum (a : list R) :
  a <> [] -> Np.max a = Ok (Spec.maximum a).
Proof.
  destruct a as [|x t]; [congruence | intros _].
  unfold Np.max, Spec.maximum. simpl. f_equal.
  pose proof (fold_left_Rmax_ge t x) as Hge.
  rewrite fold_left_right_Rmax in *.
  symmetry. now apply Rmax_right.
Qed.

Lemma maximum_bounds (P : R -> Prop) (a : list R) :
  a <> [] -> Forall P a -> P (Spec.maximum a).
Proof.
  destruct a as [|x t]; [congruence | intros _ H].
  unfold Spec.maximum. simpl hd.
  assert (Hx : P x) by now inversion H.
  induction H as [|y l Hy _ IH]; simpl; [exact Hx|].
  unfold Rmax at 1. destruct (Rle_dec _ _); assumption.
Qed.

Lemma hanning_hann (M : Z) :
  (1 <= M)%Z -> Np.hanning M = map (Spec.hann M) (seq 0 (Z.to_nat M)).
Proof.
  intros HM. unfold Np.hanning, Spec.hann.
  destruct (Z.ltb_spec M 1); [lia|].
  destruct (Z.eqb_spec M 1) as [->|Hne]; [reflexivity|].
  apply map_ext. intros k.
  assert (HM1 : IZR (M - 1) <> 0) by (apply not_0_IZR; lia).
  replace (PI * IZR (1 - M + 2 * Z.of_nat k) / IZR (M - 1))
    with (2 * PI * INR k / IZR (M - 1) - PI).
  - rewrite cos_minus, cos_PI, sin_PI. lra.
  - rewrite minus_IZR in HM1.
    rewrite plus_IZR, mult_IZR, !minus_IZR, <- INR_IZR_INZ. field. exact HM1.
Qed.

Lemma hanning_length (M : Z) :
  (1 <= M)%Z -> length (Np.hanning M) = Z.to_nat M.
Proof. intros HM. now rewrite hanning_hann, length_map, length_seq. Qed.

(** Elementwise operations on arrays of one length, index by index. *)
Lemma zip_by_index (op : R -> R -> R) (a b : list R) (n : nat) :
  length a = n -> length b = n ->
  map (fun p => op (fst p) (snd p)) (combine a b)
  = map (fun i => op (nth i a 0) (nth i b 0)) (seq 0 n).
Proof.
  revert b n. induction a as [|x a IH]; intros [|y b] n Ha Hb;
    simpl in *; subst n; try discriminate; [reflexivity|].
  injection Hb as Hb.
  rewrite <- cons_seq, <- seq_shift, map_cons, map_map. f_equal. now apply IH.
Qed.

Lemma broadcast_same (op : R -> R -> R) (a b : list R) :
  length a = length b ->
  Np.broadcast op a b
  = Ok (map (fun i => op (nth i a 0) (nth i b 0)) (seq 0 (length a))).
Proof.
  intros H. unfold Np.broadcast. rewrite (proj2 (Nat.eqb_eq _ _) H).
  f_equal. now apply zip_by_index.
Qed.

Lemma imul_same (a b : list R) :
  length a = length b ->
  Np.imul a b = Ok (map (fun i => nth i a 0 * nth i b 0) (seq 0 (length a))).
Proof.
  intros H. unfold Np.imul. rewrite (proj2 (Nat.eqb_eq _ _) H).
  f_equal. now apply (zip_by_index Rmult).
Qed.

End Blend.

(** ** The two windows of a frame *)

Section Windows.
Local Open Scope Z_scope.

Variables (c : config) (sr : Q).
Hypothesis Hvalid : valid c sr.
Variable n : nat.

Lemma windows_inside (env : list R) (idx : Z) :
  env_ok c sr n env -> 0 <= idx < frames_of c n sr ->
  let off := Py.int (pos_of c sr idx) in
  0 <= off * bars c /\ (off + 2) * bars c <= Z.of_nat (length env).
Proof.
  intros [Hlen _] Hidx off.
  destruct (offset_inside c sr Hvalid n idx Hidx) as [Hoff Hin].
  fold off in Hoff, Hin.
  pose proof (valid_bars _ _ Hvalid) as Hb.
  pose proof (valid_stride _ _ Hvalid) as Hs.
  pose proof (window_nonneg c sr Hvalid) as Hw.
  split; [nia|].
  rewrite Hlen. unfold env_length.
  set (w := window_of c sr) in *. set (st := stride_of c sr) in *.
  assert (Hhalf : w - 1 <= 2 * (w / 2)).
  { pose proof (Z.div_mod w 2 ltac:(lia)). pose proof (Z.mod_pos_bound w 2 ltac:(lia)).
    lia. }
  assert (Hq : off * bars c <= (Z.of_nat n + 2 * (w / 2) - w + st - 1) / st).
  { apply Z.div_le_lower_bound; [lia|]. nia. }
  assert (0 <= bars c / 2) by (apply Z.div_pos; lia).
  lia.
Qed.

Lemma window_slices (env : list R) (idx k : Z) :
  env_ok c sr n env -> 0 <= idx < frames_of c n sr -> 0 <= k <= 1 ->
  let off := Py.int (pos_of c sr idx) in
  Py.slice env ((off + k) * bars c) ((off + k + 1) * bars c)
  = Spec.window env (bars c) (Spec.off (pos_of c sr idx)) k
  /\ Z.of_nat (length (Py.slice env ((off + k) * bars c) ((off + k + 1) * bars c)))
     = bars c.
Proof.
  intros Hok Hidx Hk off.
  destruct (windows_inside env idx Hok Hidx) as [H0 H2]. fold off in H0, H2.
  pose proof (valid_bars _ _ Hvalid) as Hb.
  assert (Hoff : 0 <= off).
  { apply int_nonneg_pos, pos_nonneg; [assumption | lia]. }
  assert (Hin : 0 <= (off + k) * bars c <= (off + k + 1) * bars c) by nia.
  assert (Hup : (off + k + 1) * bars c <= Z.of_nat (length env)) by nia.
  split.
  - rewrite slice_inside by assumption. unfold Spec.window, Spec.off.
    replace ((off + k + 1) * bars c - (off + k) * bars c) with (bars c) by ring.
    unfold off. rewrite int_nonneg; [reflexivity|].
    apply pos_nonneg; [assumption | lia].
  - rewrite slice_length_inside by assumption. ring.
Qed.

End Windows.

(** ** One frame *)

Section Frame.

Variables (c : config) (sr : Q).
Hypothesis Hvalid : valid c sr.
Variable n : nat.

Lemma nth_scale (k : R) (a : list R) (i : nat) :
  nth i (Np.scale k a) 0%R = (k * nth i a 0)%R.
Proof.
  unfold Np.scale.
  replace 0%R with (k * 0)%R at 1 by ring.
  apply (map_nth (fun x => (k * x)%R)).
Qed.

Lemma nth_map_seq (f : nat -> R) (m i : nat) :
  (i < m)%nat -> nth i (map f (seq 0 m)) 0%R = f i.
Proof.
  intros Hi. rewrite (nth_indep _ 0%R (f 0%nat)) by now rewrite length_map, length_seq.
  rewrite (map_nth f). now rewrite seq_nth.
Qed.

Lemma sigmoid_logistic (x : R) : sigmoid x = Spec.logistic x.
Proof. unfold sigmoid, Spec.logistic, Rdiv. apply Rmult_1_l. Qed.

(** A slice that lies inside the envelope is a window of the specification. *)
Lemma window_at (env : list R) (bars off k : Z) :
  (1 <= bars)%Z -> (0 <= off)%Z -> (0 <= k)%Z ->
  ((off + k + 1) * bars <= Z.of_nat (length env))%Z ->
  Py.slice env ((off + k) * bars) ((off + k + 1) * bars) = Spec.window env bars off k
  /\ Z.of_nat (length (Spec.window env bars off k)) = bars.
Proof.
  intros Hb Hoff Hk Hup.
  assert (Hin : (0 <= (off + k) * bars <= (off + k + 1) * bars)%Z) by nia.
  assert (E : Py.slice env ((off + k) * bars) ((off + k + 1) * bars)
              = Spec.window env bars off k).
  { rewrite slice_inside by assumption. unfold Spec.window.
    now replace ((off + k + 1) * bars - (off + k) * bars)%Z with bars by ring. }
  split; [exact E|].
  rewrite <- E, slice_length_inside by assumption. ring.
Qed.

(** The source's blend of one channel is the blend of the specification,
    for every position at which both windows lie inside the envelope. *)
Lemma blend_at (k : config) (env : list R) (denvs : list (list R)) (pos : Q) :
  (1 <= bars k)%Z -> (0 <= pos)%Q ->
  ((Qfloor pos + 2) * bars k <= Z.of_nat (length env))%Z ->
  Forall (fun v => (0 <= v)%R) env ->
  blend k (Np.hanning (bars k)) (Py.int pos) (pos - inject_Z (Py.int pos)) env denvs
  = Ok (denvs ++ [Spec.blended (Q2R (speed k)) (Q2R (Spec.loc pos)) (bars k)
                    (Spec.window env (bars k) (Spec.off pos) 0)
                    (Spec.window env (bars k) (Spec.off pos) 1)]).
Proof.
  intros Hb Hpos Hfit Hval.
  assert (Hint : Py.int pos = Qfloor pos) by now apply int_nonneg.
  assert (Hoff : (0 <= Qfloor pos)%Z).
  { rewrite <- Hint. now apply int_nonneg_pos. }
  destruct (window_at env (bars k) (Qfloor pos) 0 Hb Hoff ltac:(lia) ltac:(nia))
    as [E1 L1].
  destruct (window_at env (bars k) (Qfloor pos) 1 Hb Hoff ltac:(lia) ltac:(nia))
    as [E2 L2].
  rewrite Z.add_0_r in E1.
  replace (Qfloor pos + 1 + 1)%Z with (Qfloor pos + 2)%Z in E2 by ring.
  unfold blend, Spec.off. rewrite Hint, E1, E2.
  set (w1 := Spec.window env (bars k) (Qfloor pos) 0) in *.
  set (w2 := Spec.window env (bars k) (Qfloor pos) 1) in *.
  assert (Hne : w2 <> []) by (intros E; rewrite E in L2; simpl in L2; lia).
  rewrite (max_maximum w2 Hne). cbn [Py.bind].
  assert (Hm : (0 <= Spec.maximum w2)%R).
  { apply (maximum_bounds (fun v => (0 <= v)%R)); [exact Hne|].
    unfold w2, Spec.window. now apply Forall_firstn, Forall_skipn. }
  unfold Np.log10. destruct (Rlt_dec 0 (1e-4 + Spec.maximum w2)) as [_|Hn]; [|lra].
  cbn [Py.bind].
  rewrite clip_interpole.
  assert (Hl1 : length w1 = Z.to_nat (bars k)) by lia.
  assert (Hl2 : length w2 = Z.to_nat (bars k)) by lia.
  rewrite broadcast_same by (unfold Np.scale; rewrite !length_map; congruence).
  cbn [Py.bind].
  rewrite imul_same
    by (rewrite length_map, length_seq, hanning_length by lia;
        unfold Np.scale; now rewrite length_map).
  cbn [Py.bind]. do 2 f_equal. f_equal.
  assert (Hsc : forall r a, length (Np.scale r a) = length a)
    by (intros; apply length_map).
  rewrite length_map, length_seq, !Hsc, Hl1.
  unfold Spec.blended. apply map_ext_in. intros i Hi. apply in_seq in Hi.
  rewrite nth_map_seq by lia. rewrite !nth_scale.
  rewrite hanning_hann by lia. rewrite nth_map_seq by lia.
  rewrite sigmoid_logistic.
  unfold Spec.weight, Spec.maxvol, Spec.log10, Spec.loc, Spec.off.
  replace (ln (1e-4 + Spec.maximum w2) / ln 10 * 10)%R
    with (10 * (ln (1e-4 + Spec.maximum w2) / ln 10))%R by ring.
  reflexivity.
Qed.

(** The same for a frame of the clip, in exact arithmetic. *)
Lemma blend_spec (env : list R) (denvs : list (list R)) (idx : Z) :
  env_ok c sr n env -> (0 <= idx < frames_of c n sr)%Z ->
  let pos := pos_of c sr idx in
  blend c (Np.hanning (bars c)) (Py.int pos) (pos - inject_Z (Py.int pos)) env denvs
  = Ok (denvs ++ [Spec.blended (Q2R (speed c)) (Q2R (Spec.loc pos)) (bars c)
                    (Spec.window env (bars c) (Spec.off pos) 0)
                    (Spec.window env (bars c) (Spec.off pos) 1)]).
Proof.
  intros Hok Hidx pos.
  assert (Hpos : (0 <= pos)%Q) by (apply pos_nonneg; [assumption | lia]).
  destruct (windows_inside c sr Hvalid n env idx Hok Hidx) as [_ Hfit].
  cbv zeta in Hfit. fold pos in Hfit. rewrite (int_nonneg pos Hpos) in Hfit.
  apply blend_at; [apply (valid_bars _ _ Hvalid) | exact Hpos | exact Hfit |].
  destruct Hok as [_ Hv]. eapply Forall_impl; [|exact Hv].
  intros v Hv'. cbv beta in Hv'. lra.
Qed.

End Frame.

(** ** Rendering *)

Section Rendering.
Local Open Scope R_scope.

Lemma for_concat {A B : Type} (body : A -> list B -> result (list B))
    (g : A -> list B) (l : list A) :
  (forall x s, In x l -> body x s = Ok (s ++ g x)) ->
  forall s, Py.for_ l body s = Ok (s ++ concat (map g l)).
Proof.
  induction l as [|x l IH]; intros Hbody s; simpl.
  - now rewrite app_nil_r.
  - rewrite Hbody by now left.
    rewrite IH by (intros; apply Hbody; now right).
    now rewrite <- app_assoc.
Qed.

Lemma contains_app {A : Type} (block l pre post : list A) :
  contains block l -> contains block (pre ++ l ++ post).
Proof.
  intros (b & a & ->). exists (pre ++ b), (a ++ post).
  now rewrite <- !app_assoc.
Qed.

Lemma contains_concat {A B : Type} (g : A -> list B) (l : list A) (x : A) :
  In x l -> contains (g x) (concat (map g l)).
Proof.
  intros Hin. apply in_split in Hin. destruct Hin as (l1 & l2 & ->).
  exists (concat (map g l1)), (concat (map g l2)).
  now rewrite map_app, concat_app.
Qed.

Lemma index_ok {A : Type} (a : list A) (i : nat) (d : A) :
  (i < length a)%nat -> Py.index a i = Ok (nth i a d).
Proof.
  intros Hi. unfold Py.index.
  now rewrite (nth_error_nth' a d Hi).
Qed.

Variables (envs : list (list R)) (fg_colors : list rgb) (T : nat).
Hypothesis Hchannels : (0 < length envs <= length fg_colors)%nat.
Hypothesis Hsteps : (0 < T)%nat.
Hypothesis Hshape : Forall (fun env => length env = T) envs.

Let K := length envs.
Let pad := 0.1 * (1 / (INR T * (1 + 2 * 0.1))).
Let delta := 2 * pad + 1 / (INR T * (1 + 2 * 0.1)).

Lemma draw_bar_ok (step i : nat) (ctx : list cairo) :
  (step < T)%nat -> (i < K)%nat ->
  draw_bar envs fg_colors K pad delta step i ctx
  = Ok (ctx ++ Spec.bar 0.9 K i (bar_x T step)
                 (nth step (nth i envs []) 0) (nth i fg_colors (0, 0, 0)%Q)).
Proof.
  intros Hstep Hi. unfold draw_bar.
  rewrite (index_ok envs i []) by exact Hi. cbn [Py.bind].
  assert (Hlen : length (nth i envs []) = T).
  { apply (proj1 (Forall_forall _ _) Hshape), nth_In, Hi. }
  rewrite (index_ok _ step 0) by lia. cbn [Py.bind].
  rewrite (index_ok fg_colors i (0, 0, 0)%Q) by (unfold K in Hi; lia).
  cbn [Py.bind].
  unfold Spec.bar, bar_x. fold pad. fold delta.
  replace (0.5 * nth step (nth i envs []) 0 / INR K)
    with (nth step (nth i envs []) 0 / (2 * INR K))
    by (unfold Rdiv; rewrite Rinv_mult; lra).
  reflexivity.
Qed.

Lemma draw_env_ok (out : string) (bg : rgb) (size : Z * Z) :
  draw_env envs out fg_colors bg size
  = Ok (mkpng out size
          ([ scale (fst size) (snd size); set_source_rgb bg;
             rectangle 0 0 1 1; fill;
             set_line_width (1 / (INR T * (1 + 2 * 0.1))) ]
           ++ concat (map (fun step =>
                 concat (map (fun i =>
                   Spec.bar 0.9 K i (bar_x T step)
                     (nth step (nth i envs []) 0) (nth i fg_colors (0, 0, 0)%Q))
                   (seq 0 K)))
                (seq 0 T)))).
Proof.
  unfold draw_env.
  rewrite (index_ok envs 0 []) by lia. cbn [Py.bind].
  assert (Hlen : length (nth 0 envs []) = T).
  { apply (proj1 (Forall_forall _ _) Hshape), nth_In. lia. }
  rewrite Hlen.
  destruct (Nat.eqb_spec T 0); [lia|]. cbn [Py.bind].
  fold K. fold pad. fold delta.
  rewrite (for_concat _ (fun step => concat (map (fun i =>
             Spec.bar 0.9 K i (bar_x T step)
               (nth step (nth i envs []) 0) (nth i fg_colors (0, 0, 0)%Q))
             (seq 0 K)))).
  - reflexivity.
  - intros step s Hstep. apply in_seq in Hstep.
    apply for_concat. intros i s' Hi. apply in_seq in Hi.
    apply draw_bar_ok; lia.
Qed.

End Rendering.

(** ** The frame loop *)

Section Driver.

Variables (c : config) (sr : Q).
Hypothesis Hvalid : valid c sr.

Lemma blended_length (s l : R) (w1 w2 : list R) :
  length (Spec.blended s l (bars c) w1 w2) = Z.to_nat (bars c).
Proof. unfold Spec.blended. now rewrite length_map, length_seq. Qed.

Lemma range1_elements (m idx : Z) : In idx (Py.range1 m) -> (0 <= idx < m)%Z.
Proof.
  unfold Py.range1. intros H. apply in_map_iff in H.
  destruct H as (k & <- & Hk). apply in_seq in Hk. lia.
Qed.

End Driver.

(** ** The standard deviation *)

Lemma sum_zeros (a : list R) : Forall (fun x => x = 0%R) a -> Np.sum a = 0%R.
Proof.
  induction 1 as [|x a Hx _ IH]; simpl; [reflexivity|]. rewrite Hx, IH. lra.
Qed.

Lemma mean_zeros (a : list R) : Forall (fun x => x = 0%R) a -> Np.mean a = 0%R.
Proof.
  intros H. unfold Np.mean. rewrite (sum_zeros a H). unfold Rdiv. ring.
Qed.

(** A channel of zeros has standard deviation zero. *)
Lemma std_zeros (a : list R) : Forall (fun x => x = 0%R) a -> Np.std a = 0%R.
Proof.
  intros H. unfold Np.std. rewrite (mean_zeros a H).
  rewrite mean_zeros; [apply sqrt_0|].
  apply Forall_map. eapply Forall_impl; [|exact H].
  intros x ->. simpl. rewrite Rminus_0_r, Rabs_R0. unfold Rsqr. ring.
Qed.

Section Deviation.
Local Open Scope R_scope.

Lemma sum_zero_terms (a : list R) :
  Forall (fun x => 0 <= x) a -> Np.sum a = 0 -> Forall (fun x => x = 0) a.
Proof.
  induction 1 as [|x a Hx Ha IH]; simpl; intros Hs; constructor.
  - pose proof (sum_nonneg a Ha). lra.
  - apply IH. pose proof (sum_nonneg a Ha). lra.
Qed.

Lemma deviations_nonneg (wav : list R) (m : R) :
  0 <= Np.mean (map (fun x => (Rabs (x - m))²) wav).
Proof.
  set (sq := map (fun x => (Rabs (x - m))²) wav).
  assert (Hsq : Forall (fun y => 0 <= y) sq).
  { apply Forall_map, Forall_forall. intros x _. apply Rle_0_sqr. }
  unfold Np.mean. pose proof (sum_nonneg sq Hsq) as Hs.
  destruct sq as [|y sq'].
  - simpl. unfold Rdiv. rewrite Rmult_0_l. lra.
  - apply Rmult_le_pos; [exact Hs|].
    left. apply Rinv_0_lt_compat, lt_0_INR. simpl. lia.
Qed.

Lemma std_zero_constant (wav : list R) :
  Np.std wav = 0 -> Forall (fun x => x = Np.mean wav) wav.
Proof.
  unfold Np.std. set (m := Np.mean wav).
  set (sq := map (fun x => (Rabs (x - m))²) wav).
  intros H0. apply sqrt_eq_0 in H0; [|apply deviations_nonneg].
  destruct wav as [|x0 wav']; [constructor|].
  assert (Hsq : Forall (fun y => 0 <= y) sq).
  { apply Forall_map, Forall_forall. intros x _. apply Rle_0_sqr. }
  assert (Hsum : Np.sum sq = 0).
  { unfold Np.mean in H0.
    assert (Hn : INR (length sq) <> 0)
      by (apply not_0_INR; unfold sq; simpl; discriminate).
    apply (Rmult_eq_compat_r (INR (length sq))) in H0.
    unfold Rdiv in H0. rewrite Rmult_assoc, Rinv_l, Rmult_1_r, Rmult_0_l in H0
      by exact Hn.
    exact H0. }
  pose proof (sum_zero_terms sq Hsq Hsum) as Hz.
  unfold sq in Hz. apply Forall_map in Hz.
  eapply Forall_impl; [|exact Hz]. intros x Hx. cbv beta in Hx.
  apply Rsqr_0_uniq in Hx.
  destruct (Req_dec x m) as [E|NE]; [exact E|].
  exfalso. apply (Rabs_no_R0 (x - m)); [lra | exact Hx].
Qed.

(** A channel with two different samples has a non-zero standard
    deviation. *)
Lemma std_nonzero (wav : list R) (i j : nat) :
  (i < length wav)%nat -> (j < length wav)%nat ->
  nth i wav 0 <> nth j wav 0 -> Np.std wav <> 0.
Proof.
  intros Hi Hj Hne H0. apply std_zero_constant in H0.
  pose proof (proj1 (Forall_forall _ _) H0 _ (nth_In wav 0 Hi)) as Ei.
  pose proof (proj1 (Forall_forall _ _) H0 _ (nth_In wav 0 Hj)) as Ej.
  cbv beta in Ei, Ej. congruence.
Qed.

End Deviation.

(** ** The driver in binary64 *)

Section Truncation.
Local Open Scope Q_scope.

Lemma int_nonpos (q : Q) : q <= 0 -> Py.int q = Qceiling q.
Proof.
  destruct q as [n d]. unfold Qle, Py.int, Qceiling, Qfloor, Qopp. simpl. intros H.
  assert (Hn : (n <= 0)%Z) by lia.
  replace n with (- - n)%Z at 1 by lia.
  rewrite Z.quot_opp_l by lia. f_equal.
  apply Z.quot_div_nonneg; lia.
Qed.

(** [int] keeps the integer part: it truncates toward zero. *)
Lemma truncation_int (q : Q) : truncation q (Py.int q).
Proof.
  split; intros H.
  - rewrite int_nonneg by exact H. split; [apply Qfloor_le|].
    rewrite <- (inject_Z_plus _ 1). apply Qlt_floor.
  - rewrite int_nonpos by exact H. split; [|apply Qle_ceiling].
    change (inject_Z (Qceiling q) - 1) with (inject_Z (Qceiling q) + inject_Z (-1)).
    rewrite <- inject_Z_plus. apply Qceiling_lt.
Qed.

Lemma bind_ok {A B : Type} (m : result A) (k : A -> result B) (b : B) :
  Py.bind m k = Ok b -> exists a, m = Ok a /\ k a = Ok b.
Proof.
  destruct m as [a|e]; [|discriminate]. intros H. now exists a.
Qed.

Lemma int64_exact (x : float) (z : Z) :
  Binary64.int x = Ok z ->
  exists q, Binary64.exact x = Ok q /\ z = Py.int q /\ truncation q z.
Proof.
  unfold Binary64.int. destruct (Binary64.exact x) as [q|e]; [|discriminate].
  cbn [Py.bind]. intros [= <-]. exists q.
  split; [reflexivity|]. split; [reflexivity | apply truncation_int].
Qed.

Lemma truediv64_ok (a b x : float) :
  Binary64.truediv a b = Ok x -> x = (a / b)%float.
Proof.
  unfold Binary64.truediv. destruct (b =? 0)%float; [discriminate|].
  now intros [= <-].
Qed.

(** A zero dividend gives a zero quotient or NaN: [int(0 / o)] is [0]
    whenever it is defined. *)
Lemma int64_zero_quotient (o x : float) (z : Z) :
  Binary64.truediv (Binary64.of_int 0) o = Ok x -> Binary64.int x = Ok z -> z = 0%Z.
Proof.
  intros Hx. apply truediv64_ok in Hx. subst x.
  unfold Binary64.int, Binary64.exact.
  rewrite FloatAxioms.div_spec.
  change (Prim2SF (Binary64.of_int 0)) with (S754_zero false).
  unfold SF64div, SFdiv.
  destruct (Prim2SF o); cbn [Py.bind]; intros [= <-]; reflexivity.
Qed.

Lemma zero64 (s : float) :
  (s =? 0)%float = true -> exists sign, Prim2SF s = S754_zero sign.
Proof.
  rewrite FloatAxioms.eqb_spec.
  change (Prim2SF 0) with (S754_zero false).
  unfold SFeqb, SFcompare.
  destruct (Prim2SF s) as [sign|sign| |sign m e]; try discriminate.
  - intros _. now exists sign.
  - destruct sign; discriminate.
  - destruct sign; discriminate.
Qed.

(** [x / 0] on numpy numbers is NaN or an infinity. *)
Lemma divide_by_zero (x s : float) :
  (s =? 0)%float = true ->
  is_nan (Binary64.divide x s) = true \/ is_infinity (Binary64.divide x s) = true.
Proof.
  intros Hs. destruct (zero64 s Hs) as (sign & Hz).
  unfold Binary64.divide, is_nan, is_infinity.
  rewrite !FloatAxioms.eqb_spec, FloatAxioms.abs_spec, FloatAxioms.div_spec, Hz.
  change (Prim2SF infinity) with (S754_infinity false).
  unfold SF64div, SFdiv.
  destruct (Prim2SF x) as [sx|sx| |sx m e]; cbn; auto.
Qed.

End Truncation.

Section Binary64Driver.
Local Open Scope Z_scope.

(** What the frame loop relies on for one padded envelope. *)
Let env_fine (k : config) (window stride : Z) (n : nat) (env : list R) : Prop :=
  Z.of_nat (length env) = env_size (bars k) window stride n
  /\ Forall (fun v => (0 <= v < 0.95)%R) env.

Lemma padded_envelope_at (k : config) (window stride : Z) (wav : list R)
    (envs : list (list R)) :
  0 <= bars k -> 0 <= window -> 0 < stride ->
  exists e env,
    envelope wav window stride = Ok e
    /\ Np.pad e (bars k / 2) (2 * bars k) = Ok env
    /\ padded_envelope k window stride wav envs = Ok (envs ++ [env])
    /\ env_fine k window stride (length wav) env.
Proof.
  intros Hb Hw Hs. unfold padded_envelope.
  destruct (envelope wav window stride) as [e|x] eqn:He;
    [| rewrite envelope_ok in He; [discriminate | lia | lia] ].
  cbn [Py.bind].
  assert (Hp := pad_ok e (bars k / 2) (2 * bars k)
                  ltac:(apply Z.div_pos; lia) ltac:(lia)).
  rewrite Hp. cbn [Py.bind].
  exists e. eexists. split; [reflexivity|]. split; [exact Hp|].
  split; [reflexivity|]. split.
  - rewrite !length_app, !repeat_length.
    rewrite !Nat2Z.inj_add, !Z2Nat.id by (try apply Z.div_pos; lia).
    rewrite (envelope_length _ _ _ _ Hw Hs He), padded_length by lia.
    unfold env_size. lia.
  - apply Forall_app. split; [|apply Forall_app; split].
    + apply Forall_forall. intros v Hv. apply repeat_spec in Hv. subst. lra.
    + eapply envelope_values; [| |exact He]; lia.
    + apply Forall_forall. intros v Hv. apply repeat_spec in Hv. subst. lra.
Qed.

Lemma frames_loop_each (P : Z -> png -> Prop) (body : Z -> result png)
    (idxs : list Z) :
  (forall idx, In idx idxs -> exists img, body idx = Ok img /\ P idx img) ->
  forall fs, exists new,
    frames_loop body idxs fs = (fs ++ new, Ok tt) /\ Forall2 P idxs new.
Proof.
  induction idxs as [|idx idxs IH]; intros Hbody fs.
  - exists []. rewrite app_nil_r. split; [reflexivity | constructor].
  - destruct (Hbody idx (or_introl eq_refl)) as (img & Himg & HP).
    destruct (IH (fun i H => Hbody i (or_intror H)) (fs ++ [img]))
      as (new & Hnew & Hall).
    exists (img :: new). simpl. rewrite Himg, Hnew, <- app_assoc. simpl.
    split; [reflexivity | now constructor].
Qed.

Lemma draw_env_path (envs : list (list R)) (out : string) (fg : list rgb)
    (bg : rgb) (size : Z * Z) (img : png) :
  draw_env envs out fg bg size = Ok img -> path img = out /\ size_px img = size.
Proof.
  unfold draw_env. destruct (Py.index envs 0) as [env0|e]; [|discriminate].
  cbn [Py.bind]. destruct (length env0 =? 0)%nat; [discriminate|].
  cbn [Py.bind]. destruct (Py.for_ _ _ _) as [ctx|e]; [|discriminate].
  cbn [Py.bind]. intros [= <-]. split; reflexivity.
Qed.

Lemma window_fits_ok (k : config) (sr : Q) (stride len idx : Z) :
  Binary64.window_fits k sr stride len idx = true ->
  exists x pos,
    Binary64.position k sr stride idx = Ok x
    /\ Binary64.exact x = Ok pos
    /\ (0 <= pos)%Q
    /\ (Spec.off pos + 2) * bars k <= len.
Proof.
  unfold Binary64.window_fits.
  destruct (Binary64.position k sr stride idx) as [x|e]; [|discriminate].
  cbn [Py.bind].
  destruct (Binary64.exact x) as [pos|e] eqn:Hx; [|discriminate].
  intros H. apply andb_prop in H. destruct H as [H0 Hfit].
  apply Qle_bool_iff in H0. apply Z.leb_le in Hfit.
  exists x, pos. split; [reflexivity|]. split; [exact Hx|].
  split; [exact H0|]. unfold Spec.off. now rewrite <- int_nonneg.
Qed.

(** The blends of a frame at a position where the windows fit. *)
Lemma frame_at_spec (k : config) (audioID : string) (envs : list (list R))
    (idx : Z) (pos : Q) :
  1 <= bars k -> (0 <= pos)%Q ->
  Forall (fun env => (Spec.off pos + 2) * bars k <= Z.of_nat (length env)
                     /\ Forall (fun v => (0 <= v)%R) env) envs ->
  frame_at k audioID envs (Np.hanning (bars k)) idx pos
  = draw_env
      (map (fun env =>
              Spec.blended (Q2R (speed k)) (Q2R (Spec.loc pos)) (bars k)
                (Spec.window env (bars k) (Spec.off pos) 0)
                (Spec.window env (bars k) (Spec.off pos) 1)) envs)
      (frame_path k audioID idx) [fg_color k; fg_color2 k] (bg_color k) (size k).
Proof.
  intros Hb Hpos Hall. unfold frame_at.
  rewrite (for_append_map _ (fun env =>
             Spec.blended (Q2R (speed k)) (Q2R (Spec.loc pos)) (bars k)
               (Spec.window env (bars k) (Spec.off pos) 0)
               (Spec.window env (bars k) (Spec.off pos) 1))).
  - reflexivity.
  - intros env s Hin.
    destruct (proj1 (Forall_forall _ _) Hall env Hin) as [Hfit Hval].
    now apply blend_at.
Qed.

Variables (c : config) (sr : Q) (window stride frames : Z).
Hypothesis Hbars : 1 <= bars c.
Hypothesis Hwindow : Binary64.derive_window sr c = Ok window.
Hypothesis Hstride : Binary64.derive_stride window c = Ok stride.
Hypothesis Hw : 0 <= window.
Hypothesis Hs : 1 <= stride.

Lemma analyse64_ok (wav : list (list R)) :
  (stereo c = true -> length wav = 2%nat) -> rectangular wav ->
  Binary64.frame_count c (length (hd [] wav)) sr = Ok frames ->
  exists wavs envs,
    select_channels (stereo c) wav = Ok wavs
    /\ Binary64.analyse c wav sr
       = Ok (mkanalysis stride envs frames (Np.hanning (bars c)))
    /\ length envs = (if stereo c then 2%nat else 1%nat)
    /\ Forall2 (fun w env =>
                  exists e,
                    envelope (map (fun x => (x / Np.std w)%R) w) window stride = Ok e
                    /\ Np.pad e (bars c / 2) (2 * bars c) = Ok env)
               wavs envs
    /\ Forall (env_fine c window stride (length (hd [] wav))) envs.
Proof.
  intros Hst Hrect Hframes. unfold Binary64.analyse.
  destruct (select_channels_ok c wav Hst Hrect) as (wavs & Hsel & Hlen & Hall).
  rewrite Hsel. cbn [Py.bind]. rewrite Hwindow. cbn [Py.bind].
  rewrite Hstride. cbn [Py.bind].
  apply normalize_lengths in Hall.
  assert (Hlen' : length (normalize wavs) = length wavs)
    by (unfold normalize; apply length_map).
  destruct (for_append (padded_envelope c window stride)
              (fun w env =>
                 (exists e, envelope w window stride = Ok e
                            /\ Np.pad e (bars c / 2) (2 * bars c) = Ok env)
                 /\ env_fine c window stride (length w) env)
              (normalize wavs)) with (s := @nil (list R))
    as (envs & Hfor & HF).
  { intros w s _.
    destruct (padded_envelope_at c window stride w s) as (e & env & He & Hp & Hpe & Hf);
      try lia.
    exists env. split; [exact Hpe|]. split; [now exists e | exact Hf]. }
  rewrite Hfor. cbn [Py.bind app].
  assert (Hn0 : length (nth 0 (normalize wavs) []) = length (hd [] wav)).
  { destruct (normalize wavs) as [|w ws] eqn:E.
    - simpl in Hlen'. rewrite <- Hlen' in Hlen.
      destruct (stereo c); discriminate.
    - now inversion Hall. }
  rewrite Hn0, Hframes. cbn [Py.bind]. exists wavs, envs.
  split; [reflexivity|]. split; [reflexivity|]. split; [|split].
  - rewrite <- (Forall2_length HF). congruence.
  - unfold normalize in HF. apply Forall2_map_left in HF.
    eapply Forall2_impl; [|exact HF]. now intros w env [H _].
  - clear - HF Hall. induction HF as [|w env ws envs [_ Hfine] _ IH]; constructor.
    + inversion Hall; subst. congruence.
    + apply IH. now inversion Hall.
Qed.

Lemma frame64_ok (audioID : string) (n : nat) (envs : list (list R)) (idx : Z) :
  Forall (env_fine c window stride n) envs -> (0 < length envs <= 2)%nat ->
  Binary64.window_fits c sr stride (env_size (bars c) window stride n) idx = true ->
  exists x pos,
    Binary64.position c sr stride idx = Ok x
    /\ Binary64.exact x = Ok pos
    /\ (0 <= pos)%Q
    /\ Forall (fun env => (Spec.off pos + 2) * bars c <= Z.of_nat (length env)) envs
    /\ Binary64.frame c audioID sr stride envs (Np.hanning (bars c)) idx
       = draw_env
           (map (fun env =>
                   Spec.blended (Q2R (speed c)) (Q2R (Spec.loc pos)) (bars c)
                     (Spec.window env (bars c) (Spec.off pos) 0)
                     (Spec.window env (bars c) (Spec.off pos) 1)) envs)
           (frame_path c audioID idx) [fg_color c; fg_color2 c] (bg_color c) (size c).
Proof.
  intros Hok Hlen Hfit.
  destruct (window_fits_ok _ _ _ _ _ Hfit) as (x & pos & Hx & Hpos & H0 & Hin).
  exists x, pos. split; [exact Hx|]. split; [exact Hpos|]. split; [exact H0|].
  assert (Hall : Forall (fun env => (Spec.off pos + 2) * bars c
                                    <= Z.of_nat (length env)) envs).
  { eapply Forall_impl; [|exact Hok]. intros env [Hl _]. now rewrite Hl. }
  split; [exact Hall|].
  unfold Binary64.frame. rewrite Hx. cbn [Py.bind]. rewrite Hpos. cbn [Py.bind].
  apply frame_at_spec; [exact Hbars | exact H0 |].
  apply Forall_forall. intros env He. split.
  - exact (proj1 (Forall_forall _ _) Hall env He).
  - destruct (proj1 (Forall_forall _ _) Hok env He) as [_ Hv].
    eapply Forall_impl; [|exact Hv]. intros v Hv'. cbv beta in Hv'. lra.
Qed.

(** The driver raises nothing and writes one frame per index, each drawn
    from the blends of the specification, when the windows of every frame
    fit. *)
Lemma visualize64_ok (audioID : string) (wav : list (list R)) (fs : list png) :
  (stereo c = true -> length wav = 2%nat) -> rectangular wav ->
  Binary64.frame_count c (length (hd [] wav)) sr = Ok frames ->
  Binary64.windows_fit c sr window stride frames (length (hd [] wav)) = true ->
  exists envs new,
    Binary64.analyse c wav sr
    = Ok (mkanalysis stride envs frames (Np.hanning (bars c)))
    /\ (0 < length envs <= 2)%nat
    /\ Forall (env_fine c window stride (length (hd [] wav))) envs
    /\ Binary64.visualize audioID (Ok (wav, sr)) c fs = (fs ++ new, Ok tt)
    /\ Forall2 (fun idx img =>
         exists x pos,
           Binary64.position c sr stride idx = Ok x
           /\ Binary64.exact x = Ok pos
           /\ (0 <= pos)%Q
           /\ draw_env
                (map (fun env =>
                        Spec.blended (Q2R (speed c)) (Q2R (Spec.loc pos)) (bars c)
                          (Spec.window env (bars c) (Spec.off pos) 0)
                          (Spec.window env (bars c) (Spec.off pos) 1)) envs)
                (frame_path c audioID idx) [fg_color c; fg_color2 c]
                (bg_color c) (size c)
              = Ok img)
         (Py.range1 frames) new.
Proof.
  intros Hst Hrect Hframes Hfit.
  destruct (analyse64_ok wav Hst Hrect Hframes)
    as (wavs & envs & _ & Ha & Hlen & _ & Hok).
  assert (Hlen' : (0 < length envs <= 2)%nat)
    by (rewrite Hlen; destruct (stereo c); lia).
  exists envs.
  unfold Binary64.visualize. rewrite Ha. cbn [a_stride a_envs a_frames a_smooth].
  edestruct frames_loop_each with (fs := fs) as (new & Hnew & Hall);
    [| exists new; split; [reflexivity|]; split; [exact Hlen'|];
       split; [exact Hok|]; split; [exact Hnew | exact Hall] ].
  intros idx Hidx. cbv beta.
  unfold Binary64.windows_fit in Hfit.
  pose proof (proj1 (forallb_forall _ _) Hfit idx Hidx) as Hi.
  destruct (frame64_ok audioID _ envs idx Hok Hlen' Hi)
    as (x & pos & Hx & Hpos & H0 & _ & Hframe).
  rewrite Hframe.
  match goal with
  | |- exists img, ?d = Ok img /\ _ => assert (Hd : exists img, d = Ok img)
  end.
  { rewrite (draw_env_ok _ [fg_color c; fg_color2 c] (Z.to_nat (bars c)));
      [eexists; reflexivity | rewrite length_map; simpl; lia | lia |].
    apply Forall_map, Forall_forall. intros env _. apply blended_length. }
  destruct Hd as (img & Hd). exists img. split; [exact Hd|].
  exists x, pos. split; [exact Hx|]. split; [exact Hpos|].
  split; [exact H0 | exact Hd].
Qed.

End Binary64Driver.

(** * The claims of the specification *)

(** ** EnvelopeExtractor *)

(** C2, as stated: the envelope would have
    [floor((padded_length - window) / stride)] values.  Three samples with
    [window = stride = 2] refute it: the padded array has five entries, the
    offsets are [0] and [2], and [floor(3 / 2) = 1]. *)
Lemma envelope_length_not_floor :
  ~ (forall (wav : list R) (window stride : Z) (e : list R),
        (1 <= stride <= window)%Z ->
        envelope wav window stride = Ok e ->
        Z.of_nat (length e)
        = ((Z.of_nat (length wav) + 2 * (window / 2) - window) / stride)%Z).
Proof.
  intros H.
  specialize (H [1; 2; 3]%R 2%Z 2%Z _ ltac:(lia) eq_refl).
  simpl in H. discriminate H.
Qed.

(** C2, amended: for [window >= stride >= 1] the envelope function pads the
    input by [window // 2] on each side and returns
    [ceil((padded_length - window) / stride)] values (none when that is
    negative), one per stride-aligned offset strictly below
    [padded_length - window]: every pooled window is complete, and a window
    that would end at or past the end of the padded array is dropped. *)
Theorem envelope_length_ceil (wav : list R) (window stride : Z) :
  (1 <= stride <= window)%Z ->
  exists wav' e,
    Np.pad wav (window / 2) (window / 2) = Ok wav'
    /\ Z.of_nat (length wav') = (Z.of_nat (length wav) + 2 * (window / 2))%Z
    /\ envelope wav window stride = Ok e
    /\ Z.of_nat (length e)
       = Z.max 0 ((Z.of_nat (length wav') - window + stride - 1) / stride)
    /\ (forall k, (k < length e)%nat ->
          (Z.of_nat k * stride + window < Z.of_nat (length wav'))%Z
          /\ Z.of_nat (length (Py.slice wav' (Z.of_nat k * stride)
                                 (Z.of_nat k * stride + window))) = window)
    /\ (Z.of_nat (length wav') <= Z.of_nat (length e) * stride + window)%Z.
Proof.
  intros Hws.
  assert (Hw : (0 <= window)%Z) by lia.
  assert (Hs : (0 < stride)%Z) by lia.
  exists (padded wav window). eexists.
  split; [apply pad_ok; apply Z.div_pos; lia|].
  split; [now apply padded_length|].
  split; [now apply envelope_ok|].
  rewrite !length_map, length_seq, range_length_pos by assumption.
  set (L := Z.of_nat (length (padded wav window))).
  split; [reflexivity|].
  assert (Hmul : (stride * ((L - window + stride - 1) / stride)
                  <= L - window + stride - 1)%Z) by (apply Z.mul_div_le; lia).
  assert (Hlt : (L - window + stride - 1
                 < stride * ((L - window + stride - 1) / stride) + stride)%Z).
  { pose proof (Z.mul_succ_div_gt (L - window + stride - 1) stride Hs). lia. }
  split.
  - intros k Hk.
    assert (Hk' : (Z.of_nat k + 1 <= (L - window + stride - 1) / stride)%Z).
    { pose proof (range_length_pos (L - window) stride Hs). lia. }
    assert (Hin : (Z.of_nat k * stride + window < L)%Z) by nia.
    split; [exact Hin|].
    rewrite slice_length_inside; fold L; nia.
  - lia.
Qed.

Lemma envelope_length_ceil_witness :
  exists wav' e,
    Np.pad [1; 2; 3]%R (2 / 2) (2 / 2) = Ok wav'
    /\ Z.of_nat (length wav') = (Z.of_nat 3 + 2 * (2 / 2))%Z
    /\ envelope [1; 2; 3]%R 2 2 = Ok e
    /\ Z.of_nat (length e) = Z.max 0 ((Z.of_nat (length wav') - 2 + 2 - 1) / 2)
    /\ (forall k, (k < length e)%nat ->
          (Z.of_nat k * 2 + 2 < Z.of_nat (length wav'))%Z
          /\ Z.of_nat (length (Py.slice wav' (Z.of_nat k * 2)
                                 (Z.of_nat k * 2 + 2))) = 2%Z)
    /\ (Z.of_nat (length wav') <= Z.of_nat (length e) * 2 + 2)%Z.
Proof.
  apply (envelope_length_ceil [1; 2; 3]%R 2 2). lia.
Defined.

Lemma exp_INR (n : nat) : exp (INR n) = (exp 1 ^ n)%R.
Proof.
  induction n as [|n IH]; [simpl; apply exp_0|].
  rewrite S_INR, exp_plus, IH. simpl. ring.
Qed.

Lemma exp_100 : (exp (- (2.5 * 40)) < / 2 ^ 60)%R.
Proof.
  replace (2.5 * 40)%R with (INR 100) by (rewrite INR_IZR_INZ; simpl; lra).
  rewrite exp_Ropp, exp_INR.
  assert (H2 : (2 < exp 1)%R).
  { pose proof (exp_ineq1 1 ltac:(lra)). lra. }
  apply Rinv_lt_contravar.
  - apply Rmult_lt_0_compat; apply pow_lt; lra.
  - apply Rlt_le_trans with (2 ^ 100)%R.
    + apply Rlt_pow; [lra | lia].
    + apply pow_incr. lra.
Qed.

(** C9, as stated: [f(x) < 0.95] for every finite [x].  The doubles of the
    code reach the bound.  For a pooled mean of 40 the exponential [e^-100]
    is below [2^-60], and so is the double [np.exp] returns for it
    ([0x1.a8c1f14e2af5dp-145]); for every such [e] the sum [1 + e] rounds to
    1, the sigmoid is exactly 1 and [f(40)] is the double [0.95], for which
    [f(40) < 0.95] is false.  [envelope([40, 40, 40, 40], 2, 1)] consists of
    that value. *)
Lemma compressor_reaches_bound :
  (exp (- (2.5 * 40)) < / 2 ^ 60)%R
  /\ Binary64.compress_exp 0x1p-60 = 0.95%float
  /\ Binary64.compress_exp 0x1.a8c1f14e2af5dp-145 = 0.95%float
  /\ Binary64.compress_exp 0 = 0.95%float
  /\ (Binary64.compress_exp 0x1.a8c1f14e2af5dp-145 <? 0.95)%float = false.
Proof.
  split; [exact exp_100|]. repeat split; vm_compute; reflexivity.
Qed.

(** C9, amended: the compressor [f(x) = 1.9 * (sigmoid(2.5 x) - 0.5)] is
    non-decreasing on [x >= 0] and never above [0.95], a bound that is reached
    once the sigmoid saturates; hence every value of an envelope, the
    compressed rectified mean of a complete window, lies in [[0, 0.95]]. *)
Theorem compressor_monotone_saturating :
  (forall x y : R, (0 <= x)%R -> (x <= y)%R -> (compress x <= compress y)%R)
  /\ (forall x : R, (compress x <= 0.95)%R)
  /\ (forall frame : list R, frame <> [] ->
        (0 <= pool frame)%R /\ (0 <= compress (pool frame) <= 0.95)%R)
  /\ (forall (wav : list R) (window stride : Z),
        (1 <= stride <= window)%Z ->
        exists e, envelope wav window stride = Ok e
                  /\ Forall (fun v => (0 <= v <= 0.95)%R) e).
Proof.
  split; [|split; [|split]].
  - intros x y _ Hxy. now apply compress_monotone.
  - intros x. left. apply compress_upper.
  - intros frame _. pose proof (pool_nonneg frame) as Hp.
    split; [exact Hp|]. split; [now apply compress_nonneg | left; apply compress_upper].
  - intros wav window stride Hws.
    destruct (envelope wav window stride) as [e|x] eqn:He.
    + exists e. split; [reflexivity|].
      eapply Forall_impl; [|eapply envelope_values; [| |exact He]; lia].
      intros v Hv. cbv beta in Hv. lra.
    + rewrite envelope_ok in He; [discriminate | lia | lia].
Qed.

Lemma compressor_monotone_saturating_witness :
  (compress 0 <= compress 1)%R
  /\ (exists e, envelope [1; 2; 3]%R 2 2 = Ok e
                /\ Forall (fun v => (0 <= v <= 0.95)%R) e).
Proof.
  destruct compressor_monotone_saturating as (Hmono & _ & _ & Henv).
  split.
  - apply Hmono; lra.
  - apply (Henv [1; 2; 3]%R 2%Z 2%Z). lia.
Defined.

(** ** FrameInterpolator *)



(** C1: for every output frame index [idx] the frame is drawn from the
    blend of the specification.  The position is the double
    [pos = (idx / framerate) * sample_rate / stride / bars]; wherever it is
    finite, not negative and both windows lie inside the envelopes, [off] is
    its integer part, [loc] its fractional part, the weight is
    [sigmoid(base_speed * speedup * (loc - 0.5))] with [speedup] the clamped
    linear map of [maxvol = 10 * log10(1e-4 + max(window2))], and every
    channel is drawn from [(1 - w) * window1 + w * window2] times the Hann
    taper of [bars] points. *)
Theorem blend_as_specified (c : config) (sr : Q) (audioID : string)
    (stride idx : Z) (envs : list (list R)) (x : float) (pos : Q) :
  (1 <= bars c)%Z ->
  Binary64.position c sr stride idx = Ok x ->
  Binary64.exact x = Ok pos -> (0 <= pos)%Q ->
  Forall (fun env => ((Spec.off pos + 2) * bars c <= Z.of_nat (length env))%Z
                     /\ Forall (fun v => (0 <= v)%R) env) envs ->
  x = Spec.pos (Binary64.of_Q (rate c)) (Binary64.of_Q sr) stride (bars c) idx
  /\ Binary64.frame c audioID sr stride envs (Np.hanning (bars c)) idx
     = draw_env
         (map (fun env =>
                 Spec.blended (Q2R (speed c)) (Q2R (Spec.loc pos)) (bars c)
                   (Spec.window env (bars c) (Spec.off pos) 0)
                   (Spec.window env (bars c) (Spec.off pos) 1)) envs)
         (frame_path c audioID idx) [fg_color c; fg_color2 c] (bg_color c) (size c).
Proof.
  intros Hb Hx Hpos H0 Hall. split.
  - revert Hx. unfold Binary64.position, Spec.pos.
    destruct (Binary64.truediv (Binary64.of_int idx) (Binary64.of_Q (rate c)))
      as [t|e] eqn:Ht; [|discriminate].
    cbn [Py.bind].
    destruct (Binary64.truediv (t * Binary64.of_Q sr) (Binary64.of_int stride))
      as [q|e] eqn:Hq; [|discriminate].
    cbn [Py.bind]. intros Hx.
    apply truediv64_ok in Ht, Hq, Hx. now subst.
  - unfold Binary64.frame. rewrite Hx. cbn [Py.bind]. rewrite Hpos. cbn [Py.bind].
    now apply frame_at_spec.
Qed.

Lemma blend_as_specified_witness :
  Binary64.frame demo_four "7" 16 2 [demo_env] (Np.hanning 4) 5
  = draw_env
      [Spec.blended (Q2R 4) (Q2R (Spec.loc (5 # 8))) 4
         (Spec.window demo_env 4 (Spec.off (5 # 8)) 0)
         (Spec.window demo_env 4 (Spec.off (5 # 8)) 1)]
      "generated/tmp/7-000005.png" [(0.2, 0.2, 0.2)%Q; (0.5, 0.3, 0.6)%Q]
      (1, 1, 1)%Q (400, 400)%Z.
Proof.
  apply (blend_as_specified demo_four 16 "7" 2 5 [demo_env] 0.625%float (5 # 8)).
  - simpl. lia.
  - vm_compute. reflexivity.
  - vm_compute. reflexivity.
  - unfold Qle. simpl. lia.
  - constructor; [|constructor]. split.
    + simpl. lia.
    + unfold demo_env. repeat (apply Forall_cons; [lra|]). apply Forall_nil.
Defined.

(** ** Channel selection and normalisation *)

(** C5: with [stereo] set and a decoded channel count other than two the
    driver raises the assertion error of line 187, the source's channel
    mismatch error, and the working directory is left as it was: no frame has
    been rendered. *)
Theorem stereo_requires_two_channels
    (audioID : string) (wav : list (list R)) (sr : Q) (c : config) (fs : list png) :
  stereo c = true -> length wav <> 2%nat ->
  visualize audioID (Ok (wav, sr)) c fs
  = (fs, Raise (AssertionError "stereo requires stereo audio file")).
Proof.
  intros Hst Hlen. unfold visualize, analyse, select_channels.
  rewrite Hst. destruct (Nat.eqb_spec (length wav) 2); [contradiction|].
  reflexivity.
Qed.

Lemma stereo_requires_two_channels_witness :
  visualize "7" (Ok (demo_wav, 4)) demo_stereo []
  = ([], Raise (AssertionError "stereo requires stereo audio file")).
Proof.
  apply stereo_requires_two_channels; [reflexivity | discriminate].
Defined.

Lemma mean_axis0_nth (wav : list (list R)) (j : nat) :
  (j < length (hd [] wav))%nat ->
  nth j (Np.mean_axis0 wav) 0%R
  = (Np.sum (map (fun row => nth j row 0%R) wav) / INR (length wav))%R.
Proof.
  intros Hj. unfold Np.mean_axis0.
  rewrite (nth_map_seq (fun j => Np.mean (map (fun row => nth j row 0%R) wav)))
    by exact Hj.
  unfold Np.mean. now rewrite length_map.
Qed.



(** C4, as stated: a zero standard deviation would make the pipeline fail.
    Eight samples of silence have the standard deviation zero, and line 194
    divides them by it: the channel becomes eight NaN and nothing is raised,
    there or in the extraction that follows. *)
Lemma silence_is_not_rejected :
  Np.std (Np.mean_axis0 silence) = 0%R
  /\ Binary64.normalize_channel [0; 0; 0; 0; 0; 0; 0; 0]%float 0 = repeat nan 8
  /\ is_nan (Binary64.divide 0 0) = true
  /\ exists a, Binary64.analyse demo_config silence 4 = Ok a.
Proof.
  split; [|split; [|split]].
  - apply std_zeros. unfold Np.mean_axis0. apply Forall_map, Forall_forall.
    intros j _. apply mean_zeros. unfold silence. cbn [map].
    constructor; [|constructor].
    do 8 (destruct j as [|j]; [reflexivity|]). destruct j; reflexivity.
  - vm_compute. reflexivity.
  - vm_compute. reflexivity.
  - destruct (analyse64_ok demo_config 4 2 1 4
                ltac:(simpl; lia) ltac:(vm_compute; reflexivity)
                ltac:(vm_compute; reflexivity) ltac:(lia) ltac:(lia)
                silence ltac:(discriminate) ltac:(repeat constructor)
                ltac:(vm_compute; reflexivity))
      as (wavs & envs & _ & Ha & _).
    eexists. exact Ha.
Qed.

(** C4, amended: every channel is divided by its own standard deviation
    before its envelope is extracted, and the standard deviation is not
    checked against zero.  Whatever the standard deviation is, nothing is
    raised before the frame loop; the envelope of a channel whose standard
    deviation is not zero is the one of the quotient, and a division by a
    zero standard deviation gives NaN or an infinity for every sample. *)
Theorem normalised_without_zero_check
    (c : config) (sr : Q) (wav : list (list R)) (window stride frames : Z) :
  (1 <= bars c)%Z ->
  (stereo c = true -> length wav = 2%nat) -> rectangular wav ->
  Binary64.derive_window sr c = Ok window -> (1 <= window)%Z ->
  Binary64.derive_stride window c = Ok stride -> (1 <= stride)%Z ->
  Binary64.frame_count c (length (hd [] wav)) sr = Ok frames ->
  (exists wavs a,
     select_channels (stereo c) wav = Ok wavs
     /\ Binary64.analyse c wav sr = Ok a
     /\ Forall2 (fun w env =>
                   Np.std w <> 0%R ->
                   exists e,
                     envelope (map (fun x => (x / Np.std w)%R) w) window stride = Ok e
                     /\ Np.pad e (bars c / 2) (2 * bars c) = Ok env)
                wavs (a_envs a))
  /\ (forall x s : float,
        (s =? 0)%float = true ->
        is_nan (Binary64.divide x s) = true
        \/ is_infinity (Binary64.divide x s) = true).
Proof.
  intros Hb Hst Hrect Hwindow Hw Hstride Hs Hframes.
  split; [|exact divide_by_zero].
  destruct (analyse64_ok c sr window stride frames Hb Hwindow Hstride
              ltac:(lia) Hs wav Hst Hrect Hframes)
    as (wavs & envs & Hsel & Ha & _ & HF & _).
  exists wavs. eexists. split; [exact Hsel|]. split; [exact Ha|].
  cbn [a_envs]. eapply Forall2_impl; [|exact HF].
  intros w env H _. exact H.
Qed.

Lemma normalised_without_zero_check_witness :
  exists wavs a,
    select_channels (stereo demo_four) demo_clip = Ok wavs
    /\ Binary64.analyse demo_four demo_clip 16 = Ok a
    /\ Forall2 (fun w env =>
                  Np.std w <> 0%R ->
                  exists e,
                    envelope (map (fun x => (x / Np.std w)%R) w) 4 2 = Ok e
                    /\ Np.pad e (4 / 2) (2 * 4) = Ok env)
               wavs (a_envs a).
Proof.
  apply (normalised_without_zero_check demo_four 16 demo_clip 4 2 16).
  - simpl. lia.
  - discriminate.
  - repeat constructor.
  - vm_compute. reflexivity.
  - lia.
  - vm_compute. reflexivity.
  - lia.
  - vm_compute. reflexivity.
Defined.

(** ** Derived window and stride *)

Section Derivation.
Local Open Scope Z_scope.

Lemma envelope_raises (wav : list R) (window stride : Z) :
  window < 0 \/ stride = 0 ->
  exists msg, envelope wav window stride = Raise (ValueError msg).
Proof.
  intros H. unfold envelope, Np.pad.
  destruct (Z.ltb_spec (window / 2) 0) as [Hneg|Hpos]; simpl.
  - eexists. reflexivity.
  - destruct H as [Hw | ->].
    + exfalso. assert (window / 2 < 0) by (apply Z.div_lt_upper_bound; lia). lia.
    + eexists. reflexivity.
Qed.

Lemma inject_Z_neq (z : Z) : z <> 0 -> ~ inject_Z z == 0%Q.
Proof. intros Hz E. apply Hz. unfold Qeq in E. simpl in E. lia. Qed.

Lemma analyse64_raises (c : config) (sr : Q) (wav : list (list R))
    (window stride : Z) :
  (stereo c = true -> length wav = 2%nat) ->
  Binary64.derive_window sr c = Ok window ->
  Binary64.derive_stride window c = Ok stride ->
  window < 0 \/ stride = 0 ->
  exists msg, Binary64.analyse c wav sr = Raise (ValueError msg).
Proof.
  intros Hst Hwindow Hstride H. unfold Binary64.analyse, select_channels.
  assert (Hfirst : forall w ws,
            exists msg,
              Py.for_ (normalize (w :: ws)) (padded_envelope c window stride) []
              = Raise (ValueError msg)).
  { intros w ws. simpl. unfold padded_envelope.
    destruct (envelope_raises (map (fun x => (x / Np.std w)%R) w) _ _ H) as (msg & ->).
    now exists msg. }
  destruct (stereo c).
  - rewrite (Hst eq_refl). cbn [Nat.eqb Py.bind].
    rewrite Hwindow. cbn [Py.bind]. rewrite Hstride. cbn [Py.bind].
    destruct (Hfirst (nth 0 wav []) [nth 1 wav []]) as (msg & ->). now exists msg.
  - cbn [Py.bind]. rewrite Hwindow. cbn [Py.bind]. rewrite Hstride. cbn [Py.bind].
    destruct (Hfirst (Np.mean_axis0 wav) []) as (msg & ->). now exists msg.
Qed.

End Derivation.

(** In doubles the quotients of lines 196, 206 and 211 are not the exact
    ones: at 11025 Hz with [time = 1.4] and five bars the window is 3086
    samples where exact arithmetic gives 3087; 9280 samples at 8000 Hz and 25
    frames per second make 28 frames, not 29; with the defaults at 8000 Hz
    (stride 21) frame 651 starts at offset 247, not 248. *)
Example doubles_round :
  Binary64.derive_window 11025 (timing 20 5 1.4 3) = Ok 3086%Z
  /\ derive_window 11025 (timing 20 5 1.4 3) = Ok 3087%Z
  /\ Binary64.derive_stride 3086 (timing 20 5 1.4 3) = Ok 1028%Z
  /\ Binary64.frame_count (timing 25 50 0.4 3) (Z.to_nat 9280) 8000 = Ok 28%Z
  /\ frame_count (timing 25 50 0.4 3) (Z.to_nat 9280) 8000 = Ok 29%Z
  /\ Py.bind (Binary64.position default_config 8000 21 651) Binary64.int = Ok 247%Z
  /\ Py.bind (position default_config 8000 21 651) (fun pos => Ok (Py.int pos))
     = Ok 248%Z.
Proof. repeat split; vm_compute; reflexivity. Qed.

(** C6, as stated: the window would be [round(sample_rate * time / bars)] and
    any derived value below one would make extraction fail.  With the
    defaults at 44100 Hz the quotient is 352.8: the code derives 352, rounding
    gives 353.  With a negative oversampling the stride is [-1] and extraction
    returns normally. *)
Lemma window_is_not_rounded :
  Binary64.derive_window 44100 default_config = Ok 352%Z
  /\ Spec.round (44100 * time default_config / inject_Z (bars default_config)) = 353%Z
  /\ Binary64.derive_window 4 demo_negative = Ok 2%Z
  /\ Binary64.derive_stride 2 demo_negative = Ok (-1)%Z
  /\ envelope (nth 0 demo_wav []) 2 (-1) = Ok [].
Proof.
  split; [vm_compute; reflexivity|]. split; [reflexivity|].
  split; [vm_compute; reflexivity|]. split; [vm_compute; reflexivity|].
  reflexivity.
Qed.

(** C6, amended: the window is [int(sample_rate * time / bars)] and the
    stride [int(window / oversample)], each the quotient of the doubles
    truncated toward zero; whenever the window is below one or the stride is
    zero, extraction raises a [ValueError] before any frame is rendered. *)
Theorem window_stride_truncated
    (c : config) (sr : Q) (audioID : string) (wav : list (list R)) (fs : list png)
    (window stride : Z) :
  (stereo c = true -> length wav = 2%nat) ->
  Binary64.derive_window sr c = Ok window ->
  Binary64.derive_stride window c = Ok stride ->
  (exists q,
     Binary64.exact (Binary64.of_Q sr * Binary64.of_Q (time c)
                     / Binary64.of_int (bars c))%float = Ok q
     /\ truncation q window)
  /\ (exists q,
        Binary64.exact (Binary64.of_int window / Binary64.of_Q (oversample c))%float
        = Ok q
        /\ truncation q stride)
  /\ ((window < 1)%Z \/ stride = 0%Z ->
      exists msg,
        Binary64.visualize audioID (Ok (wav, sr)) c fs = (fs, Raise (ValueError msg))).
Proof.
  intros Hst Hwindow Hstride.
  destruct (bind_ok _ _ _ Hwindow) as (x1 & Hx1 & Hi1).
  destruct (bind_ok _ _ _ Hstride) as (x2 & Hx2 & Hi2).
  split; [|split].
  - destruct (int64_exact x1 window Hi1) as (q & Hq & _ & Ht).
    exists q. apply truediv64_ok in Hx1. subst x1. now split.
  - destruct (int64_exact x2 stride Hi2) as (q & Hq & _ & Ht).
    exists q. apply truediv64_ok in Hx2. subst x2. now split.
  - intros H.
    assert (H' : (window < 0)%Z \/ stride = 0%Z).
    { destruct H as [Hw|Hs]; [|now right].
      destruct (Z.eq_dec window 0) as [E|NE]; [right | left; lia].
      subst window. exact (int64_zero_quotient _ _ _ Hx2 Hi2). }
    destruct (analyse64_raises c sr wav window stride Hst Hwindow Hstride H')
      as (msg & Hmsg).
    exists msg. unfold Binary64.visualize. now rewrite Hmsg.
Qed.

Lemma window_stride_truncated_witness :
  (exists q,
     Binary64.exact (Binary64.of_Q 100 * Binary64.of_Q (time default_config)
                     / Binary64.of_int (bars default_config))%float = Ok q
     /\ truncation q 0)
  /\ exists msg,
       Binary64.visualize "7" (Ok (demo_wav, 100)) default_config []
       = ([], Raise (ValueError msg)).
Proof.
  destruct (window_stride_truncated default_config 100 "7" demo_wav [] 0 0)
    as (Hw & _ & Hraise).
  - discriminate.
  - vm_compute. reflexivity.
  - vm_compute. reflexivity.
  - split; [exact Hw|]. apply Hraise. left. lia.
Defined.

(** ** PipelineDriver *)

Lemma zeros_length (k : nat) : String.length (Py.zeros k) = k.
Proof. induction k as [|k IH]; simpl; congruence. Qed.

Lemma string_length_app (s t : string) :
  String.length (s ++ t) = (String.length s + String.length t)%nat.
Proof. induction s as [|a s IH]; simpl; congruence. Qed.

Lemma format_06d_width (idx : Z) :
  (0 <= idx)%Z ->
  Py.format_06d idx
  = (Py.zeros (6 - String.length (Py.digits idx)) ++ Py.digits idx)%string
  /\ String.length (Py.format_06d idx) = Nat.max 6 (String.length (Py.digits idx)).
Proof.
  intros Hidx. unfold Py.format_06d.
  destruct (Z.ltb_spec idx 0); [lia|].
  split; [reflexivity|].
  rewrite string_length_app, zeros_length. lia.
Qed.

Lemma frame_paths (c : config) (audioID : string) (P : Z -> png -> Prop)
    (idxs : list Z) (new : list png) :
  (forall idx img, P idx img -> path img = frame_path c audioID idx) ->
  Forall2 P idxs new -> map path new = map (frame_path c audioID) idxs.
Proof.
  intros HP H. induction H as [|idx img idxs new Hi _ IH]; simpl; [reflexivity|].
  now rewrite (HP idx img Hi), IH.
Qed.




(** ** FrameRenderer *)

(** C8, as stated: both segments of a bar would have the height
    [snapshot[channel][t] / (2 K)].  For one channel with the single value 1
    the lower segment would end at [0.5 + 0.5]; the image has no such
    stroke, its lower segment ends at [0.5 + 0.9 * 0.5]. *)
Lemma lower_segment_is_shorter :
  exists img,
    draw_env [[1%R]] "frame.png" [(0, 0, 0)%Q] (1, 1, 1)%Q (400, 400)%Z = Ok img
    /\ ~ contains (Spec.bar 1 1 0 (bar_x 1 0) 1 (0, 0, 0)%Q) (calls img)
    /\ contains (Spec.bar 0.9 1 0 (bar_x 1 0) 1 (0, 0, 0)%Q) (calls img).
Proof.
  eexists. split; [reflexivity|]. split.
  - intros (before & after & E). cbn [calls] in E.
    assert (Hin : In (line_to (bar_x 1 0)
                        ((1 + 2 * INR 0) / (2 * INR 1) + 1 * (1 / (2 * INR 1)))%R)
                     (before ++ Spec.bar 1 1 0 (bar_x 1 0) 1 (0, 0, 0)%Q ++ after)).
    { apply in_or_app. right. apply in_or_app. left. simpl. tauto. }
    rewrite <- E in Hin. cbn [In app concat map seq Spec.bar] in Hin.
    repeat match type of Hin with
           | _ \/ _ =>
               destruct Hin as [Hin | Hin];
               [ try discriminate Hin;
                 injection Hin; clear; intros; cbn [length INR] in *; lra | ]
           end.
    exact Hin.
  - cbn [calls]. unfold Spec.bar, bar_x. simpl INR.
    eexists [_; _; _; _; _], []. cbn [app].
    repeat (f_equal; try lra).
Qed.

(** C8, amended: for every channel [i] of [K] and every bar position [t] of
    [T] the renderer draws two connected segments that meet on the channel's
    midline [(1 + 2 i) / (2 K)]: an upper one at full opacity of height
    [snapshot[channel][t] / (2 K)], and a lower one at 80% opacity of 0.9
    times that height. *)
Theorem bars_drawn (envs : list (list R)) (out : string) (fg_colors : list rgb)
    (bg : rgb) (size : Z * Z) (T : nat) :
  (0 < length envs <= length fg_colors)%nat -> (0 < T)%nat ->
  Forall (fun env => length env = T) envs ->
  exists img,
    draw_env envs out fg_colors bg size = Ok img
    /\ path img = out
    /\ forall i t, (i < length envs)%nat -> (t < T)%nat ->
         contains (Spec.bar 0.9 (length envs) i (bar_x T t)
                     (nth t (nth i envs []) 0%R) (nth i fg_colors (0, 0, 0)%Q))
                  (calls img).
Proof.
  intros HK HT Hshape.
  rewrite (draw_env_ok envs fg_colors T HK HT Hshape).
  eexists. split; [reflexivity|]. split; [reflexivity|].
  intros i t Hi Ht. cbn [calls].
  rewrite <- (app_nil_r (concat _)). apply contains_app.
  assert (Hrow := contains_concat
            (fun i => Spec.bar 0.9 (length envs) i (bar_x T t)
                        (nth t (nth i envs []) 0%R) (nth i fg_colors (0, 0, 0)%Q))
            (seq 0 (length envs)) i ltac:(apply in_seq; lia)).
  destruct Hrow as (b1 & a1 & E1).
  destruct (contains_concat
              (fun step => concat (map (fun i =>
                 Spec.bar 0.9 (length envs) i (bar_x T step)
                   (nth step (nth i envs []) 0%R) (nth i fg_colors (0, 0, 0)%Q))
                 (seq 0 (length envs))))
              (seq 0 T) t ltac:(apply in_seq; lia)) as (b2 & a2 & E2).
  cbv beta in E1, E2. rewrite E1 in E2.
  exists (b2 ++ b1), (a1 ++ a2). rewrite E2. now rewrite <- !app_assoc.
Qed.

Lemma bars_drawn_witness :
  exists img,
    draw_env [[1%R]] "frame.png" [(0, 0, 0)%Q] (1, 1, 1)%Q (400, 400)%Z = Ok img
    /\ path img = "frame.png"%string
    /\ forall i t, (i < 1)%nat -> (t < 1)%nat ->
         contains (Spec.bar 0.9 1 i (bar_x 1 t)
                     (nth t (nth i [[1%R]] []) 0%R) (nth i [(0, 0, 0)%Q] (0, 0, 0)%Q))
                  (calls img).
Proof.
  apply (bars_drawn [[1%R]] "frame.png" [(0, 0, 0)%Q] (1, 1, 1)%Q (400, 400)%Z 1).
  - simpl. lia.
  - lia.
  - repeat constructor.
Defined.

(** * Further properties of the code *)

(** ** [envelope]: rectification *)

Section Rectification.
Local Open Scope R_scope.

Lemma slice_map {A B : Type} (f : A -> B) (a : list A) (i j : Z) :
  Py.slice (map f a) i j = map f (Py.slice a i j).
Proof.
  unfold Py.slice. now rewrite length_map, skipn_map, firstn_map.
Qed.

Lemma Rmax_0_idem (x : R) : Rmax (Rmax x 0) 0 = Rmax x 0.
Proof. apply Rmax_left, Rmax_r. Qed.

Lemma pool_rectified (frame : list R) :
  pool (map (fun x => Rmax x 0) frame) = pool frame.
Proof.
  unfold pool, Np.maximum. rewrite map_map. f_equal.
  apply map_ext. intros x. apply Rmax_0_idem.
Qed.

Lemma map_repeat {A B : Type} (f : A -> B) (x : A) (n : nat) :
  map f (repeat x n) = repeat (f x) n.
Proof. induction n as [|n IH]; simpl; congruence. Qed.

(** Negative samples contribute nothing: the envelope of a waveform is
    the envelope of its positive part, for every window and stride (also
    those for which both raise). *)
Theorem envelope_of_positive_part (wav : list R) (window stride : Z) :
  envelope (map (fun x => Rmax x 0) wav) window stride
  = envelope wav window stride.
Proof.
  unfold envelope, Np.pad.
  destruct ((window / 2 <? 0)%Z || (window / 2 <? 0)%Z); [reflexivity|].
  cbn [Py.bind].
  set (z := repeat 0 (Z.to_nat (window / 2))).
  assert (E : z ++ map (fun x => Rmax x 0) wav ++ z
              = map (fun x => Rmax x 0) (z ++ wav ++ z)).
  { rewrite !map_app. unfold z. rewrite map_repeat.
    replace (Rmax 0 0) with 0 by (symmetry; apply Rmax_left; lra).
    reflexivity. }
  rewrite E, length_map.
  destruct (Py.range _ stride) as [offs|e]; [|reflexivity].
  cbn [Py.bind]. do 2 f_equal.
  apply map_ext. intros off. now rewrite slice_map, pool_rectified.
Qed.

Lemma compress_0 : compress 0 = 0.
Proof.
  unfold compress, sigmoid. rewrite Rmult_0_r, Ropp_0, exp_0. lra.
Qed.

Lemma pool_nonpositive (frame : list R) :
  Forall (fun x => x <= 0) frame -> pool frame = 0.
Proof.
  intros H. unfold pool, Np.maximum. apply mean_zeros.
  apply Forall_map. eapply Forall_impl; [|exact H].
  intros x Hx. now apply Rmax_right.
Qed.

(** For a window of one sample at least and a positive stride, a waveform
    without a positive sample, silence included, has an envelope of zeros,
    of the length [envelope] gives any waveform of that size. *)
Theorem envelope_of_nonpositive (wav : list R) (window stride : Z) :
  (1 <= window)%Z -> (0 < stride)%Z -> Forall (fun x => x <= 0) wav ->
  exists e,
    envelope wav window stride = Ok e
    /\ Forall (fun v => v = 0) e
    /\ Z.of_nat (length e)
       = Z.max 0 ((Z.of_nat (length wav) + 2 * (window / 2) - window + stride - 1)
                  / stride)%Z.
Proof.
  intros Hw1 Hs Hneg. assert (Hw : (0 <= window)%Z) by lia.
  eexists. split; [now apply envelope_ok|]. split.
  - apply Forall_map, Forall_map, Forall_forall. intros off _.
    rewrite pool_nonpositive; [apply compress_0|].
    apply slice_Forall. unfold padded.
    repeat (apply Forall_app; split); try exact Hneg;
      apply Forall_forall; intros x Hx; apply repeat_spec in Hx; subst; lra.
  - rewrite !length_map, length_seq, range_length_pos, padded_length by assumption.
    reflexivity.
Qed.

Lemma envelope_of_nonpositive_witness :
  exists e,
    envelope [0; -1; 0; -2]%R 2 1 = Ok e
    /\ Forall (fun v => v = 0) e
    /\ Z.of_nat (length e) = 4%Z.
Proof.
  apply (envelope_of_nonpositive [0; -1; 0; -2]%R 2 1); [lia | lia |].
  repeat constructor; lra.
Defined.

End Rectification.

(** ** [visualize]: independence of the recording level *)

Section Loudness.
Local Open Scope R_scope.

Variable k : R.
Hypothesis Hk : 0 < k.

Let amplify (wav : list R) : list R := map (fun x => k * x) wav.

Lemma sum_amplify (a : list R) : Np.sum (amplify a) = k * Np.sum a.
Proof. induction a as [|x a IH]; simpl; [ring | rewrite IH; ring]. Qed.

Lemma mean_amplify (a : list R) : Np.mean (amplify a) = k * Np.mean a.
Proof.
  unfold Np.mean. unfold amplify at 2. rewrite length_map, sum_amplify.
  unfold Rdiv. ring.
Qed.

Lemma std_amplify (a : list R) : Np.std (amplify a) = k * Np.std a.
Proof.
  unfold Np.std. rewrite mean_amplify. unfold amplify at 1. rewrite map_map.
  replace (map (fun x => (Rabs (k * x - k * Np.mean a))²) a)
    with (amplify (map (fun x => k * (Rabs (x - Np.mean a))²) a)).
  - rewrite mean_amplify.
    replace (map (fun x => k * (Rabs (x - Np.mean a))²) a)
      with (amplify (map (fun x => (Rabs (x - Np.mean a))²) a))
      by (unfold amplify; now rewrite map_map).
    rewrite mean_amplify, <- Rmult_assoc.
    rewrite sqrt_mult_alt by nra.
    replace (k * k) with (k²) by reflexivity.
    rewrite sqrt_Rsqr by lra. reflexivity.
  - unfold amplify. rewrite map_map. apply map_ext. intros x.
    replace (k * x - k * Np.mean a) with (k * (x - Np.mean a)) by ring.
    rewrite Rabs_mult, (Rabs_right k) by lra. unfold Rsqr. ring.
Qed.

Lemma normalize_amplify (wavs : list (list R)) :
  Forall (fun wav => Np.std wav <> 0) wavs ->
  normalize (map amplify wavs) = normalize wavs.
Proof.
  intros H. unfold normalize. rewrite map_map.
  apply map_ext_in. intros wav Hin.
  assert (Hstd := proj1 (Forall_forall _ _) H wav Hin). cbv beta in Hstd.
  rewrite std_amplify. unfold amplify. rewrite map_map.
  apply map_ext. intros x. field. split; lra.
Qed.

Lemma mean_axis0_amplify (wav : list (list R)) :
  Np.mean_axis0 (map amplify wav) = amplify (Np.mean_axis0 wav).
Proof.
  unfold Np.mean_axis0.
  replace (length (hd [] (map amplify wav))) with (length (hd [] wav))
    by (destruct wav; simpl; [reflexivity | unfold amplify; now rewrite length_map]).
  pose proof mean_amplify as Hmean.
  unfold amplify in *. rewrite (map_map _ (fun x => k * x)).
  apply map_ext. intros j.
  rewrite <- Hmean, !map_map.
  f_equal. apply map_ext. intros row.
  replace 0 with (k * 0) at 1 by ring.
  apply (map_nth (fun x => k * x)).
Qed.

Lemma select_channels_amplify (st : bool) (wav : list (list R)) :
  select_channels st (map amplify wav)
  = match select_channels st wav with
    | Ok wavs => Ok (map amplify wavs)
    | Raise e => Raise e
    end.
Proof.
  unfold select_channels. rewrite length_map.
  destruct st.
  - destruct (length wav =? 2)%nat; [|reflexivity].
    cbn [map]. now rewrite !(map_nth amplify wav []).
  - cbn [map]. now rewrite mean_axis0_amplify.
Qed.

(** Amplifying the recording by a positive factor changes nothing: the
    driver writes the same frames and ends the same way, provided no drawn
    channel is constant (each is divided by a non-zero standard deviation). *)
Theorem visualize_ignores_level
    (audioID : string) (wav : list (list R)) (sr : Q) (c : config) (fs : list png) :
  (forall wavs, select_channels (stereo c) wav = Ok wavs ->
                Forall (fun w => Np.std w <> 0) wavs) ->
  visualize audioID (Ok (map (map (fun x => k * x)) wav, sr)) c fs
  = visualize audioID (Ok (wav, sr)) c fs.
Proof.
  intros Hstd. unfold visualize.
  replace (analyse c (map (map (fun x => k * x)) wav) sr) with (analyse c wav sr);
    [reflexivity|].
  unfold analyse. fold amplify. rewrite select_channels_amplify.
  destruct (select_channels (stereo c) wav) as [wavs|e]; [|reflexivity].
  cbn [Py.bind]. now rewrite (normalize_amplify wavs (Hstd wavs eq_refl)).
Qed.

End Loudness.


Lemma visualize_ignores_level_witness :
  visualize "7" (Ok (map (map (fun x => (2 * x)%R)) demo_wav, 4)) demo_config []
  = visualize "7" (Ok (demo_wav, 4)) demo_config [].
Proof.
  apply (visualize_ignores_level 2); [lra|].
  intros wavs [= <-]. constructor; [|constructor].
  intros H0. apply std_zero_constant in H0.
  inversion H0 as [|x l Hx _]. revert Hx.
  unfold Np.mean_axis0, demo_wav. cbn [map seq length hd nth].
  unfold Np.mean, Np.sum. cbn [map fold_right length INR]. lra.
Defined.

(** ** [visualize]: the transition between two windows *)

Section Transition.
Local Open Scope R_scope.

Lemma sigmoid_0 : sigmoid 0 = 0.5.
Proof. unfold sigmoid. rewrite Ropp_0, exp_0. lra. Qed.

Lemma sigmoid_opp (x : R) : sigmoid (- x) = 1 - sigmoid x.
Proof.
  unfold sigmoid. rewrite Ropp_involutive.
  pose proof (exp_pos x) as Hp. pose proof (exp_pos (- x)) as Hn.
  assert (E : exp x * exp (- x) = 1) by (rewrite <- exp_plus, Rplus_opp_r; apply exp_0).
  apply (Rmult_eq_reg_r ((1 + exp x) * (1 + exp (- x)))); [|nra].
  field_simplify; [|lra|lra]. nra.
Qed.

(** The blend weight of line 222, as a function of the position [loc]
    between two windows, for a non-negative speed [s = speed * speedup]: it
    stays between 0 and 1, never decreases, is one half exactly at
    [loc = 0.5] and is symmetric about that point. *)
Theorem weight_profile (s : R) :
  0 <= s ->
  (forall loc, 0 <= sigmoid (s * (loc - 0.5)) <= 1)
  /\ (forall loc1 loc2, loc1 <= loc2 ->
        sigmoid (s * (loc1 - 0.5)) <= sigmoid (s * (loc2 - 0.5)))
  /\ sigmoid (s * (0.5 - 0.5)) = 0.5
  /\ (forall loc, sigmoid (s * (loc - 0.5)) + sigmoid (s * ((1 - loc) - 0.5)) = 1).
Proof.
  intros Hs. split; [|split; [|split]].
  - intros loc. pose proof (sigmoid_range (s * (loc - 0.5))). lra.
  - intros loc1 loc2 Hl. apply sigmoid_monotone. nra.
  - replace (s * (0.5 - 0.5)) with 0 by lra. apply sigmoid_0.
  - intros loc. replace (s * (1 - loc - 0.5)) with (- (s * (loc - 0.5))) by lra.
    rewrite sigmoid_opp. lra.
Qed.

Lemma weight_profile_witness :
  sigmoid (4 * (0.5 - 0.5)) = 0.5
  /\ sigmoid (4 * (0.25 - 0.5)) <= sigmoid (4 * (0.75 - 0.5)).
Proof.
  destruct (weight_profile 4) as (_ & Hmono & Hmid & _); [lra|].
  split; [exact Hmid | apply Hmono; lra].
Defined.

Lemma ln_10_pos : 0 < ln 10.
Proof. rewrite <- ln_1. apply ln_increasing; lra. Qed.

(** The factor applied to the base speed (lines 220-221) lies between 0.5
    and 2 for every loudness; for a window of envelope values, which are below
    0.95, it stays strictly below 2, and for a silent window it is 0.5. *)
Theorem speedup_range :
  (forall maxvol, 0.5 <= Np.clip (interpole (-6) 0.5 0 2 maxvol) 0.5 2 <= 2)
  /\ (forall env2, env2 <> [] -> Forall (fun v => 0 <= v < 0.95) env2 ->
        exists m l,
          Np.max env2 = Ok m /\ Np.log10 (1e-4 + m) = Ok l
          /\ 0.5 <= Np.clip (interpole (-6) 0.5 0 2 (l * 10)) 0.5 2 < 2)
  /\ (forall env2, env2 <> [] -> Forall (fun v => v = 0) env2 ->
        exists m l,
          Np.max env2 = Ok m /\ Np.log10 (1e-4 + m) = Ok l
          /\ Np.clip (interpole (-6) 0.5 0 2 (l * 10)) 0.5 2 = 0.5).
Proof.
  assert (Hclip : forall maxvol,
            0.5 <= Np.clip (interpole (-6) 0.5 0 2 maxvol) 0.5 2 <= 2).
  { intros maxvol. rewrite clip_interpole. unfold Spec.speedup.
    destruct (Rle_dec maxvol (-6)); [lra|].
    destruct (Rle_dec 0 maxvol); lra. }
  split; [exact Hclip|]. split.
  - intros env2 Hne Hall.
    exists (Spec.maximum env2), (ln (1e-4 + Spec.maximum env2) / ln 10).
    pose proof (maximum_bounds _ env2 Hne Hall) as Hm. cbv beta in Hm.
    split; [now apply max_maximum|].
    unfold Np.log10.
    destruct (Rlt_dec 0 (1e-4 + Spec.maximum env2)) as [Hpos|]; [|lra].
    split; [reflexivity|].
    split; [apply Hclip|].
    assert (Hln : ln (1e-4 + Spec.maximum env2) < 0)
      by (rewrite <- ln_1; apply ln_increasing; lra).
    pose proof ln_10_pos as H10.
    assert (Hl : ln (1e-4 + Spec.maximum env2) / ln 10 * 10 < 0).
    { assert (ln (1e-4 + Spec.maximum env2) / ln 10 < 0); [|lra].
      apply (Rmult_lt_reg_r (ln 10)); [exact H10|].
      unfold Rdiv. rewrite Rmult_assoc, Rinv_l by lra. lra. }
    rewrite clip_interpole. unfold Spec.speedup.
    destruct (Rle_dec _ (-6)); [lra|].
    destruct (Rle_dec 0 _); lra.
  - intros env2 Hne Hall.
    exists (Spec.maximum env2), (ln (1e-4 + Spec.maximum env2) / ln 10).
    pose proof (maximum_bounds _ env2 Hne Hall) as Hm. cbv beta in Hm.
    split; [now apply max_maximum|].
    rewrite Hm, Rplus_0_r. unfold Np.log10.
    destruct (Rlt_dec 0 1e-4) as [_|]; [|lra].
    split; [reflexivity|].
    assert (E : ln 1e-4 = - (4 * ln 10)).
    { replace 1e-4 with (/ (10 ^ 4)) by lra.
      rewrite ln_Rinv by lra. rewrite ln_pow by lra. simpl INR. lra. }
    rewrite E. pose proof ln_10_pos as H10.
    replace (- (4 * ln 10) / ln 10 * 10) with (-40) by (field; lra).
    rewrite clip_interpole. unfold Spec.speedup.
    destruct (Rle_dec (-40) (-6)); lra.
Qed.

Lemma speedup_range_witness :
  exists m l,
    Np.max [0; 0] = Ok m /\ Np.log10 (1e-4 + m) = Ok l
    /\ Np.clip (interpole (-6) 0.5 0 2 (l * 10)) 0.5 2 = 0.5.
Proof.
  destruct speedup_range as (_ & _ & Hsilent).
  apply (Hsilent [0; 0]); [discriminate | repeat constructor].
Defined.

End Transition.

(** ** [visualize]: the values of a frame *)

Section FrameValues.
Local Open Scope R_scope.

Lemma hann_bounds (M : Z) (n : nat) : 0 <= Spec.hann M n <= 1.
Proof.
  unfold Spec.hann. destruct (M =? 1)%Z; [lra|].
  pose proof (COS_bound (2 * PI * INR n / IZR (M - 1))). lra.
Qed.

Lemma hann_first (M : Z) : (2 <= M)%Z -> Spec.hann M 0 = 0.
Proof.
  intros HM. unfold Spec.hann. destruct (Z.eqb_spec M 1); [lia|].
  simpl INR. unfold Rdiv. rewrite Rmult_0_r, Rmult_0_l, cos_0. lra.
Qed.

Lemma hann_last (M : Z) : (2 <= M)%Z -> Spec.hann M (Z.to_nat M - 1) = 0.
Proof.
  intros HM. unfold Spec.hann. destruct (Z.eqb_spec M 1); [lia|].
  replace (INR (Z.to_nat M - 1)) with (IZR (M - 1)).
  - replace (2 * PI * IZR (M - 1) / IZR (M - 1)) with (2 * PI).
    + rewrite cos_2PI. lra.
    + field. apply not_0_IZR. lia.
  - rewrite INR_IZR_INZ. f_equal. lia.
Qed.

Lemma nth_bounds (P : R -> Prop) (a : list R) (n : nat) :
  P 0 -> Forall P a -> P (nth n a 0).
Proof.
  intros H0 Ha. destruct (Nat.lt_ge_cases n (length a)) as [Hlt|Hge].
  - apply (proj1 (Forall_forall _ _) Ha), nth_In, Hlt.
  - now rewrite nth_overflow.
Qed.

Lemma window_Forall (P : R -> Prop) (env : list R) (bars off k : Z) :
  Forall P env -> Forall P (Spec.window env bars off k).
Proof. intros H. unfold Spec.window. now apply Forall_firstn, Forall_skipn. Qed.

(** A blend of two windows of envelope values is again made of values of
    the range of the envelope. *)
Lemma blended_bounds (s l : R) (bars : Z) (w1 w2 : list R) :
  Forall (fun v => 0 <= v < 0.95) w1 -> Forall (fun v => 0 <= v < 0.95) w2 ->
  Forall (fun v => 0 <= v < 0.95) (Spec.blended s l bars w1 w2).
Proof.
  intros H1 H2. unfold Spec.blended. apply Forall_map, Forall_forall. intros n _.
  set (w := Spec.weight s l w2).
  assert (Hw : 0 < w < 1)
    by (unfold w, Spec.weight; rewrite <- sigmoid_logistic; apply sigmoid_range).
  pose proof (hann_bounds bars n) as Hh.
  pose proof (nth_bounds (fun v => 0 <= v < 0.95) w1 n ltac:(lra) H1) as Ha.
  pose proof (nth_bounds (fun v => 0 <= v < 0.95) w2 n ltac:(lra) H2) as Hb.
  cbv beta in Ha, Hb.
  set (a := nth n w1 0) in *. set (b := nth n w2 0) in *.
  set (h := Spec.hann bars n) in *.
  assert (Hmix : 0 <= (1 - w) * a + w * b < 0.95) by nra.
  split; nra.
Qed.

Variables (c : config) (sr : Q).
Hypothesis Hvalid : valid c sr.

(** The blends of one frame, in the terms of the specification. *)
Lemma blends_of_frame (n : nat) (envs : list (list R)) (idx : Z) :
  Forall (env_ok c sr n) envs -> (0 <= idx < frames_of c n sr)%Z ->
  let pos := pos_of c sr idx in
  Py.for_ envs
    (blend c (Np.hanning (bars c)) (Py.int pos) (pos - inject_Z (Py.int pos))) []
  = Ok (map (fun env =>
          Spec.blended (Q2R (speed c)) (Q2R (Spec.loc pos)) (bars c)
            (Spec.window env (bars c) (Spec.off pos) 0)
            (Spec.window env (bars c) (Spec.off pos) 1)) envs).
Proof.
  intros Hok Hidx pos.
  erewrite for_append_map; [reflexivity|]. intros env s Hin.
  apply (blend_spec c sr Hvalid n env s idx); [|exact Hidx].
  exact (proj1 (Forall_forall _ _) Hok env Hin).
Qed.

End FrameValues.

Section FrameShapes.
Local Open Scope R_scope.

Lemma Q2R_half (q : Q) : (q == 1 # 2)%Q -> Q2R q = 0.5.
Proof. intros E. rewrite (RMicromega.Q2R_m _ _ E). unfold Q2R. simpl. lra. Qed.



End FrameShapes.

(** ** [draw_env]: geometry *)

Section Geometry.
Local Open Scope R_scope.

Lemma Forall_concat {A : Type} (P : A -> Prop) (ls : list (list A)) :
  Forall (Forall P) ls -> Forall P (concat ls).
Proof.
  induction 1 as [|l ls Hl _ IH]; simpl; [constructor|].
  apply Forall_app. now split.
Qed.

Lemma bar_x_inside (T t : nat) : (t < T)%nat -> 0 < bar_x T t < 1.
Proof.
  intros Ht. unfold bar_x.
  assert (HT : 1 <= INR T) by (replace 1 with (INR 1) by reflexivity; apply le_INR; lia).
  assert (Htt : INR t + 1 <= INR T).
  { replace (INR t + 1) with (INR (S t)) by (rewrite S_INR; ring).
    apply le_INR. lia. }
  pose proof (pos_INR t) as Ht0.
  set (w := 1 / (INR T * (1 + 2 * 0.1))).
  assert (Hw : w * (INR T * (1 + 2 * 0.1)) = 1).
  { unfold w, Rdiv. rewrite Rmult_1_l. apply Rinv_l. nra. }
  assert (Hw0 : 0 < w) by (unfold w; apply Rdiv_lt_0_compat; nra).
  split; nra.
Qed.

(** The points of one bar: on the surface, inside the band of the channel. *)
Lemma bar_in_band (K i : nat) (x v : R) (color : rgb) :
  (i < K)%nat -> 0 < x < 1 -> 0 <= v <= 1 ->
  Forall (fun call =>
            Forall (fun p => in_unit_square p
                             /\ INR i / INR K <= snd p <= (INR i + 1) / INR K)
                   (points call))
         (Spec.bar 0.9 K i x v color).
Proof.
  intros Hi Hx Hv.
  assert (HK : 1 <= INR K) by (replace 1 with (INR 1) by reflexivity; apply le_INR; lia).
  assert (HiK : INR i + 1 <= INR K).
  { replace (INR i + 1) with (INR (S i)) by (rewrite S_INR; ring).
    apply le_INR. lia. }
  pose proof (pos_INR i) as Hi0.
  set (k := / INR K).
  assert (Hk : INR K * k = 1) by (unfold k; apply Rinv_r; lra).
  assert (Hk0 : 0 < k) by (unfold k; apply Rinv_0_lt_compat; lra).
  set (a := INR i * k). set (b := v * k).
  assert (Ha0 : 0 <= a) by (apply Rmult_le_pos; lra).
  assert (Hak : a + k <= 1).
  { replace (a + k) with ((INR i + 1) * k) by (unfold a; ring).
    rewrite <- Hk. apply Rmult_le_compat_r; lra. }
  assert (Hb0 : 0 <= b) by (apply Rmult_le_pos; lra).
  assert (Hbk : b <= k).
  { assert (v * k <= 1 * k) by (apply Rmult_le_compat_r; lra). unfold b. lra. }
  assert (Emid : (1 + 2 * INR i) / (2 * INR K) = 0.5 * k + a)
    by (unfold a, k, Rdiv; rewrite Rinv_mult; lra).
  assert (Eh : v / (2 * INR K) = 0.5 * b)
    by (unfold b, k, Rdiv; rewrite Rinv_mult; lra).
  assert (Elo : INR i / INR K = a) by reflexivity.
  assert (Ehi : (INR i + 1) / INR K = a + k) by (unfold a, k, Rdiv; ring).
  unfold Spec.bar. rewrite Emid, Eh, Elo, Ehi.
  clearbody a b k. clear - Hx Hk0 Ha0 Hak Hb0 Hbk.
  repeat (apply Forall_cons; [cbn [points] |]); try apply Forall_nil;
    repeat (apply Forall_cons || apply Forall_nil);
    unfold in_unit_square; cbn [fst snd]; lra.
Qed.

Variables (envs : list (list R)) (fg_colors : list rgb) (T : nat).
Hypothesis Hchannels : (0 < length envs <= length fg_colors)%nat.
Hypothesis Hsteps : (0 < T)%nat.
Hypothesis Hshape : Forall (fun env => length env = T) envs.
Hypothesis Hvalues : Forall (Forall (fun v => 0 <= v <= 1)) envs.

Lemma value_in_range (i t : nat) : 0 <= nth t (nth i envs []) 0 <= 1.
Proof.
  apply (nth_bounds (fun v => 0 <= v <= 1)); [lra|].
  destruct (Nat.lt_ge_cases i (length envs)) as [Hlt|Hge].
  - apply (proj1 (Forall_forall _ _) Hvalues), nth_In, Hlt.
  - rewrite nth_overflow by exact Hge. constructor.
Qed.

Lemma draw_env_inside (out : string) (bg : rgb) (size : Z * Z) :
  exists img, draw_env envs out fg_colors bg size = Ok img
              /\ path img = out /\ size_px img = size /\ inside img.
Proof.
  rewrite (draw_env_ok envs fg_colors T Hchannels Hsteps Hshape).
  eexists. split; [reflexivity|]. split; [reflexivity|]. split; [reflexivity|].
  unfold inside. cbn [calls]. apply Forall_app. split.
  - repeat (apply Forall_cons; [cbn [points] |]); try apply Forall_nil;
      repeat (apply Forall_cons || apply Forall_nil);
      unfold in_unit_square; cbn [fst snd]; lra.
  - apply Forall_concat, Forall_map, Forall_forall. intros t Ht.
    apply in_seq in Ht.
    apply Forall_concat, Forall_map, Forall_forall. intros i Hi.
    apply in_seq in Hi.
    eapply Forall_impl;
      [| apply (bar_in_band (length envs) i (bar_x T t)
                  (nth t (nth i envs []) 0) (nth i fg_colors (0, 0, 0)%Q));
         [lia | apply bar_x_inside; lia | apply value_in_range] ].
    intros call Hcall. eapply Forall_impl; [|exact Hcall].
    now intros p [Hp _].
Qed.

End Geometry.

(** Values between 0 and 1 are drawn on the surface, every channel inside
    its own band: all points of the image lie in the unit square, and the
    strokes of channel [i] of [K] keep between the heights [i / K] and
    [(i + 1) / K], so that stacked channels never overlap. *)
Theorem bars_stay_inside (envs : list (list R)) (out : string)
    (fg_colors : list rgb) (bg : rgb) (size : Z * Z) (T : nat) :
  (0 < length envs <= length fg_colors)%nat -> (0 < T)%nat ->
  Forall (fun env => length env = T) envs ->
  Forall (Forall (fun v => (0 <= v <= 1)%R)) envs ->
  (exists img, draw_env envs out fg_colors bg size = Ok img /\ inside img)
  /\ forall (pad delta : R) (t i : nat) (ctx : list cairo),
       (t < T)%nat -> (i < length envs)%nat ->
       (0 < pad + INR t * delta < 1)%R ->
       exists block,
         draw_bar envs fg_colors (length envs) pad delta t i ctx = Ok (ctx ++ block)
         /\ Forall (fun call =>
                      Forall (fun p => (INR i / INR (length envs) <= snd p
                                        <= (INR i + 1) / INR (length envs))%R)
                             (points call)) block.
Proof.
  intros HK HT Hshape Hvalues. split.
  - destruct (draw_env_inside envs fg_colors T HK HT Hshape Hvalues out bg size)
      as (img & Himg & _ & _ & Hin).
    now exists img.
  - intros pad delta t i ctx Ht Hi Hx.
    unfold draw_bar.
    rewrite (index_ok envs i []) by exact Hi. cbn [Py.bind].
    assert (Hlen : length (nth i envs []) = T).
    { apply (proj1 (Forall_forall _ _) Hshape), nth_In, Hi. }
    rewrite (index_ok _ t 0%R) by lia. cbn [Py.bind].
    rewrite (index_ok fg_colors i (0, 0, 0)%Q) by lia. cbn [Py.bind].
    eexists. split; [reflexivity|].
    pose proof (bar_in_band (length envs) i (pad + INR t * delta)
                  (nth t (nth i envs []) 0%R) (nth i fg_colors (0, 0, 0)%Q)
                  Hi Hx (value_in_range envs Hvalues i t)) as Hband.
    unfold Spec.bar in Hband.
    replace (0.5 * nth t (nth i envs []) 0 / INR (length envs))%R
      with (nth t (nth i envs []) 0 / (2 * INR (length envs)))%R
      by (unfold Rdiv; rewrite Rinv_mult; lra).
    eapply Forall_impl; [|exact Hband].
    intros call Hcall. eapply Forall_impl; [|exact Hcall].
    now intros p [_ Hp].
Qed.

Lemma bars_stay_inside_witness :
  exists img,
    draw_env [[1%R]; [0.5%R]] "frame.png" [(0, 0, 0)%Q; (1, 0, 0)%Q] (1, 1, 1)%Q
             (400, 400)%Z = Ok img
    /\ inside img.
Proof.
  apply (bars_stay_inside [[1%R]; [0.5%R]] "frame.png" [(0, 0, 0)%Q; (1, 0, 0)%Q]
           (1, 1, 1)%Q (400, 400)%Z 1).
  - simpl. lia.
  - lia.
  - repeat constructor.
  - repeat (apply Forall_cons || apply Forall_nil); lra.
Defined.

(** ** [visualize]: what every frame looks like *)

Section Frames.
Local Open Scope R_scope.

Lemma blended_ends (bars : Z) (s l : R) (w1 w2 : list R) :
  (2 <= bars)%Z ->
  nth 0 (Spec.blended s l bars w1 w2) 0 = 0
  /\ nth (Z.to_nat bars - 1) (Spec.blended s l bars w1 w2) 0 = 0.
Proof.
  intros Hb. unfold Spec.blended.
  rewrite !nth_map_seq by lia.
  rewrite hann_first, hann_last by exact Hb. split; ring.
Qed.

Lemma range1_In (m idx : Z) : (0 <= idx < m)%Z -> In idx (Py.range1 m).
Proof.
  intros H. unfold Py.range1. apply in_map_iff. exists (Z.to_nat idx).
  split; [lia|]. apply in_seq. lia.
Qed.

Lemma Forall2_right {A B : Type} (P : A -> B -> Prop) (Q : B -> Prop)
    (l : list A) (l' : list B) :
  (forall x y, P x y -> Q y) -> Forall2 P l l' -> Forall Q l'.
Proof. intros HPQ H. induction H; constructor; eauto. Qed.

Variables (c : config) (sr : Q) (wav : list (list R)) (window stride frames : Z).
Hypothesis Hclip : clip_ok c sr wav window stride frames.

(** The blends of every frame of the clip. *)
Lemma blends_of_clip :
  exists envs,
    Binary64.analyse c wav sr
    = Ok (mkanalysis stride envs frames (Np.hanning (bars c)))
    /\ (0 < length envs <= 2)%nat
    /\ Forall (Forall (fun v => 0 <= v < 0.95)) envs
    /\ forall idx, (0 <= idx < frames)%Z ->
       exists x pos,
         Binary64.position c sr stride idx = Ok x
         /\ Binary64.exact x = Ok pos
         /\ Py.for_ envs
              (blend c (Np.hanning (bars c)) (Py.int pos) (pos - inject_Z (Py.int pos)))
              []
            = Ok (map (fun env =>
                    Spec.blended (Q2R (speed c)) (Q2R (Spec.loc pos)) (bars c)
                      (Spec.window env (bars c) (Spec.off pos) 0)
                      (Spec.window env (bars c) (Spec.off pos) 1)) envs).
Proof.
  destruct Hclip as [_ Hb Hst Hrect _ Hwindow Hw Hstride Hs Hframes Hfit].
  destruct (analyse64_ok c sr window stride frames Hb Hwindow Hstride
              ltac:(lia) Hs wav Hst Hrect Hframes)
    as (wavs & envs & _ & Ha & Hlen & _ & Hok).
  exists envs. split; [exact Ha|].
  split; [rewrite Hlen; destruct (stereo c); lia|].
  split; [eapply Forall_impl; [|exact Hok]; now intros env [_ Hv]|].
  intros idx Hidx.
  unfold Binary64.windows_fit in Hfit.
  pose proof (proj1 (forallb_forall _ _) Hfit idx (range1_In _ _ Hidx)) as Hi.
  destruct (window_fits_ok _ _ _ _ _ Hi) as (x & pos & Hx & Hpos & H0 & Hin).
  exists x, pos. split; [exact Hx|]. split; [exact Hpos|].
  erewrite for_append_map; [reflexivity|]. intros env denvs He.
  destruct (proj1 (Forall_forall _ _) Hok env He) as [Hl Hv].
  apply blend_at; [exact Hb | exact H0 | |].
  - unfold Spec.off in Hin. now rewrite Hl.
  - eapply Forall_impl; [|exact Hv]. intros v Hv'. cbv beta in Hv'. lra.
Qed.

(** The blends of a frame are drawn on the surface. *)
Lemma blends_inside (envs : list (list R)) (s l : R) (off : Z) (out : string)
    (img : png) :
  (0 < length envs <= 2)%nat ->
  Forall (Forall (fun v => 0 <= v < 0.95)) envs ->
  draw_env
    (map (fun env =>
            Spec.blended s l (bars c) (Spec.window env (bars c) off 0)
              (Spec.window env (bars c) off 1)) envs)
    out [fg_color c; fg_color2 c] (bg_color c) (size c)
  = Ok img ->
  inside img /\ size_px img = size c.
Proof.
  intros Hlen Hok Hd.
  pose proof (clip_bars _ _ _ _ _ _ Hclip) as Hb.
  edestruct draw_env_inside as (img' & Himg & _ & Hsize & Hin);
    [| | | | rewrite Himg in Hd; injection Hd as <-; split; [exact Hin | exact Hsize] ].
  - rewrite length_map. simpl. lia.
  - instantiate (1 := Z.to_nat (bars c)). lia.
  - apply Forall_map, Forall_forall. intros env _. apply blended_length.
  - apply Forall_map, Forall_forall. intros env He.
    pose proof (proj1 (Forall_forall _ _) Hok env He) as Hv.
    eapply Forall_impl; [|apply blended_bounds; apply window_Forall; exact Hv].
    intros v Hv'. cbv beta in Hv'. lra.
Qed.

End Frames.

(** Every frame the driver writes for a clip it renders has the configured
    pixel size and is drawn entirely on its surface: all points handed to
    cairo lie in the unit square. *)
Theorem frames_on_surface
    (c : config) (sr : Q) (audioID : string) (wav : list (list R)) (fs : list png)
    (window stride frames : Z) :
  clip_ok c sr wav window stride frames ->
  exists new,
    Binary64.visualize audioID (Ok (wav, sr)) c fs = (fs ++ new, Ok tt)
    /\ length new = Z.to_nat frames
    /\ Forall (fun img => inside img /\ size_px img = size c) new.
Proof.
  intros Hclip.
  destruct (visualize64_ok c sr window stride frames
              (clip_bars _ _ _ _ _ _ Hclip) (clip_window _ _ _ _ _ _ Hclip)
              (clip_stride _ _ _ _ _ _ Hclip)
              ltac:(pose proof (clip_window_pos _ _ _ _ _ _ Hclip); lia)
              (clip_stride_pos _ _ _ _ _ _ Hclip) audioID wav fs
              (clip_channels _ _ _ _ _ _ Hclip) (clip_rows _ _ _ _ _ _ Hclip)
              (clip_frames _ _ _ _ _ _ Hclip) (clip_fits _ _ _ _ _ _ Hclip))
    as (envs & new & _ & Hlen & Hok & Hv & Hall).
  exists new. split; [exact Hv|]. split.
  - rewrite <- (Forall2_length Hall). unfold Py.range1.
    now rewrite length_map, length_seq.
  - eapply Forall2_right; [|exact Hall].
    intros idx img (x & pos & _ & _ & _ & Hd). cbv beta.
    eapply (blends_inside c sr wav window stride frames Hclip envs);
      [exact Hlen | | exact Hd].
    eapply Forall_impl; [|exact Hok]. now intros env [_ Hval].
Qed.

Lemma demo_clip_ok : clip_ok demo_four 16 demo_clip 4 2 16.
Proof.
  constructor.
  - unfold renderable. simpl. lia.
  - simpl. lia.
  - discriminate.
  - repeat constructor.
  - intros wavs [= <-]. constructor; [|constructor].
    apply (std_nonzero _ 0 1); [simpl; lia | simpl; lia |].
    unfold Np.mean_axis0, demo_clip. cbn [map seq length hd nth].
    unfold Np.mean, Np.sum. cbn [map fold_right length INR]. lra.
  - vm_compute. reflexivity.
  - lia.
  - vm_compute. reflexivity.
  - lia.
  - vm_compute. reflexivity.
  - vm_compute. reflexivity.
Qed.

Lemma frames_on_surface_witness :
  exists new,
    Binary64.visualize "7" (Ok (demo_clip, 16)) demo_four [] = ([] ++ new, Ok tt)
    /\ length new = 16%nat
    /\ Forall (fun img => inside img /\ size_px img = (400, 400)%Z) new.
Proof.
  apply (frames_on_surface demo_four 16 "7" demo_clip [] 4 2 16 demo_clip_ok).
Defined.



(** ** [read_audio]: from the interleaved buffer to channels *)

Section Decoding.

Lemma firstn_plus {A : Type} (n m : nat) (l : list A) :
  firstn (n + m) l = firstn n l ++ firstn m (skipn n l).
Proof.
  revert l. induction n as [|n IH]; intros [|x l]; simpl;
    try reflexivity; [now rewrite firstn_nil | now rewrite IH].
Qed.

Lemma rows_concat (a : list R) (cols rows : nat) :
  concat (map (fun i => firstn cols (skipn (i * cols) a)) (seq 0 rows))
  = firstn (rows * cols) a.
Proof.
  induction rows as [|rows IH]; [reflexivity|].
  rewrite seq_S, map_app, concat_app, IH. simpl.
  rewrite app_nil_r, (Nat.add_comm cols). symmetry. apply firstn_plus.
Qed.

Lemma divides_nat (len : nat) (cols : Z) :
  (0 < cols)%Z -> (Z.of_nat len mod cols = 0)%Z ->
  len = (len / Z.to_nat cols * Z.to_nat cols)%nat.
Proof.
  intros Hc Hmod. rewrite Nat.mul_comm. apply Nat.Div0.div_exact.
  apply Nat2Z.inj. rewrite Nat2Z.inj_mod, Z2Nat.id by lia. exact Hmod.
Qed.

Lemma reshape_ok (a : list R) (cols : Z) :
  (0 < cols)%Z -> (Z.of_nat (length a) mod cols = 0)%Z ->
  exists rows,
    Audio.reshape a cols = Ok rows
    /\ length rows = (length a / Z.to_nat cols)%nat
    /\ Forall (fun row => length row = Z.to_nat cols) rows
    /\ concat rows = a
    /\ forall i j, (i < length a / Z.to_nat cols)%nat -> (j < Z.to_nat cols)%nat ->
         nth j (nth i rows []) 0%R = nth (i * Z.to_nat cols + j) a 0%R.
Proof.
  intros Hc Hmod. unfold Audio.reshape.
  destruct (Z.leb_spec cols 0); [lia|]. rewrite Hmod. cbn [Z.eqb].
  pose proof (divides_nat (length a) cols Hc Hmod) as Hlen.
  set (c := Z.to_nat cols) in *. set (r := (length a / c)%nat) in *.
  assert (Hc0 : (0 < c)%nat) by (unfold c; lia).
  eexists. split; [reflexivity|]. split; [now rewrite length_map, length_seq|].
  split; [|split].
  - apply Forall_map, Forall_forall. intros i Hi. apply in_seq in Hi.
    rewrite length_firstn, length_skipn. apply Nat.min_l.
    clearbody r c. destruct Hi as [_ Hi]. simpl in Hi.
    rewrite Hlen. clear - Hi. nia.
  - rewrite rows_concat, <- Hlen. apply firstn_all.
  - intros i j Hi Hj.
    rewrite (nth_indep _ [] (firstn c (skipn (0 * c) a)))
      by now rewrite length_map, length_seq.
    rewrite (map_nth (fun i => firstn c (skipn (i * c) a))), seq_nth by exact Hi.
    rewrite nth_firstn. destruct (Nat.ltb_spec j c); [|lia].
    now rewrite nth_skipn.
Qed.

Lemma read_audio_shape (audio : string) (s : Audio.stream) (wav : list R) :
  Audio.codec_type s = "audio"%string ->
  (0 < Audio.channels s)%Z ->
  (Z.of_nat (length wav) mod Audio.channels s = 0)%Z ->
  exists m,
    Audio.read_audio audio (Ok s) (Ok wav) = Ok (m, Audio.sample_rate s)
    /\ length m = Z.to_nat (Audio.channels s)
    /\ rectangular m
    /\ Forall (fun row => length row
                          = (length wav / Z.to_nat (Audio.channels s))%nat) m
    /\ forall ch j, (ch < Z.to_nat (Audio.channels s))%nat ->
         (j < length wav / Z.to_nat (Audio.channels s))%nat ->
         nth j (nth ch m []) 0%R
         = nth (j * Z.to_nat (Audio.channels s) + ch) wav 0%R.
Proof.
  intros Hcodec Hc Hmod. unfold Audio.read_audio. cbn [Py.bind].
  set (nch := Z.to_nat (Audio.channels s)).
  rewrite Hcodec.
  change ("audio" =? "audio")%string with true. cbn iota.
  destruct (reshape_ok wav (Audio.channels s) Hc Hmod)
    as (rows & -> & Hrows & Hcols & _ & Hnth).
  cbn [Py.bind]. fold nch in Hrows, Hcols, Hnth |- *.
  eexists. split; [reflexivity|].
  assert (Hrowlen : forall ch, length (map (fun row => nth ch row 0%R) rows)
                               = (length wav / nch)%nat)
    by (intros; now rewrite length_map).
  assert (Hall : Forall (fun row => length row = (length wav / nch)%nat)
                   (Audio.transpose nch rows)).
  { apply Forall_map, Forall_forall. intros ch _. apply Hrowlen. }
  split; [unfold Audio.transpose; now rewrite length_map, length_seq|].
  split; [|split; [exact Hall|]].
  - unfold rectangular.
    assert (Hhd : length (hd [] (Audio.transpose nch rows))
                  = (length wav / nch)%nat).
    { assert (Hn0 : (0 < nch)%nat) by (unfold nch; lia).
      unfold Audio.transpose. clear - Hn0 Hrowlen. clearbody nch.
      destruct nch as [|k]; [lia|]. simpl. apply Hrowlen. }
    rewrite Hhd. exact Hall.
  - intros ch j Hch Hj. unfold Audio.transpose.
    rewrite (nth_indep _ [] (map (fun row => nth 0%nat row 0%R) rows))
      by now rewrite length_map, length_seq.
    rewrite (map_nth (fun j => map (fun row => nth j row 0%R) rows)),
      seq_nth by exact Hch.
    rewrite (nth_indep _ 0%R (nth (0 + ch) [] 0%R))
      by (rewrite length_map; lia).
    rewrite (map_nth (fun row => nth (0 + ch) row 0%R)).
    now apply Hnth.
Qed.

(** [read_audio] on a decodable audio stream: the buffer of interleaved
    samples becomes one row per channel, all of the same length, sample [j]
    of channel [ch] being entry [j * channels + ch] of the buffer; a channel
    count that is not positive or does not divide the buffer raises a
    [ValueError], as does a first stream that is not audio, whatever the
    decoder would return. *)
Theorem read_audio_deinterleaves (audio : string) (s : Audio.stream) (wav : list R) :
  let nch := Z.to_nat (Audio.channels s) in
  (Audio.codec_type s <> "audio"%string ->
   forall decoded,
     Audio.read_audio audio (Ok s) decoded
     = Raise (ValueError (audio ++ " should contain only audio.")))
  /\ (Audio.codec_type s = "audio"%string ->
      (Audio.channels s <= 0)%Z
      \/ (Z.of_nat (length wav) mod Audio.channels s <> 0)%Z ->
      exists msg, Audio.read_audio audio (Ok s) (Ok wav) = Raise (ValueError msg))
  /\ (Audio.codec_type s = "audio"%string ->
      (0 < Audio.channels s)%Z ->
      (Z.of_nat (length wav) mod Audio.channels s = 0)%Z ->
      exists m,
        Audio.read_audio audio (Ok s) (Ok wav) = Ok (m, Audio.sample_rate s)
        /\ length m = nch
        /\ rectangular m
        /\ Forall (fun row => length row = (length wav / nch)%nat) m
        /\ forall ch j, (ch < nch)%nat -> (j < length wav / nch)%nat ->
             nth j (nth ch m []) 0%R = nth (j * nch + ch) wav 0%R).
Proof.
  intros nch.
  split; [|split].
  - intros Hcodec decoded. unfold Audio.read_audio. cbn [Py.bind].
    apply String.eqb_neq in Hcodec. now rewrite Hcodec.
  - intros Hcodec Hbad. unfold Audio.read_audio. cbn [Py.bind]. rewrite Hcodec.
    change ("audio" =? "audio")%string with true. cbn iota.
    unfold Audio.reshape.
    destruct (Z.leb_spec (Audio.channels s) 0); [eexists; reflexivity|].
    destruct (Z.eqb_spec (Z.of_nat (length wav) mod Audio.channels s) 0);
      [|eexists; reflexivity].
    destruct Hbad; [lia | contradiction].
  - apply read_audio_shape.
Qed.

Lemma read_audio_deinterleaves_witness :
  exists m,
    Audio.read_audio "generated/voices/7.mp3"
      (Ok (Audio.mkstream "audio" 2 4)) (Ok [1; 10; 2; 20; 3; 30]%R)
    = Ok (m, 4)
    /\ m = [[1; 2; 3]; [10; 20; 30]]%R.
Proof.
  destruct (read_audio_deinterleaves "generated/voices/7.mp3"
              (Audio.mkstream "audio" 2 4) [1; 10; 2; 20; 3; 30]%R)
    as (_ & _ & Hok).
  destruct Hok as (m & Hm & _); [reflexivity | reflexivity | reflexivity |].
  exists m. split; [exact Hm|].
  revert Hm. cbn. now intros [= <-].
Defined.

End Decoding.

(** What [read_audio] returns is what [visualize] needs: a clip that
    decodes as audio, with one channel or more (two when [stereo] is set), is
    a rectangular array of [len(buffer) / channels] samples per channel; when
    the driver renders it, it does so without an error, into
    [int(rate * duration)] frames, the duration being that number of samples
    over the sample rate. *)
Theorem decoded_clip_renders (c : config) (audioID audio : string)
    (s : Audio.stream) (wav : list R) (fs : list png) (window stride frames : Z) :
  Audio.codec_type s = "audio"%string ->
  (0 < Audio.channels s)%Z ->
  (Z.of_nat (length wav) mod Audio.channels s = 0)%Z ->
  (forall m, Audio.read_audio audio (Ok s) (Ok wav) = Ok (m, Audio.sample_rate s) ->
             clip_ok c (Audio.sample_rate s) m window stride frames) ->
  Binary64.frame_count c (Z.to_nat (Z.of_nat (length wav) / Audio.channels s))
    (Audio.sample_rate s) = Ok frames
  /\ exists new,
       Binary64.visualize audioID (Audio.read_audio audio (Ok s) (Ok wav)) c fs
       = (fs ++ new, Ok tt)
       /\ length new = Z.to_nat frames.
Proof.
  intros Hcodec Hc Hmod Hclip.
  destruct (read_audio_shape audio s wav Hcodec Hc Hmod)
    as (m & Hm & Hlen & Hrect & Hrows & _).
  specialize (Hclip m Hm). rewrite Hm.
  assert (Hhd : length (hd [] m) = (length wav / Z.to_nat (Audio.channels s))%nat).
  { destruct m as [|row m']; [simpl in Hlen; lia|].
    inversion Hrows as [|? ? Hrow _]. exact Hrow. }
  split.
  - rewrite <- (clip_frames _ _ _ _ _ _ Hclip), Hhd. do 2 f_equal.
    rewrite <- (Z2Nat.id (Audio.channels s)) at 1 by lia.
    now rewrite <- Nat2Z.inj_div, Nat2Z.id.
  - destruct (visualize64_ok c (Audio.sample_rate s) window stride frames
                (clip_bars _ _ _ _ _ _ Hclip) (clip_window _ _ _ _ _ _ Hclip)
                (clip_stride _ _ _ _ _ _ Hclip)
                ltac:(pose proof (clip_window_pos _ _ _ _ _ _ Hclip); lia)
                (clip_stride_pos _ _ _ _ _ _ Hclip) audioID m fs
                (clip_channels _ _ _ _ _ _ Hclip) (clip_rows _ _ _ _ _ _ Hclip)
                (clip_frames _ _ _ _ _ _ Hclip) (clip_fits _ _ _ _ _ _ Hclip))
      as (envs & new & _ & _ & _ & Hv & Hall).
    exists new. split; [exact Hv|].
    rewrite <- (Forall2_length Hall). unfold Py.range1.
    now rewrite length_map, length_seq.
Qed.

Lemma decoded_clip_renders_witness :
  exists new,
    Binary64.visualize "7"
      (Audio.read_audio "generated/voices/7.mp3" (Ok (Audio.mkstream "audio" 2 4))
         (Ok [1; 10; -1; -10; 2; 20; -2; -20; 1; 10; -1; -10; 2; 20; -2; -20]%R))
      demo_stereo []
    = ([] ++ new, Ok tt)
    /\ length new = 4%nat.
Proof.
  apply (decoded_clip_renders demo_stereo "7" "generated/voices/7.mp3"
           (Audio.mkstream "audio" 2 4)
           [1; 10; -1; -10; 2; 20; -2; -20; 1; 10; -1; -10; 2; 20; -2; -20]%R
           [] 2 1 4).
  - reflexivity.
  - reflexivity.
  - reflexivity.
  - intros m Hm. revert Hm. cbn. intros [= <-]. constructor.
    + unfold renderable. simpl. lia.
    + simpl. lia.
    + reflexivity.
    + repeat constructor.
    + intros wavs [= <-]. constructor; [|constructor; [|constructor]].
      * apply (std_nonzero _ 0 1); [simpl; lia | simpl; lia | simpl; lra].
      * apply (std_nonzero _ 0 1); [simpl; lia | simpl; lia | simpl; lra].
    + vm_compute. reflexivity.
    + lia.
    + vm_compute. reflexivity.
    + lia.
    + vm_compute. reflexivity.
    + vm_compute. reflexivity.
Defined.

(** ** [parse_color] and [fatal] *)

Section Colours.

Lemma split_nonempty (sep : ascii) (s : string) : Cli.split sep s <> [].
Proof.
  destruct s as [|ch s]; simpl; [discriminate|].
  destruct (Ascii.eqb ch sep); [discriminate|].
  destruct (Cli.split sep s); discriminate.
Qed.

Lemma split_join (sep : ascii) (s : string) : Cli.join sep (Cli.split sep s) = s.
Proof.
  induction s as [|ch s IH]; [reflexivity|]. simpl.
  destruct (Ascii.eqb_spec ch sep) as [->|Hne].
  - pose proof (split_nonempty sep s) as Hn.
    destruct (Cli.split sep s) as [|f fs]; [contradiction|].
    cbn [Cli.join]. simpl. now rewrite <- IH.
  - destruct (Cli.split sep s) as [|f fs] eqn:E.
    + exfalso. now apply (split_nonempty sep s).
    + rewrite <- IH. destruct fs; reflexivity.
Qed.

Lemma split_fields (sep : ascii) (s : string) :
  Forall (fun field => Cli.occurs sep field = false) (Cli.split sep s).
Proof.
  induction s as [|ch s IH]; simpl; [repeat constructor|].
  destruct (Ascii.eqb ch sep) eqn:E.
  - constructor; [reflexivity | exact IH].
  - destruct (Cli.split sep s) as [|f fs]; [repeat constructor; simpl; now rewrite E|].
    inversion IH as [|? ? Hf Hfs]; subst.
    constructor; [simpl; now rewrite E, Hf | exact Hfs].
Qed.

Lemma split_field_sep (sep : ascii) (field rest : string) :
  Cli.occurs sep field = false ->
  Cli.split sep (field ++ String sep rest) = field :: Cli.split sep rest.
Proof.
  induction field as [|ch field IH]; simpl; intros H.
  - now rewrite Ascii.eqb_refl.
  - apply orb_false_elim in H. destruct H as [Hch Hf].
    rewrite Hch, (IH Hf). reflexivity.
Qed.

Lemma split_single (sep : ascii) (field : string) :
  Cli.occurs sep field = false -> Cli.split sep field = [field].
Proof.
  induction field as [|ch field IH]; simpl; intros H; [reflexivity|].
  apply orb_false_elim in H. destruct H as [Hch Hf].
  now rewrite Hch, (IH Hf).
Qed.

Lemma split_of_join (sep : ascii) (fields : list string) :
  fields <> [] -> Forall (fun field => Cli.occurs sep field = false) fields ->
  Cli.split sep (Cli.join sep fields) = fields.
Proof.
  induction fields as [|f fs IH]; [congruence|]. intros _ H.
  inversion H as [|? ? Hf Hfs]; subst.
  destruct fs as [|g gs]; [now apply split_single|].
  change (Cli.join sep (f :: g :: gs))
    with (f ++ String sep (Cli.join sep (g :: gs)))%string.
  rewrite split_field_sep by exact Hf.
  f_equal. apply IH; [discriminate | exact Hfs].
Qed.

Context {F : Type} (float : string -> option F).

Lemma floats_ok (fields : list string) (values : list F) :
  Cli.floats float fields = Ok values
  <-> Forall2 (fun field x => float field = Some x) fields values.
Proof.
  revert values. induction fields as [|f fs IH]; intros values; simpl.
  - split; [intros [= <-]; constructor | intros H; now inversion H].
  - destruct (float f) as [x|] eqn:Ef.
    + destruct (Cli.floats float fs) as [xs|e] eqn:Efs.
      * split.
        -- intros [= <-]. constructor; [exact Ef | now apply IH].
        -- intros H. inversion H as [|? y ? ys Hy Hys]; subst.
           apply IH in Hys. congruence.
      * split; [discriminate|].
        intros H. inversion H as [|? y ? ys Hy Hys]; subst.
        apply IH in Hys. discriminate.
    + split; [discriminate|].
      intros H. inversion H; subst. congruence.
Qed.

Lemma floats_raise (fields : list string) (e : exn) :
  Cli.floats float fields = Raise e -> exists msg, e = ValueError msg.
Proof.
  induction fields as [|f fs IH]; simpl; [discriminate|].
  destruct (float f); [|intros [= <-]; eexists; reflexivity].
  destruct (Cli.floats float fs); [discriminate|].
  intros [= <-]. now apply IH.
Qed.

Lemma parse_raise (colorstr : string) (e : exn) :
  Py.bind (Cli.floats float (Cli.split "," colorstr)) (Cli.unpack3 (F := F)) = Raise e ->
  exists msg, e = ValueError msg.
Proof.
  destruct (Cli.floats float (Cli.split "," colorstr)) as [values|e'] eqn:Ef;
    cbn [Py.bind].
  - unfold Cli.unpack3.
    destruct values as [|r [|g [|b [|x values]]]]; cbn;
      try discriminate; intros [= <-]; eexists; reflexivity.
  - intros [= <-]. eapply floats_raise; eassumption.
Qed.

Lemma parse_color_returns (p : Cli.process) (colorstr : string)
    (stderr : list string) (color : F * F * F) :
  snd (Cli.parse_color float p colorstr stderr) = Cli.Returns color
  <-> Py.bind (Cli.floats float (Cli.split "," colorstr)) (Cli.unpack3 (F := F))
      = Ok color.
Proof.
  unfold Cli.parse_color, Cli.fatal.
  destruct (Py.bind _ _) as [col|e]; cbn [snd].
  - split; congruence.
  - destruct (Cli.is_main p); cbn [snd]; split; discriminate.
Qed.

End Colours.

(** [parse_color] returns a colour exactly for three fields without a comma,
    separated by two commas, each accepted by [float]; the colour is made of
    their values in that order.  A string of four components is rejected,
    although the docstring speaks of rgb(a). *)
Theorem parse_color_three_fields {F : Type} (float : string -> option F)
    (p : Cli.process) (colorstr : string) (stderr : list string) (r g b : F) :
  snd (Cli.parse_color float p colorstr stderr) = Cli.Returns (r, g, b)
  <-> exists f1 f2 f3,
        colorstr = (f1 ++ "," ++ f2 ++ "," ++ f3)%string
        /\ Cli.occurs "," f1 = false /\ Cli.occurs "," f2 = false
        /\ Cli.occurs "," f3 = false
        /\ float f1 = Some r /\ float f2 = Some g /\ float f3 = Some b.
Proof.
  rewrite parse_color_returns. split.
  - destruct (Cli.floats float (Cli.split "," colorstr)) as [values|e] eqn:Ef;
      cbn [Py.bind]; [|discriminate].
    unfold Cli.unpack3.
    destruct values as [|r' [|g' [|b' [|x values]]]]; cbn; try discriminate.
    intros [= -> -> ->]. apply floats_ok in Ef.
    pose proof (split_fields "," colorstr) as Hno.
    pose proof (split_join "," colorstr) as Hjoin.
    destruct (Cli.split "," colorstr) as [|f1 [|f2 [|f3 [|f4 fields]]]];
      repeat match goal with
             | H : Forall2 _ _ _ |- _ => inversion H; clear H; subst
             end.
    repeat match goal with
           | H : Forall _ (_ :: _) |- _ => inversion H; clear H; subst
           end.
    exists f1, f2, f3. repeat split; assumption.
  - intros (f1 & f2 & f3 & -> & N1 & N2 & N3 & H1 & H2 & H3).
    change (f1 ++ "," ++ f2 ++ "," ++ f3)%string
      with (Cli.join "," [f1; f2; f3]).
    rewrite split_of_join by (try discriminate; repeat constructor; assumption).
    simpl. now rewrite H1, H2, H3.
Qed.

Lemma parse_color_three_fields_witness :
  snd (Cli.parse_color demo_float (Cli.mkprocess false false) "1,0,1" [])
  = Cli.Returns (1, 0, 1)%Q
  /\ (forall r g b,
        snd (Cli.parse_color demo_float (Cli.mkprocess false false) "1,0,1,1" [])
        <> Cli.Returns (r, g, b)).
Proof.
  split.
  - apply (parse_color_three_fields demo_float).
    exists "1"%string, "0"%string, "1"%string. repeat split; reflexivity.
  - intros r g b H.
    apply (parse_color_three_fields demo_float) in H.
    destruct H as (f1 & f2 & f3 & E & N1 & N2 & N3 & _).
    assert (Hs : Cli.split "," "1,0,1,1" = [f1; f2; f3]).
    { rewrite E. change (f1 ++ "," ++ f2 ++ "," ++ f3)%string
        with (Cli.join "," [f1; f2; f3]).
      apply split_of_join; [discriminate | repeat constructor; assumption]. }
    discriminate Hs.
Defined.

(** How [parse_color] fails depends on the global [_is_main] only: as a
    library it re-raises the [ValueError] and leaves the standard error stream
    untouched; as the main program it never raises, it prints one line that
    ends with the format message and exits with status 1.  A success prints
    nothing in either mode. *)
Theorem parse_color_failure_modes {F : Type} (float : string -> option F)
    (p : Cli.process) (colorstr : string) (stderr : list string) :
  let message :=
    "Format for color is 3 floats separated by commas 0.xx,0.xx,0.xx, rgb order"%string in
  match Cli.parse_color float p colorstr stderr with
  | (stderr', Cli.Returns _) => stderr' = stderr
  | (stderr', Cli.Raises e) =>
      Cli.is_main p = false /\ stderr' = stderr /\ exists msg, e = ValueError msg
  | (stderr', Cli.Exits status) =>
      Cli.is_main p = true /\ status = 1%Z
      /\ stderr' = stderr ++ [((if Cli.isatty p then Cli.colorize "error: " 1
                                else "error: ") ++ message)%string]
  end.
Proof.
  intros message. unfold Cli.parse_color, Cli.fatal.
  destruct (Py.bind _ _) as [col|e] eqn:E; [reflexivity|].
  apply parse_raise in E.
  destruct (Cli.is_main p); repeat split; assumption.
Qed.

(** ** [TextToVoice]: identifiers and files *)

Section Voices.
Import TextToVoice.

Lemma listed_In (name : string) (voices : list string) :
  listed name voices = true <-> In name voices.
Proof.
  unfold listed. rewrite existsb_exists. split.
  - intros (x & Hin & Heq). apply String.eqb_eq in Heq. now subst.
  - intros Hin. exists name. split; [exact Hin | apply String.eqb_refl].
Qed.

Lemma get_id_sound (limit : nat) (draws : nat -> Z) (voices : list string) :
  forall k id k',
    get_id limit draws k voices = Done (id, k') ->
    listed (mp3 id) voices = false
    /\ (k < k' <= k + limit)%nat
    /\ id = draws (k' - 1)%nat
    /\ forall j, (k <= j < k' - 1)%nat -> listed (mp3 (draws j)) voices = true.
Proof.
  induction limit as [|limit IH]; intros k id k'; simpl; [discriminate|].
  destruct (listed (mp3 (draws k)) voices) eqn:E.
  - intros H. destruct (IH _ _ _ H) as (Hf & Hk & Hid & Hprev).
    split; [exact Hf|]. split; [lia|]. split; [exact Hid|].
    intros j Hj. destruct (Nat.eq_dec j k) as [->|Hne]; [exact E|].
    apply Hprev. lia.
  - intros [= <- <-]. split; [exact E|]. split; [lia|].
    split; [f_equal; lia|]. intros j Hj. lia.
Qed.

Lemma not_listed_filter (name : string) (voices : list string) :
  listed name (filter (fun other => negb (String.eqb name other)) voices) = false.
Proof.
  destruct (listed name _) eqn:E; [|reflexivity].
  apply listed_In, filter_In in E. destruct E as [_ E].
  now rewrite String.eqb_refl in E.
Qed.

Lemma filter_not_listed (name : string) (voices : list string) :
  listed name voices = false ->
  filter (fun other => negb (String.eqb name other)) voices = voices.
Proof.
  induction voices as [|v voices IH]; simpl; [reflexivity|].
  intros H. apply orb_false_elim in H. destruct H as [Hv Hrest].
  rewrite Hv. simpl. now rewrite IH.
Qed.

End Voices.

(** [get_id] returns the first identifier drawn whose file is not in the
    directory: the identifier it returns is free, every draw before it was
    taken, and it used no more draws than the recursion depth allows. *)
Theorem get_id_returns_first_free
    (limit : nat) (draws : nat -> Z) (k : nat) (voices : list string)
    (id : Z) (k' : nat) :
  TextToVoice.get_id limit draws k voices = TextToVoice.Done (id, k') ->
  ~ In (TextToVoice.mp3 id) voices
  /\ (k < k' <= k + limit)%nat
  /\ id = draws (k' - 1)%nat
  /\ forall j, (k <= j < k' - 1)%nat -> In (TextToVoice.mp3 (draws j)) voices.
Proof.
  intros H. destruct (get_id_sound limit draws voices k id k' H)
    as (Hf & Hk & Hid & Hprev).
  split.
  - intros Hin. apply listed_In in Hin. congruence.
  - split; [exact Hk|]. split; [exact Hid|].
    intros j Hj. apply listed_In, Hprev, Hj.
Qed.

Lemma get_id_returns_first_free_witness :
  TextToVoice.get_id 5 (fun j => Z.of_nat j + 7)%Z 0 ["7.mp3"; "8.mp3"]%string
  = TextToVoice.Done (9%Z, 3%nat)
  /\ ~ In (TextToVoice.mp3 9) ["7.mp3"; "8.mp3"]%string.
Proof.
  split; [reflexivity|].
  apply (get_id_returns_first_free 5 (fun j => Z.of_nat j + 7)%Z 0
           ["7.mp3"; "8.mp3"]%string 9 3).
  reflexivity.
Defined.

Lemma generate_new_voice
    (ext : TextToVoice.externals) (limit : nat) (draws : nat -> Z)
    (text : string) (id : option Z) (voices : list string) (k : nat)
    (voices' : list string) (k' : nat) (v : TextToVoice.voice) :
  TextToVoice.falsy id = true ->
  TextToVoice.generate ext limit draws text id voices k
  = (voices', k', TextToVoice.Done v) ->
  TextToVoice.listed (TextToVoice.mp3 (TextToVoice.v_id v)) voices = false
  /\ voices' = TextToVoice.mp3 (TextToVoice.v_id v) :: voices
  /\ TextToVoice.v_path v = TextToVoice.voice_path (TextToVoice.v_id v).
Proof.
  intros Hfalsy. unfold TextToVoice.generate. rewrite Hfalsy.
  destruct (TextToVoice.construct ext); [|discriminate].
  destruct (TextToVoice.get_id limit draws k voices) as [[id' k'']|e] eqn:Eid;
    [|discriminate].
  destruct (get_id_sound limit draws voices k id' k'' Eid) as (Hf & _).
  destruct (TextToVoice.synthesis ext); [|discriminate].
  destruct (TextToVoice.mp3_length ext) as [d|]; [|discriminate].
  intros [= <- <- <-]. cbn [TextToVoice.v_id TextToVoice.v_path].
  split; [exact Hf|]. split; [|reflexivity].
  unfold TextToVoice.create. now rewrite Hf.
Qed.

(** [generate] without an identifier never overwrites a voice: when the
    synthesis succeeds, the file it writes was not in the directory before,
    every other file is left as it was, and the path it returns is the file
    [visualize] opens for that identifier. *)
Theorem generate_writes_a_new_file
    (ext : TextToVoice.externals) (limit : nat) (draws : nat -> Z)
    (text : string) (id : option Z) (voices : list string) (k : nat)
    (voices' : list string) (k' : nat) (v : TextToVoice.voice) :
  TextToVoice.falsy id = true ->
  TextToVoice.generate ext limit draws text id voices k
  = (voices', k', TextToVoice.Done v) ->
  ~ In (TextToVoice.mp3 (TextToVoice.v_id v)) voices
  /\ voices' = TextToVoice.mp3 (TextToVoice.v_id v) :: voices
  /\ TextToVoice.v_path v = audio_path (Cli.str (TextToVoice.v_id v))
  /\ TextToVoice.v_text v = text
  /\ TextToVoice.mp3_length ext = Ok (TextToVoice.v_duration v)
  /\ (k < k')%nat /\ TextToVoice.v_id v = draws (k' - 1)%nat.
Proof.
  intros Hfalsy. unfold TextToVoice.generate. rewrite Hfalsy.
  destruct (TextToVoice.construct ext); [|discriminate].
  destruct (TextToVoice.get_id limit draws k voices) as [[id' k'']|e] eqn:Eid;
    [|discriminate].
  destruct (get_id_sound limit draws voices k id' k'' Eid) as (Hf & Hk & Hid & _).
  destruct (TextToVoice.synthesis ext); [|discriminate].
  destruct (TextToVoice.mp3_length ext) as [d|]; [|discriminate].
  intros [= <- <- <-]. cbn [TextToVoice.v_id TextToVoice.v_path
                            TextToVoice.v_text TextToVoice.v_duration].
  split; [intros Hin; apply listed_In in Hin; congruence|].
  split; [unfold TextToVoice.create; now rewrite Hf|].
  repeat split; try assumption; lia.
Qed.

Lemma generate_writes_a_new_file_witness :
  exists v,
    TextToVoice.generate (TextToVoice.mkexternals (Ok tt) (Ok tt) (Ok (3 # 2)))
      5 (fun j => Z.of_nat j + 7)%Z "hello" None ["7.mp3"; "8.mp3"]%string 0
    = (["9.mp3"; "7.mp3"; "8.mp3"]%string, 3%nat, TextToVoice.Done v)
    /\ TextToVoice.v_path v = "./generated/voices/9.mp3"%string
    /\ ~ In (TextToVoice.mp3 (TextToVoice.v_id v)) ["7.mp3"; "8.mp3"]%string.
Proof.
  eexists. split; [reflexivity|]. split; [reflexivity|].
  eapply (generate_writes_a_new_file
            (TextToVoice.mkexternals (Ok tt) (Ok tt) (Ok (3 # 2)))
            5 (fun j => Z.of_nat j + 7)%Z "hello" None ["7.mp3"; "8.mp3"]%string 0);
    reflexivity.
Defined.

(** An explicit identifier is kept exactly when it is not zero: a non-zero
    identifier is used without any random draw, its file being created or
    overwritten, while [id = 0] is treated like no identifier at all and
    replaced by a drawn one. *)
Theorem generate_explicit_id
    (ext : TextToVoice.externals) (limit : nat) (draws : nat -> Z)
    (text : string) (voices : list string) (k : nat) :
  TextToVoice.generate ext limit draws text (Some 0%Z) voices k
  = TextToVoice.generate ext limit draws text None voices k
  /\ forall n d,
       n <> 0%Z ->
       TextToVoice.construct ext = Ok tt -> TextToVoice.synthesis ext = Ok tt ->
       TextToVoice.mp3_length ext = Ok d ->
       exists voices',
         TextToVoice.generate ext limit draws text (Some n) voices k
         = (voices', k,
            TextToVoice.Done
              (TextToVoice.mkvoice n d (audio_path (Cli.str n)) text))
         /\ In (TextToVoice.mp3 n) voices'
         /\ (forall name, In name voices' <->
                          name = TextToVoice.mp3 n \/ In name voices)
         /\ (In (TextToVoice.mp3 n) voices -> voices' = voices).
Proof.
  split; [reflexivity|].
  intros n d Hn Hc Hs Hd. unfold TextToVoice.generate.
  rewrite Hc, Hs, Hd. cbn [TextToVoice.falsy].
  destruct (Z.eqb_spec n 0); [contradiction|].
  eexists. split; [reflexivity|].
  unfold TextToVoice.create.
  destruct (TextToVoice.listed (TextToVoice.mp3 n) voices) eqn:E.
  - apply listed_In in E. split; [exact E|]. split; [|reflexivity].
    intros name. split; [now right | intros [->|H]; assumption].
  - split; [now left|]. split.
    + intros name. simpl. split; intros [H|H]; auto.
    + intros Hin. apply listed_In in Hin. congruence.
Qed.

Lemma generate_explicit_id_witness :
  exists voices',
    TextToVoice.generate (TextToVoice.mkexternals (Ok tt) (Ok tt) (Ok (3 # 2)))
      5 (fun j => Z.of_nat j + 7)%Z "hello" (Some 7%Z) ["7.mp3"; "8.mp3"]%string 0
    = (voices', 0%nat,
       TextToVoice.Done
         (TextToVoice.mkvoice 7 (3 # 2) (audio_path (Cli.str 7)) "hello"))
    /\ voices' = ["7.mp3"; "8.mp3"]%string.
Proof.
  destruct (generate_explicit_id
              (TextToVoice.mkexternals (Ok tt) (Ok tt) (Ok (3 # 2)))
              5 (fun j => Z.of_nat j + 7)%Z "hello" ["7.mp3"; "8.mp3"]%string 0)
    as (_ & Hkeep).
  destruct (Hkeep 7%Z (3 # 2)) as (voices' & Hg & _ & _ & Hsame);
    try reflexivity; [discriminate|].
  exists voices'. split; [exact Hg|].
  apply Hsame. simpl. now left.
Defined.

(** [delete] undoes [generate]: deleting the voice that [generate] has
    just created under a drawn identifier restores the directory; and a voice
    can be deleted once only, a second [delete] raises [FileNotFoundError]
    and changes nothing. *)
Theorem delete_undoes_generate
    (ext : TextToVoice.externals) (limit : nat) (draws : nat -> Z)
    (text : string) (id : option Z) (voices : list string) (k : nat)
    (voices' : list string) (k' : nat) (v : TextToVoice.voice) :
  TextToVoice.falsy id = true ->
  TextToVoice.generate ext limit draws text id voices k
  = (voices', k', TextToVoice.Done v) ->
  TextToVoice.delete (TextToVoice.v_id v) voices' = (voices, TextToVoice.Done true)
  /\ TextToVoice.delete (TextToVoice.v_id v) voices
     = (voices,
        TextToVoice.Fail
          (TextToVoice.FileNotFoundError (TextToVoice.v_path v))).
Proof.
  intros Hfalsy Hgen.
  destruct (generate_new_voice ext limit draws text id voices k voices' k' v
              Hfalsy Hgen) as (Hfree & -> & Hpath).
  unfold TextToVoice.delete. split.
  - unfold TextToVoice.listed at 1. cbn [existsb]. rewrite String.eqb_refl.
    cbn [orb filter]. rewrite String.eqb_refl. cbn [negb].
    now rewrite filter_not_listed.
  - rewrite Hfree, Hpath. reflexivity.
Qed.

Lemma delete_undoes_generate_witness :
  TextToVoice.delete 9 ["9.mp3"; "7.mp3"; "8.mp3"]%string
  = (["7.mp3"; "8.mp3"]%string, TextToVoice.Done true)
  /\ TextToVoice.delete 9 ["7.mp3"; "8.mp3"]%string
     = (["7.mp3"; "8.mp3"]%string,
        TextToVoice.Fail (TextToVoice.FileNotFoundError "./generated/voices/9.mp3")).
Proof.
  apply (delete_undoes_generate
           (TextToVoice.mkexternals (Ok tt) (Ok tt) (Ok (3 # 2)))
           5 (fun j => Z.of_nat j + 7)%Z "hello" None ["7.mp3"; "8.mp3"]%string 0
           ["9.mp3"; "7.mp3"; "8.mp3"]%string 3
           (TextToVoice.mkvoice 9 (3 # 2) "./generated/voices/9.mp3" "hello"));
    reflexivity.
Defined.

(** ** [DisplayWave]: the polling viewer *)

Section Viewer.
Import DisplayWave.

Variable readable : string -> bool.

Lemma update_cases (v : viewer) :
  (update readable v = v)
  \/ (exists first rest,
        dir v = first :: rest /\ readable first = true
        /\ first = "zzz.png"%string
        /\ update readable v = mkviewer (dir v) (shown v ++ [first]))
  \/ (exists first rest,
        dir v = first :: rest /\ readable first = true
        /\ first <> "zzz.png"%string
        /\ update readable v = mkviewer rest (shown v ++ [first])).
Proof.
  unfold update. destruct (dir v) as [|first rest] eqn:E; [now left|].
  destruct (readable first) eqn:R; [|now left].
  destruct (String.eqb_spec first "zzz.png") as [->|Hne].
  - right. left. exists "zzz.png"%string, rest. repeat split. exact R.
  - right. right. exists first, rest. repeat split; assumption.
Qed.

Lemma updates_deletes (n : nat) :
  forall v, exists deleted,
    dir v = deleted ++ dir (updates readable n v)
    /\ (length deleted <= n)%nat
    /\ Forall (fun name => readable name = true /\ name <> "zzz.png"%string
                           /\ In name (shown (updates readable n v))) deleted
    /\ exists more, shown (updates readable n v) = shown v ++ more.
Proof.
  induction n as [|n IH]; intros v; simpl.
  - exists []. split; [reflexivity|]. split; [simpl; lia|]. split; [constructor|].
    exists []. now rewrite app_nil_r.
  - destruct (IH (update readable v)) as (deleted & Hdir & Hlen & Hall & more & Hshown).
    destruct (update_cases v) as [E | [(first & rest & Hd & Hr & Hz & E)
                                      | (first & rest & Hd & Hr & Hz & E)]].
    + rewrite E in *. exists deleted.
      split; [exact Hdir|]. split; [lia|]. split; [exact Hall|]. now exists more.
    + rewrite E in *. cbn [dir shown] in *. exists deleted.
      split; [exact Hdir|]. split; [lia|]. split; [exact Hall|].
      exists ([first] ++ more). now rewrite Hshown, <- app_assoc.
    + rewrite E in *. cbn [dir shown] in *. exists (first :: deleted).
      split; [rewrite Hd; simpl; f_equal; exact Hdir|].
      split; [simpl; lia|]. split.
      * constructor; [|exact Hall].
        split; [exact Hr|]. split; [exact Hz|].
        rewrite Hshown. apply in_or_app. left. apply in_or_app. right. now left.
      * exists ([first] ++ more). now rewrite Hshown, <- app_assoc.
Qed.

Lemma updates_stuck (n : nat) (v : viewer) :
  update readable v = v -> updates readable n v = v.
Proof.
  intros H. induction n as [|n IH]; simpl; [reflexivity|]. now rewrite H.
Qed.

Lemma updates_consumes (n : nat) :
  forall v,
    (n <= length (dir v))%nat ->
    Forall (fun name => readable name = true /\ name <> "zzz.png"%string)
           (firstn n (dir v)) ->
    updates readable n v = mkviewer (skipn n (dir v)) (shown v ++ firstn n (dir v)).
Proof.
  induction n as [|n IH]; intros v Hlen Hall; simpl.
  - rewrite app_nil_r. now destruct v.
  - destruct (dir v) as [|first rest] eqn:E; [simpl in Hlen; lia|].
    simpl in Hall. inversion Hall as [|? ? [Hr Hz] Hrest]; subst.
    unfold update. rewrite E, Hr.
    apply String.eqb_neq in Hz. rewrite Hz.
    rewrite IH; cbn [dir shown]; [|simpl in Hlen; lia | exact Hrest].
    now rewrite <- app_assoc.
Qed.

End Viewer.

(** The viewer only deletes what it has displayed, in the order of the
    listing, at most one file per call, and never [zzz.png]: after any
    number of calls the directory is the old one without a first run of
    files, each of them readable, displayed and different from [zzz.png];
    nothing that was displayed is forgotten. *)
Theorem viewer_deletes_what_it_shows
    (readable : string -> bool) (n : nat) (v : DisplayWave.viewer) :
  exists deleted,
    DisplayWave.dir v = deleted ++ DisplayWave.dir (DisplayWave.updates readable n v)
    /\ (length deleted <= n)%nat
    /\ Forall (fun name =>
                 readable name = true /\ name <> "zzz.png"%string
                 /\ In name (DisplayWave.shown (DisplayWave.updates readable n v)))
              deleted
    /\ (In "zzz.png"%string (DisplayWave.dir v) ->
        In "zzz.png"%string (DisplayWave.dir (DisplayWave.updates readable n v))).
Proof.
  destruct (updates_deletes readable n v) as (deleted & Hdir & Hlen & Hall & _).
  exists deleted. split; [exact Hdir|]. split; [exact Hlen|]. split; [exact Hall|].
  intros Hin. rewrite Hdir in Hin. apply in_app_or in Hin.
  destruct Hin as [Hin|Hin]; [|exact Hin].
  exfalso. apply (proj1 (Forall_forall _ _) Hall) in Hin.
  now destruct Hin as (_ & Hz & _).
Qed.

(** The viewer stalls on the first file of the listing when that file is
    [zzz.png] or cannot be read: no later file is ever displayed or deleted,
    however many calls are made; an unreadable first file is not even
    displayed. *)
Theorem viewer_stalls
    (readable : string -> bool) (n : nat) (v : DisplayWave.viewer)
    (first : string) (rest : list string) :
  DisplayWave.dir v = first :: rest ->
  (readable first = false -> DisplayWave.updates readable n v = v)
  /\ (first = "zzz.png"%string ->
      DisplayWave.dir (DisplayWave.updates readable n v) = DisplayWave.dir v
      /\ Forall (fun name => name = "zzz.png"%string)
                (skipn (length (DisplayWave.shown v))
                       (DisplayWave.shown (DisplayWave.updates readable n v)))).
Proof.
  intros Hdir. split.
  - intros Hr. apply updates_stuck. unfold DisplayWave.update. now rewrite Hdir, Hr.
  - intros ->. revert v Hdir. induction n as [|n IH]; intros v Hdir; simpl.
    + split; [reflexivity|]. rewrite skipn_all. constructor.
    + destruct (readable "zzz.png"%string) eqn:R.
      * assert (E : DisplayWave.update readable v
                    = DisplayWave.mkviewer (DisplayWave.dir v)
                        (DisplayWave.shown v ++ ["zzz.png"%string]))
          by (unfold DisplayWave.update; now rewrite Hdir, R).
        rewrite E. destruct (IH (DisplayWave.mkviewer (DisplayWave.dir v)
                                   (DisplayWave.shown v ++ ["zzz.png"%string])) Hdir)
          as [Hd Hs].
        cbn [DisplayWave.dir DisplayWave.shown] in Hd, Hs.
        split; [exact Hd|].
        destruct (updates_deletes readable n
                    (DisplayWave.mkviewer (DisplayWave.dir v)
                       (DisplayWave.shown v ++ ["zzz.png"%string])))
          as (_ & _ & _ & _ & more & Hmore).
        cbn [DisplayWave.shown] in Hmore. rewrite Hmore in Hs |- *.
        rewrite <- app_assoc in Hs |- *.
        rewrite length_app in Hs.
        rewrite skipn_app, skipn_all, Nat.sub_diag. cbn [app skipn].
        rewrite skipn_app in Hs.
        rewrite skipn_all2 in Hs by lia.
        replace (length (DisplayWave.shown v) + length ["zzz.png"%string]
                 - length (DisplayWave.shown v))%nat with 1%nat in Hs
          by (simpl; lia).
        cbn [app skipn] in Hs. now constructor.
      * assert (E : DisplayWave.update readable v = v)
          by (unfold DisplayWave.update; now rewrite Hdir, R).
        rewrite E. now apply IH.
Qed.

Lemma viewer_stalls_witness :
  DisplayWave.updates (fun _ => true) 3
    (DisplayWave.mkviewer ["zzz.png"; "7-000000.png"]%string [])
  = DisplayWave.mkviewer ["zzz.png"; "7-000000.png"]%string
      ["zzz.png"; "zzz.png"; "zzz.png"]%string
  /\ DisplayWave.dir
       (DisplayWave.updates (fun _ => true) 3
          (DisplayWave.mkviewer ["zzz.png"; "7-000000.png"]%string []))
     = ["zzz.png"; "7-000000.png"]%string.
Proof.
  split; [reflexivity|].
  destruct (viewer_stalls (fun _ => true) 3
              (DisplayWave.mkviewer ["zzz.png"; "7-000000.png"]%string [])
              "zzz.png" ["7-000000.png"]%string eq_refl) as [_ Hz].
  exact (proj1 (Hz eq_refl)).
Defined.

Lemma viewer_deletes_what_it_shows_witness :
  In "zzz.png"%string
     (DisplayWave.dir
        (DisplayWave.updates (fun _ => true) 5
           (DisplayWave.mkviewer ["7-000000.png"; "zzz.png"]%string []))).
Proof.
  destruct (viewer_deletes_what_it_shows (fun _ => true) 5
              (DisplayWave.mkviewer ["7-000000.png"; "zzz.png"]%string []))
    as (_ & _ & _ & _ & Hz).
  apply Hz. simpl. tauto.
Defined.

(** As long as the first files of the listing are readable and none is
    [zzz.png], each call displays the first file and deletes it: after [n]
    calls the first [n] files have been displayed, in the order of the
    listing and once each, and exactly they are gone. *)
Theorem viewer_consumes_in_order
    (readable : string -> bool) (n : nat) (v : DisplayWave.viewer) :
  (n <= length (DisplayWave.dir v))%nat ->
  Forall (fun name => readable name = true /\ name <> "zzz.png"%string)
         (firstn n (DisplayWave.dir v)) ->
  DisplayWave.updates readable n v
  = DisplayWave.mkviewer (skipn n (DisplayWave.dir v))
      (DisplayWave.shown v ++ firstn n (DisplayWave.dir v)).
Proof. apply updates_consumes. Qed.

Lemma viewer_consumes_in_order_witness :
  DisplayWave.updates (fun _ => true) 2
    (DisplayWave.mkviewer ["7-000000.png"; "7-000001.png"; "zzz.png"]%string [])
  = DisplayWave.mkviewer ["zzz.png"]%string ["7-000000.png"; "7-000001.png"]%string.
Proof.
  apply (viewer_consumes_in_order (fun _ => true) 2
           (DisplayWave.mkviewer ["7-000000.png"; "7-000001.png"; "zzz.png"]%string [])).
  - simpl. lia.
  - repeat constructor; discriminate.
Defined.

Lemma frame_name_length (audioID : string) (idx : Z) :
  (0 <= idx)%Z -> (11 <= String.length (frame_name audioID idx))%nat.
Proof.
  intros Hidx. unfold frame_name.
  rewrite !string_length_app. destruct (format_06d_width idx Hidx) as [_ ->].
  change (String.length "-") with 1%nat. change (String.length ".png") with 4%nat.
  lia.
Qed.

(** The frames [visualize] writes are never mistaken for the placeholder:
    a frame is stored under the working directory with a name of eleven
    characters or more, so it is not [zzz.png]; a viewer that finds the
    frames of a clip in the order of their indices, all readable, displays
    every one of them in that order and leaves the directory empty. *)
Theorem viewer_shows_every_frame
    (readable : string -> bool) (c : config) (audioID : string) (frames : Z)
    (shown : list string) :
  let names := map (frame_name audioID) (Py.range1 frames) in
  (forall name, In name names -> readable name = true) ->
  (forall idx, frame_path c audioID idx
               = (tmp c ++ "/" ++ frame_name audioID idx)%string)
  /\ (forall idx, (0 <= idx)%Z -> frame_name audioID idx <> "zzz.png"%string)
  /\ DisplayWave.updates readable (length names) (DisplayWave.mkviewer names shown)
     = DisplayWave.mkviewer [] (shown ++ names).
Proof.
  intros names Hread.
  assert (Hzzz : forall idx, (0 <= idx)%Z -> frame_name audioID idx <> "zzz.png"%string).
  { intros idx Hidx E. pose proof (frame_name_length audioID idx Hidx) as Hl.
    rewrite E in Hl. simpl in Hl. lia. }
  split; [reflexivity|]. split; [exact Hzzz|].
  rewrite updates_consumes; cbn [DisplayWave.dir DisplayWave.shown].
  - now rewrite skipn_all, firstn_all.
  - lia.
  - rewrite firstn_all. apply Forall_forall. intros name Hin.
    split; [now apply Hread|].
    unfold names in Hin. apply in_map_iff in Hin.
    destruct Hin as (idx & <- & Hidx). apply range1_elements in Hidx.
    apply Hzzz. lia.
Qed.

Lemma viewer_shows_every_frame_witness :
  DisplayWave.updates (fun _ => true) 3
    (DisplayWave.mkviewer ["7-000000.png"; "7-000001.png"; "7-000002.png"]%string [])
  = DisplayWave.mkviewer []
      ["7-000000.png"; "7-000001.png"; "7-000002.png"]%string.
Proof.
  destruct (viewer_shows_every_frame (fun _ => true) demo_config "7" 3 [])
    as (_ & _ & H); [reflexivity|]. exact H.
Defined.

(** ** Edge cases of [envelope], [interpole], [draw_env] and [visualize] *)

(** The envelope is empty exactly when the waveform is empty, or has a
    single sample and the window is odd: [envelope] then returns an empty
    array, it does not raise. *)
Theorem envelope_empty_iff (wav : list R) (window stride : Z) :
  (0 <= window)%Z -> (0 < stride)%Z ->
  exists e,
    envelope wav window stride = Ok e
    /\ (e = [] <-> (Z.of_nat (length wav) <= window mod 2)%Z).
Proof.
  intros Hw Hs.
  destruct (envelope wav window stride) as [e|x] eqn:He;
    [| rewrite envelope_ok in He; [discriminate | lia | lia] ].
  exists e. split; [reflexivity|].
  pose proof (envelope_length wav window stride e Hw Hs He) as Hlen.
  rewrite padded_length in Hlen by exact Hw.
  pose proof (Z.div_mod window 2 ltac:(lia)) as Hdm.
  pose proof (Z.mod_pos_bound window 2 ltac:(lia)) as Hm.
  set (n := Z.of_nat (length wav)) in *.
  replace (n + 2 * (window / 2) - window + stride - 1)%Z
    with (n - window mod 2 - 1 + 1 * stride)%Z in Hlen by lia.
  rewrite Z.div_add in Hlen by lia.
  split.
  - intros ->. simpl in Hlen.
    destruct (Z.le_gt_cases n (window mod 2)) as [Hle|Hgt]; [exact Hle|].
    assert (0 <= (n - window mod 2 - 1) / stride)%Z by (apply Z.div_pos; lia).
    lia.
  - intros Hle.
    assert ((n - window mod 2 - 1) / stride < 0)%Z
      by (apply Z.div_lt_upper_bound; lia).
    destruct e; [reflexivity | simpl in Hlen; lia].
Qed.

Lemma envelope_empty_iff_witness :
  exists e, envelope [1%R] 3 1 = Ok e /\ (e = [] <-> (Z.of_nat 1 <= 3 mod 2)%Z).
Proof.
  apply (envelope_empty_iff [1%R] 3 1); lia.
Defined.

(** [interpole] is the line through [(x1, y1)] and [(x2, y2)]: it takes
    the value [y1] at [x1] and [y2] at [x2], and is affine in between and
    beyond. *)
Theorem interpole_through_points (x1 y1 x2 y2 : R) :
  x1 <> x2 ->
  interpole x1 y1 x2 y2 x1 = y1
  /\ interpole x1 y1 x2 y2 x2 = y2
  /\ forall a b t,
       interpole x1 y1 x2 y2 (t * a + (1 - t) * b)%R
       = (t * interpole x1 y1 x2 y2 a + (1 - t) * interpole x1 y1 x2 y2 b)%R.
Proof.
  intros Hne. unfold interpole.
  assert (Hd : (x2 - x1)%R <> 0%R) by lra.
  repeat split; intros; field; exact Hd.
Qed.

Lemma interpole_through_points_witness :
  interpole (-6) 0.5 0 2 (-6) = 0.5%R /\ interpole (-6) 0.5 0 2 0 = 2%R.
Proof.
  destruct (interpole_through_points (-6) 0.5 0 2) as (H1 & H2 & _); [lra|].
  split; assumption.
Defined.

Section DrawErrors.

Lemma for_raises {A S : Type} (body : A -> S -> result S) (done : list A)
    (x : A) (rest : list A) (e : exn) :
  (forall y s, In y done -> exists s', body y s = Ok s') ->
  (forall s, body x s = Raise e) ->
  forall s, Py.for_ (done ++ x :: rest) body s = Raise e.
Proof.
  intros Hdone Hx. induction done as [|y done IH]; intros s; simpl.
  - now rewrite Hx.
  - destruct (Hdone y s (or_introl eq_refl)) as (s' & ->).
    apply IH. intros z s'' Hz. apply Hdone. now right.
Qed.

Lemma index_fails {A : Type} (a : list A) (i : nat) :
  (length a <= i)%nat -> Py.index a i = Raise IndexError.
Proof.
  intros H. unfold Py.index.
  now rewrite (proj2 (nth_error_None a i) H).
Qed.

End DrawErrors.

(** [draw_env] raises, and writes no file, when there is nothing to draw or
    not enough colours: an [IndexError] without any channel, a
    [ZeroDivisionError] when the first channel has no value, an [IndexError]
    when there are more channels than foreground colours. *)
Theorem draw_env_rejects (envs : list (list R)) (out : string)
    (fg_colors : list rgb) (bg : rgb) (size : Z * Z) :
  (envs = [] -> draw_env envs out fg_colors bg size = Raise IndexError)
  /\ (hd [0%R] envs = [] ->
      draw_env envs out fg_colors bg size = Raise ZeroDivisionError)
  /\ (Forall (fun env => env <> []) envs ->
      (length fg_colors < length envs)%nat ->
      draw_env envs out fg_colors bg size = Raise IndexError).
Proof.
  split; [|split].
  - intros ->. reflexivity.
  - intros H. destruct envs as [|env0 envs']; [discriminate|].
    simpl in H. subst env0. reflexivity.
  - intros Hne Hlt. unfold draw_env.
    assert (Hidx : forall i, (i < length envs)%nat ->
                     exists x rest, Py.index envs i = Ok (x :: rest)).
    { intros i Hi. rewrite (index_ok envs i []) by exact Hi.
      assert (Hn := proj1 (Forall_forall _ _) Hne _ (nth_In envs [] Hi)).
      destruct (nth i envs []) as [|x rest]; [congruence|]. now exists x, rest. }
    destruct (Hidx 0%nat ltac:(lia)) as (x0 & rest0 & ->). cbn [Py.bind].
    cbn [length Nat.eqb Py.bind seq Py.for_].
    set (K := length envs) in *. set (m := length fg_colors) in *.
    replace (seq 0 K) with (seq 0 m ++ m :: seq (S m) (K - S m)).
    + rewrite (for_raises _ (seq 0 m) m _ IndexError); [reflexivity | |].
      * intros i s Hi. apply in_seq in Hi. unfold draw_bar.
        destruct (Hidx i ltac:(lia)) as (x & rest & ->). cbn [Py.bind Py.index nth_error].
        rewrite (index_ok fg_colors i (0, 0, 0)%Q) by (fold m; lia).
        cbn [Py.bind]. eexists. reflexivity.
      * intros s. unfold draw_bar.
        destruct (Hidx m Hlt) as (x & rest & ->). cbn [Py.bind Py.index nth_error].
        rewrite (index_fails fg_colors m) by (fold m; lia). reflexivity.
    + replace K with (m + S (K - S m))%nat at 2 by lia.
      rewrite seq_app. reflexivity.
Qed.

Lemma draw_env_rejects_witness :
  draw_env [[1%R]; [1%R]; [1%R]] "frame.png" [(0, 0, 0)%Q; (1, 0, 0)%Q] (1, 1, 1)%Q
           (400, 400)%Z
  = Raise IndexError.
Proof.
  destruct (draw_env_rejects [[1%R]; [1%R]; [1%R]] "frame.png"
              [(0, 0, 0)%Q; (1, 0, 0)%Q] (1, 1, 1)%Q (400, 400)%Z) as (_ & _ & H).
  apply H; [repeat constructor; discriminate | simpl; lia].
Defined.

(** A zero bar count or a zero oversampling makes [visualize] raise a
    [ZeroDivisionError] when it derives the window and the stride, before
    any frame is written. *)
Theorem visualize_division_by_zero
    (audioID : string) (wav : list (list R)) (sr : Q) (c : config) (fs : list png) :
  (stereo c = true -> length wav = 2%nat) ->
  bars c = 0%Z \/ oversample c == 0 ->
  visualize audioID (Ok (wav, sr)) c fs = (fs, Raise ZeroDivisionError).
Proof.
  intros Hst Hzero. unfold visualize.
  assert (Ha : analyse c wav sr = Raise ZeroDivisionError); [|now rewrite Ha].
  unfold analyse.
  assert (Hsel : exists wavs, select_channels (stereo c) wav = Ok wavs).
  { unfold select_channels. destruct (stereo c).
    - rewrite (Hst eq_refl). eexists. reflexivity.
    - eexists. reflexivity. }
  destruct Hsel as (wavs & ->). cbn [Py.bind].
  unfold derive_window, derive_stride.
  destruct (Z.eq_dec (bars c) 0) as [Hb|Hb].
  - rewrite Hb. reflexivity.
  - destruct Hzero as [Hz|Hz]; [contradiction|].
    rewrite truediv_ok by now apply inject_Z_neq. cbn [Py.bind].
    now rewrite (truediv_zero _ _ Hz).
Qed.

Lemma visualize_division_by_zero_witness :
  visualize "7" (Ok (demo_wav, 4))
    {| tmp := "generated/tmp"; rate := 2; bars := 0; speed := 4; time := 1;
       oversample := 2; fg_color := (0, 0, 0)%Q; fg_color2 := (0, 0, 0)%Q;
       bg_color := (1, 1, 1)%Q; size := (400, 400)%Z; stereo := false |} []
  = ([], Raise ZeroDivisionError).
Proof.
  apply visualize_division_by_zero; [discriminate | now left].
Defined.

(** Identical channels downmix to themselves: for a mono file, or a file
    whose channels all carry the same samples, the channel [visualize] draws
    without [stereo] is that very channel. *)
Theorem downmix_of_identical_channels (wav : list R) (n : nat) :
  (0 < n)%nat -> Np.mean_axis0 (repeat wav n) = wav.
Proof.
  intros Hn. unfold Np.mean_axis0.
  assert (Hhd : hd [] (repeat wav n) = wav) by (destruct n; [lia | reflexivity]).
  rewrite Hhd.
  apply (nth_ext _ _ 0%R 0%R); [now rewrite length_map, length_seq|].
  intros j Hj. rewrite length_map, length_seq in Hj.
  rewrite nth_map_seq by exact Hj.
  rewrite map_repeat. unfold Np.mean. rewrite repeat_length.
  set (x := nth j wav 0%R).
  assert (Hsum : forall k, Np.sum (repeat x k) = (INR k * x)%R).
  { induction k as [|k IH]; [simpl; ring|].
    cbn [repeat]. unfold Np.sum in *. cbn [fold_right]. rewrite IH, S_INR. ring. }
  rewrite (Hsum n). field. apply not_0_INR. lia.
Qed.

Lemma downmix_of_identical_channels_witness :
  Np.mean_axis0 [[1; -1; 2]; [1; -1; 2]]%R = [1; -1; 2]%R.
Proof.
  apply (downmix_of_identical_channels [1; -1; 2]%R 2). lia.
Defined.
